(** * vitest-vscode: project discovery, prefix disambiguation, worker bootstrap
      and RPC dispatch

    A shallow embedding of
      - the project discovery module ([resolveVitestPackages],
        [resolveVitestPackagesViaConfigs], [resolveVitestPackagesViaPackageJson],
        [resolveVitestConfig], [validateVitestPkg],
        [findFirstUniqueFolderNames], [resolvePackagUniquePrefixes]),
      - the worker entry module (the [init] message handler, [error], the
        dictionary of contexts and the [configResolved] hook of the plugin
        handed to the engine),
      - [worker/actions.ts] ([createWorkerMethods]).

    Conventions.
      - JavaScript strings are [string], arrays are [list].
      - A plain object used as a dictionary is a finite map over its own
        keys: a [gmap] where the code only reads and writes it, the list of
        its properties in insertion order ([Js.obj]) where the code enumerates
        it.  Where a key is a path segment or an id handed in by a caller
        ([mapCount], [vitestById]), a read also finds the members inherited
        from [Object.prototype] ([constructor], [toString], ...).  The keys
        of the other dictionaries are prefixes, ids and directories, which
        hold a colon or a slash and are never such names.
      - Numbers that are only ever counters are [Js.jsnum] (a natural number,
        [+Infinity] or [NaN]); what a counter object holds is a [Js.jsval];
        [undefined] read from a dictionary is [None].
      - Code that calls the editor, the file system or the process is a
        function of a [Host] record that answers those calls; what the code
        does to its surroundings is recorded in the value it returns.
      - Functions of other packages ([pathe], [semver]) and of files of the
        repository that are not modelled ([./resolve], [./vitest], [./rpc])
        are fields of the [Host] records or section variables. *)

From Stdlib Require Import Ascii.
From stdpp Require Import base option list strings sorting gmap.

(** Decide a closed decidable proposition by evaluation. *)
Ltac by_evaluation :=
  lazymatch goal with
  | |- ?P => apply (bool_decide_unpack P); vm_compute; exact I
  end.

(* ===================================================================== *)
(** * JavaScript primitives used by the sources *)
(* ===================================================================== *)

Module Js.

(** The numbers the sources compute with: counters, [Number.POSITIVE_INFINITY]
    and the [NaN] that [undefined + 1] produces. *)
Inductive jsnum : Type :=
| Fin (n : nat)
| PosInf
| NaN.

(** [a < b] on numbers: any comparison with [NaN] is [false]. *)
Definition lt (a b : jsnum) : bool :=
  match a, b with
  | Fin x, Fin y => x <? y
  | Fin _, PosInf => true
  | _, _ => false
  end.

(** [x + 1] on a number. *)
Definition add1 (x : jsnum) : jsnum :=
  match x with
  | Fin n => Fin (S n)
  | PosInf => PosInf
  | NaN => NaN
  end.

(** ** Plain objects used as counters

    An object created by [{}] inherits the members of [Object.prototype]: a
    read of one of these keys finds the inherited member when the object has
    no property of that name of its own. *)
Definition prototype_members : list string :=
  ["constructor"; "hasOwnProperty"; "isPrototypeOf"; "propertyIsEnumerable";
   "toLocaleString"; "toString"; "valueOf";
   "__defineGetter__"; "__defineSetter__";
   "__lookupGetter__"; "__lookupSetter__"; "__proto__"].

Definition inherited (k : string) : bool :=
  bool_decide (k ∈ prototype_members).

(** What a read of a counter object yields: a number, or a value that is no
    number.  [Text k 0] is the inherited member [k] itself (a function, or
    [Object.prototype] for [__proto__]); [Text k n] is the string that [+ 1]
    makes of it after [n] rounds, the source text of the member followed by
    [n] characters [1].  The operations below treat the member as that text,
    to which JavaScript converts it first: it is truthy, [+] concatenates,
    and as a number it is [NaN]. *)
Inductive jsval : Type :=
| Num (x : jsnum)
| Text (k : string) (ones : nat).

(** [o[k]] on a counter object with the own properties [o]. *)
Definition read (o : gmap string jsval) (k : string) : option jsval :=
  match o !! k with
  | Some v => Some v
  | None => if inherited k then Some (Text k 0) else None
  end.

(** [o[k] = v] for a number or a string [v]: the inherited setter of
    [__proto__] ignores such a value, any other key becomes or stays an own
    property. *)
Definition write (o : gmap string jsval) (k : string) (v : jsval)
  : gmap string jsval :=
  if decide (k = "__proto__") then o else <[k := v]> o.

(** [v || 0] for a read [v]: [undefined], [0] and [NaN] are falsy. *)
Definition or_zero (v : option jsval) : jsval :=
  match v with
  | Some (Num (Fin (S n))) => Num (Fin (S n))
  | Some (Num PosInf) => Num PosInf
  | Some (Text k n) => Text k n
  | _ => Num (Fin 0)
  end.

(** [v + 1]: addition on a number, concatenation on a string. *)
Definition plus_one (v : jsval) : jsval :=
  match v with
  | Num x => Num (add1 x)
  | Text k n => Text k (S n)
  end.

(** The value stored by [o[k]++]: [ToNumber(o[k]) + 1], where [undefined]
    and the text of a member convert to [NaN]. *)
Definition incr (v : option jsval) : jsval :=
  match v with
  | Some (Num x) => Num (add1 x)
  | Some (Text _ _) | None => Num NaN
  end.

(** [s.split(sep)] for a one-character separator. *)
Fixpoint split (sep : ascii) (s : string) : list string :=
  match s with
  | EmptyString => [""]
  | String c s' =>
      if Ascii.eqb c sep then "" :: split sep s'
      else match split sep s' with
           | x :: xs => String c x :: xs
           | [] => [String c ""]
           end
  end.

(** [s.startsWith(p)]. *)
Fixpoint startsWith (p s : string) : bool :=
  match p, s with
  | EmptyString, _ => true
  | String a p', String b s' => Ascii.eqb a b && startsWith p' s'
  | String _ _, EmptyString => false
  end.

(** [s.includes(p)]: [p] occurs somewhere in [s]. *)
Fixpoint includes (p s : string) : bool :=
  startsWith p s ||
  match s with
  | EmptyString => false
  | String _ s' => includes p s'
  end.

(** [xs.includes(x)] on an array of strings. *)
Definition array_includes (xs : list string) (x : string) : bool :=
  bool_decide (x ∈ xs).

(** ** Plain objects enumerated by the code

    An object with string keys is the list of its own properties in insertion
    order.  Enumeration ([for ... in], [Object.entries]) visits the keys that
    are array indices first, in ascending numeric order, and then the other
    keys in insertion order. *)

Definition obj (V : Type) : Type := list (string * V).

(** [o[k]] *)
Fixpoint obj_get {V} (o : obj V) (k : string) : option V :=
  match o with
  | [] => None
  | (k', v) :: o' => if decide (k' = k) then Some v else obj_get o' k
  end.

(** [o[k] = v]: an existing key keeps its place. *)
Fixpoint obj_set {V} (o : obj V) (k : string) (v : V) : obj V :=
  match o with
  | [] => [(k, v)]
  | (k', v') :: o' =>
      if decide (k' = k) then (k, v) :: o' else (k', v') :: obj_set o' k v
  end.

Fixpoint parse_digits (acc : N) (s : string) : option N :=
  match s with
  | EmptyString => Some acc
  | String c s' =>
      match Ascii.is_nat c with
      | Some d => parse_digits (acc * 10 + N.of_nat d) s'
      | None => None
      end
  end.

(** The array index a key denotes, if any: the canonical decimal form of an
    integer below [2^32 - 1]. *)
Definition array_index (k : string) : option N :=
  match k with
  | EmptyString => None
  | String c rest =>
      if Ascii.eqb c "0" && negb (String.eqb rest "") then None
      else match parse_digits 0 k with
           | Some n => if (n <? 4294967295)%N then Some n else None
           | None => None
           end
  end.

Definition key_index {V} (e : string * V) : N := default 0%N (array_index e.1).

Definition index_le {V} (a b : string * V) : Prop :=
  (key_index a ≤ key_index b)%N.

#[global] Instance index_le_dec {V} : RelDecision (@index_le V).
Proof. intros a b. unfold index_le. apply _. Defined.

(** [Object.entries(o)], also the order of [for (const k in o)]. *)
Definition obj_entries {V} (o : obj V) : list (string * V) :=
  merge_sort index_le
    (filter (λ e, is_Some (array_index e.1)) o)
  ++ filter (λ e, ¬ is_Some (array_index e.1)) o.

(** A string option read as a condition: [undefined] and [''] are falsy. *)
Definition truthy (o : option string) : option string :=
  match o with
  | Some s => if decide (s = "") then None else Some s
  | None => None
  end.

(** The double quote character, for messages. *)
Definition dquote : string := String "034"%char "".

(** ** Facts about counter objects *)

Lemma read_write_ne (o : gmap string jsval) k v u :
  k ≠ u → read (write o k v) u = read o u.
Proof.
  intros Hne. unfold write. case_decide; [done|].
  unfold read. by rewrite lookup_insert_ne.
Qed.

Lemma read_write_eq (o : gmap string jsval) k v :
  k ≠ "__proto__" → read (write o k v) k = Some v.
Proof.
  intros Hk. unfold write. rewrite decide_False by done.
  unfold read. by rewrite lookup_insert_eq.
Qed.

Lemma read_write_proto (o : gmap string jsval) v u :
  read (write o "__proto__" v) u = read o u.
Proof. done. Qed.

(** ** Facts about enumerated objects *)

Lemma obj_get_set {V} (o : obj V) k v k' :
  obj_get (obj_set o k v) k' = if decide (k = k') then Some v else obj_get o k'.
Proof.
  induction o as [|[k0 v0] o IH]; simpl; [done|].
  destruct (decide (k0 = k)) as [->|Hne]; simpl.
  - by repeat case_decide.
  - rewrite IH. repeat case_decide; congruence.
Qed.

Lemma obj_set_keys {V} (o : obj V) k v :
  (obj_set o k v).*1 = if decide (k ∈ o.*1) then o.*1 else o.*1 ++ [k].
Proof.
  induction o as [|[k0 v0] o IH]; csimpl; [done|].
  destruct (decide (k0 = k)) as [->|Hne]; csimpl.
  - rewrite decide_True by apply list_elem_of_here. done.
  - rewrite IH. destruct (decide (k ∈ o.*1)) as [Hin|Hnin].
    + by rewrite decide_True by by apply list_elem_of_further.
    + rewrite decide_False; [done|].
      intros [?|?]%elem_of_cons; congruence.
Qed.

Lemma obj_set_NoDup {V} (o : obj V) k v : NoDup o.*1 → NoDup (obj_set o k v).*1.
Proof.
  intros Hnd. rewrite obj_set_keys. case_decide as Hin; [done|].
  apply NoDup_app. split; [done|]. split; [|apply NoDup_singleton].
  intros x Hx Hx'. apply elem_of_cons in Hx' as [->|Hx']; [done|].
  by apply elem_of_nil in Hx'.
Qed.

Lemma obj_get_elem {V} (o : obj V) k v :
  NoDup o.*1 → (k, v) ∈ o ↔ obj_get o k = Some v.
Proof.
  induction o as [|[k0 v0] o IH]; simpl; intros Hnd.
  - split; [intros H; by apply elem_of_nil in H | done].
  - apply NoDup_cons in Hnd as [Hnin Hnd]. rewrite elem_of_cons, (IH Hnd).
    case_decide as Hk.
    + subst k0. split; [|intros [= ->]; by left].
      intros [[= ->]|Hget]; [done|]. destruct Hnin.
      apply IH in Hget; [|done]. apply list_elem_of_fmap. by exists (k, v).
    + split; [|by right]. intros [[= -> ->]|Hget]; done.
Qed.

Lemma obj_entries_Permutation {V} (o : obj V) : obj_entries o ≡ₚ o.
Proof.
  unfold obj_entries. rewrite merge_sort_Permutation.
  apply filter_app_complement.
Qed.

(** ** Facts about strings *)

Lemma string_length_append (s t : string) :
  String.length (s +:+ t) = String.length s + String.length t.
Proof.
  induction s as [|a s IH]; [done|].
  change (String a s +:+ t) with (String a (s +:+ t)). simpl. by rewrite IH.
Qed.

Lemma string_append_cancel_r (s1 s2 t : string) :
  s1 +:+ t = s2 +:+ t → s1 = s2.
Proof.
  revert s2. induction s1 as [|a s1 IH]; intros [|b s2] Heq; [done|..].
  - apply (f_equal String.length) in Heq. exfalso.
    change (String b s2 +:+ t) with (String b (s2 +:+ t)) in Heq.
    change ("" +:+ t) with t in Heq. simpl in Heq.
    rewrite string_length_append in Heq. lia.
  - apply (f_equal String.length) in Heq. exfalso.
    change (String a s1 +:+ t) with (String a (s1 +:+ t)) in Heq.
    change ("" +:+ t) with t in Heq. simpl in Heq.
    rewrite string_length_append in Heq. lia.
  - change (String a s1 +:+ t) with (String a (s1 +:+ t)) in Heq.
    change (String b s2 +:+ t) with (String b (s2 +:+ t)) in Heq.
    injection Heq as -> Heq. f_equal. by apply IH.
Qed.

Lemma string_append_nil_r (s : string) : s +:+ "" = s.
Proof.
  induction s as [|a s IH]; [done|].
  change (String a s +:+ "") with (String a (s +:+ "")). by rewrite IH.
Qed.

End Js.

(* ===================================================================== *)
(** * [findFirstUniqueFolderNames] *)
(* ===================================================================== *)

Module UniqueFolders.
Import Js.

(** [p.split('/').reverse().slice(2)] *)
Definition path_segments (p : string) : list string :=
  drop 2 (reverse (split "/"%char p)).

(** First pass, one segment:
    [if (!str) return; mapCount[str] = (mapCount[str] || 0) + 1]. *)
Definition count_segment (mapCount : gmap string jsval) (str : string)
  : gmap string jsval :=
  if decide (str = "") then mapCount
  else write mapCount str (plus_one (or_zero (read mapCount str))).

(** First pass over every path's segments. *)
Definition count_segments (segments : list (list string))
  : gmap string jsval :=
  foldl (fun m segs => foldl count_segment m segs) ∅ segments.

(** Second pass, body of the inner [forEach]:
    [if (mapCount[str] < minCount && !folders.includes(str))
       { minCount = mapCount[str]; folder = str }].
    A missing count is [undefined] and the count of a segment named like an
    inherited member is not a number: both compare [false]. *)
Definition pick (mapCount : gmap string jsval) (folders : list string)
    (st : jsnum * string) (str : string) : jsnum * string :=
  match read mapCount str with
  | Some (Num c) =>
      if lt c st.1 && negb (array_includes folders str) then (c, str) else st
  | Some (Text _ _) | None => st
  end.

(** Second pass, body of the outer [forEach]: [scan] runs the inner [forEach]
    from [minCount = +Infinity], [folder = ''] and yields the final [folder];
    then [mapCount[folder]++; folders.push(folder)]. *)
Definition scan (mapCount : gmap string jsval) (folders segs : list string)
  : string :=
  (foldl (pick mapCount folders) (PosInf, "") segs).2.

Definition choose (st : gmap string jsval * list string) (segs : list string)
  : gmap string jsval * list string :=
  let folder := scan st.1 st.2 segs in
  (write st.1 folder (incr (read st.1 folder)), st.2 ++ [folder]).

Definition findFirstUniqueFolderNames (paths : list string) : list string :=
  let segments := path_segments <$> paths in
  (foldl choose (count_segments segments, []) segments).2.

(** ** Properties of the two passes *)

(** The chosen disambiguators that are not the empty string. *)
Definition nonempty (folders : list string) : list string :=
  filter (λ s, s ≠ "") folders.

(** A dictionary read that is an ordinary counter. *)
Definition is_fin (v : option jsval) : Prop :=
  match v with Some (Num (Fin _)) => True | _ => False end.

Lemma lt_true_fin c m : lt c m = true → ∃ n, c = Fin n.
Proof. destruct c; simpl; eauto; discriminate. Qed.

Lemma is_fin_incr v : is_fin v → is_fin (Some (incr v)).
Proof. by destruct v as [[[]|]|]. Qed.

Lemma not_is_fin_incr v : ¬ is_fin v → ¬ is_fin (Some (incr v)).
Proof. destruct v as [[[]|]|]; simpl; tauto. Qed.

(** *** The inner scan *)

Lemma pick_cases m folders st str :
  pick m folders st str = st ∨
  ((str ∉ folders) ∧ ∃ n, read m str = Some (Num (Fin n))
     ∧ pick m folders st str = (Fin n, str)).
Proof.
  unfold pick. destruct (read m str) as [[c|]|] eqn:Hc; [|by left..].
  destruct (lt c st.1 && negb (array_includes folders str)) eqn:Hb; [|by left].
  right. apply andb_true_iff in Hb as [Hlt Hin].
  apply lt_true_fin in Hlt as [n ->].
  apply negb_true_iff, bool_decide_eq_false in Hin. eauto.
Qed.

(** The scan returns either the initial folder or one of the scanned
    segments, and a scanned segment is never one already in [folders]. *)
Lemma scan_in m folders segs st :
  (foldl (pick m folders) st segs).2 = st.2 ∨
  ((foldl (pick m folders) st segs).2 ∈ segs
     ∧ (foldl (pick m folders) st segs).2 ∉ folders).
Proof.
  revert st. induction segs as [|str segs IH]; intros st; simpl; [by left|].
  destruct (IH (pick m folders st str)) as [Heq|[Hin Hnin]].
  - rewrite Heq.
    destruct (pick_cases m folders st str) as [->|(Hn & n & _ & ->)];
      [by left|]. right. split; [apply list_elem_of_here | done].
  - right. split; [by apply list_elem_of_further | done].
Qed.

(** Either nothing has been picked yet, or the current pick is a non-empty
    segment with a finite count. *)
Definition picked (st : jsnum * string) : Prop :=
  ∃ n, st.1 = Fin n ∧ st.2 ≠ "".

Lemma pick_picked m folders st str :
  ¬ is_fin (read m "") → picked st → picked (pick m folders st str).
Proof.
  intros H0 Hp.
  destruct (pick_cases m folders st str) as [->|(_ & n & Hm & ->)]; [done|].
  exists n. split; [done|]. simpl. intros ->. by rewrite Hm in H0.
Qed.

Lemma scan_picked m folders segs st :
  ¬ is_fin (read m "") → picked st → picked (foldl (pick m folders) st segs).
Proof.
  intros H0. revert st. induction segs as [|str segs IH]; intros st Hp; [done|].
  simpl. by apply IH, pick_picked.
Qed.

(** Scanning an available segment with a finite count leaves a pick. *)
Lemma pick_available m folders st u :
  ¬ is_fin (read m "") → is_fin (read m u) → u ∉ folders →
  st.1 = PosInf ∨ picked st → picked (pick m folders st u).
Proof.
  intros H0 Hu Hnin [Hinf|Hp]; [|by apply pick_picked].
  unfold pick. destruct (read m u) as [[[n| |]|]|] eqn:Hm; try done.
  rewrite Hinf. simpl.
  assert (array_includes folders u = false) as -> by by apply bool_decide_eq_false.
  simpl. exists n. split; [done|]. simpl. intros ->. by rewrite Hm in H0.
Qed.

Lemma scan_available m folders segs u :
  ¬ is_fin (read m "") → is_fin (read m u) → u ∉ folders → u ∈ segs →
  scan m folders segs ≠ "".
Proof.
  intros H0 Hu Hnin Hin. unfold scan.
  enough (∀ st, st.1 = PosInf ∨ picked st →
            picked (foldl (pick m folders) st segs)) as H.
  { destruct (H (PosInf, "")) as (n & _ & Hne); [by left | done]. }
  induction segs as [|str segs IH]; intros st Hst; [by apply elem_of_nil in Hin|].
  simpl. apply elem_of_cons in Hin as [<-|Hin].
  - apply scan_picked; [done|]. by apply pick_available.
  - apply IH; [done|].
    destruct Hst as [Hinf|Hp]; [|right; by apply pick_picked].
    destruct (pick_cases m folders st str) as [->|(_ & n & Hm & ->)]; [by left|].
    right. exists n. split; [done|]. simpl. intros ->. by rewrite Hm in H0.
Qed.

Lemma scan_origin m folders segs :
  scan m folders segs = "" ∨
  (scan m folders segs ∈ segs ∧ scan m folders segs ∉ folders).
Proof. apply (scan_in m folders segs (PosInf, "")). Qed.

(** *** The outer loop *)

Lemma fold_choose_app st l :
  ∃ more, (foldl choose st l).2 = st.2 ++ more ∧ length more = length l.
Proof.
  revert st. induction l as [|segs l IH]; intros st; simpl.
  - exists []. by rewrite app_nil_r.
  - destruct (IH (choose st segs)) as (more & -> & Hlen). simpl.
    exists (scan st.1 st.2 segs :: more). rewrite <- app_assoc. simpl.
    split; [done | by rewrite Hlen].
Qed.

Lemma fold_choose_length st l :
  length (foldl choose st l).2 = length st.2 + length l.
Proof.
  destruct (fold_choose_app st l) as (more & -> & <-). apply length_app.
Qed.

(** The entry written for the [k]-th path is the scan of its own segments in
    the state left by the first [k] paths. *)
Lemma fold_choose_lookup st l k segs :
  l !! k = Some segs →
  (foldl choose st l).2 !! (length st.2 + k) =
    Some (scan (foldl choose st (take k l)).1 (foldl choose st (take k l)).2 segs).
Proof.
  intros Hk. rewrite <- (take_drop_middle l k segs Hk) at 1.
  rewrite foldl_app. simpl.
  set (stk := foldl choose st (take k l)).
  destruct (fold_choose_app (choose stk segs) (drop (S k) l)) as (more & -> & _).
  simpl. rewrite <- app_assoc. simpl.
  assert (length stk.2 = length st.2 + k) as <-.
  { unfold stk. rewrite fold_choose_length, length_take.
    apply lookup_lt_Some in Hk. lia. }
  by rewrite list_lookup_middle.
Qed.

Lemma fold_choose_nonempty_NoDup st l :
  NoDup (nonempty st.2) → NoDup (nonempty (foldl choose st l).2).
Proof.
  revert st. induction l as [|segs l IH]; intros st Hnd; [done|].
  simpl. apply IH. simpl. unfold nonempty in *. rewrite filter_app.
  apply NoDup_app. split; [done|].
  destruct (scan_origin st.1 st.2 segs) as [->|[_ Hnin]].
  - split; [|apply NoDup_nil_2]. intros x _ Hx. by apply elem_of_nil in Hx.
  - split.
    + intros x Hx Hx'. apply list_elem_of_filter in Hx as [_ Hx], Hx' as [_ Hx'].
      apply elem_of_cons in Hx' as [->|Hx']; [done | by apply elem_of_nil in Hx'].
    + apply NoDup_filter, NoDup_singleton.
Qed.

(** Every entry is the empty string or a segment of one of the paths seen. *)
Lemma fold_choose_elem st l f :
  f ∈ (foldl choose st l).2 →
  f ∈ st.2 ∨ f = "" ∨ ∃ segs, segs ∈ l ∧ f ∈ segs.
Proof.
  revert st. induction l as [|segs l IH]; intros st Hf; [by left|].
  simpl in Hf. apply IH in Hf as [Hf|[Hf|(sg & Hsg & Hf)]].
  - simpl in Hf. apply elem_of_app in Hf as [Hf|Hf]; [by left|].
    apply elem_of_cons in Hf as [->|Hf]; [|by apply elem_of_nil in Hf].
    destruct (scan_origin st.1 st.2 segs) as [->|[Hin _]]; [by right; left|].
    right; right. exists segs. split; [apply list_elem_of_here | done].
  - by right; left.
  - right; right. exists sg. split; [by apply list_elem_of_further | done].
Qed.

Lemma choose_not_fin_empty st segs :
  ¬ is_fin (read st.1 "") → ¬ is_fin (read (choose st segs).1 "").
Proof.
  intros H0. simpl. destruct (decide (scan st.1 st.2 segs = "")) as [->|Hne].
  - rewrite read_write_eq by done. by apply not_is_fin_incr.
  - by rewrite read_write_ne.
Qed.

Lemma choose_is_fin st segs u :
  is_fin (read st.1 u) → is_fin (read (choose st segs).1 u).
Proof.
  intros Hu. unfold choose. cbn [fst]. set (folder := scan st.1 st.2 segs).
  destruct (decide (folder = u)) as [Heq|Hne]; [|by rewrite read_write_ne].
  rewrite Heq. destruct (decide (u = "__proto__")) as [->|Hp];
    [by rewrite read_write_proto|].
  rewrite read_write_eq by done. by apply is_fin_incr.
Qed.

Lemma fold_choose_not_fin_empty st l :
  ¬ is_fin (read st.1 "") → ¬ is_fin (read (foldl choose st l).1 "").
Proof.
  revert st. induction l as [|segs l IH]; intros st H0; [done|].
  simpl. by apply IH, choose_not_fin_empty.
Qed.

Lemma fold_choose_is_fin st l u :
  is_fin (read st.1 u) → is_fin (read (foldl choose st l).1 u).
Proof.
  revert st. induction l as [|segs l IH]; intros st Hu; [done|].
  simpl. by apply IH, choose_is_fin.
Qed.

(** *** The counting pass *)

(** What a read of the count map yields once the segments [l] are counted:
    nothing for the empty segment, which is skipped; for a segment named like
    an inherited member the text of the member with one [1] for each time it
    was counted (the member itself for [__proto__], whose assignment is
    ignored); for any other segment the number of times it was counted. *)
Definition tally (l : list string) (u : string) : option jsval :=
  if decide (u = "") then None
  else if inherited u
       then Some (Text u (if decide (u = "__proto__") then 0
                          else length (filter (λ s, s = u) l)))
  else if decide (length (filter (λ s, s = u) l) = 0) then None
  else Some (Num (Fin (length (filter (λ s, s = u) l)))).

Lemma length_filter_snoc (l : list string) (str u : string) :
  length (filter (λ s, s = u) (l ++ [str])) =
  length (filter (λ s, s = u) l) + (if decide (str = u) then 1 else 0).
Proof.
  rewrite filter_app, length_app. f_equal.
  rewrite filter_cons, filter_nil. by case_decide.
Qed.

Lemma count_segment_tally m l str :
  (∀ u, read m u = tally l u) →
  ∀ u, read (count_segment m str) u = tally (l ++ [str]) u.
Proof.
  intros Hm u. unfold count_segment.
  destruct (decide (str = "")) as [->|Hstr].
  - rewrite Hm. unfold tally. rewrite length_filter_snoc.
    destruct (decide (u = "")) as [->|Hu]; [done|].
    rewrite (decide_False (P := "" = u)) by done. by rewrite Nat.add_0_r.
  - destruct (decide (str = u)) as [->|Hne].
    + destruct (decide (u = "__proto__")) as [->|Hp].
      { by rewrite read_write_proto, Hm. }
      rewrite read_write_eq by done. rewrite Hm. unfold tally.
      rewrite length_filter_snoc.
      rewrite !(decide_False (P := u = "")) by done.
      rewrite (decide_True (P := u = u)) by done.
      rewrite !(decide_False (P := u = "__proto__")) by done.
      destruct (inherited u); [cbn; do 2 f_equal; lia|].
      rewrite (decide_False (P := _ + 1 = 0)) by lia.
      destruct (length (filter (λ s, s = u) l)) as [|n]; [done|].
      rewrite decide_False by lia. cbn. do 3 f_equal. lia.
    + rewrite read_write_ne by done. rewrite Hm. unfold tally.
      rewrite length_filter_snoc, (decide_False (P := str = u)) by done.
      by rewrite Nat.add_0_r.
Qed.

Lemma fold_count_segment_tally l l0 m :
  (∀ u, read m u = tally l0 u) →
  ∀ u, read (foldl count_segment m l) u = tally (l0 ++ l) u.
Proof.
  revert l0 m. induction l as [|str l IH]; intros l0 m Hm u; simpl.
  - by rewrite app_nil_r.
  - rewrite (IH (l0 ++ [str])); [by rewrite <- app_assoc|].
    by apply count_segment_tally.
Qed.

Lemma foldl_concat {A B} (f : A → B → A) (a : A) (ls : list (list B)) :
  foldl (λ a l, foldl f a l) a ls = foldl f a (concat ls).
Proof.
  revert a. induction ls as [|l ls IH]; intros a; simpl; [done|].
  by rewrite IH, foldl_app.
Qed.

Lemma count_segments_tally segments u :
  read (count_segments segments) u = tally (concat segments) u.
Proof.
  unfold count_segments. rewrite foldl_concat.
  apply (fold_count_segment_tally _ []). intros v. unfold tally, read.
  rewrite lookup_empty, filter_nil. cbn [length].
  case_decide as Hv; [by subst v|]. destruct (inherited v); [|done].
  by case_decide.
Qed.

Lemma count_segments_spec segments :
  ¬ is_fin (read (count_segments segments) "")
  ∧ ∀ u segs, segs ∈ segments → u ∈ segs → u ≠ "" → inherited u = false →
      is_fin (read (count_segments segments) u).
Proof.
  split; [rewrite count_segments_tally; intros H; exact H|].
  intros u segs Hsegs Hu Hne Hown. rewrite count_segments_tally. unfold tally.
  rewrite decide_False, Hown by done.
  assert (u ∈ filter (λ s, s = u) (concat segments)) as Hin.
  { apply list_elem_of_filter. split; [done|].
    apply list_elem_of_In, in_concat. exists segs.
    by rewrite <- !list_elem_of_In. }
  destruct (filter (λ s, s = u) (concat segments));
    [by apply elem_of_nil in Hin | done].
Qed.

(** *** What the function returns *)

Lemma nonempty_NoDup_lookup (l : list string) i j a :
  NoDup (nonempty l) → a ≠ "" → l !! i = Some a → l !! j = Some a → i = j.
Proof.
  unfold nonempty. revert i j.
  induction l as [|x l IH]; intros i j Hnd Ha Hi Hj; [by destruct i|].
  assert (∀ k, l !! k = Some a → x = a → False) as Hfresh.
  { intros k Hk ->. rewrite filter_cons_True in Hnd by done.
    apply NoDup_cons in Hnd as [Hnin _]. apply Hnin, list_elem_of_filter.
    split; [done|]. by apply list_elem_of_lookup_2 in Hk. }
  assert (NoDup (filter (λ s, s ≠ "") l)) as Hnd'.
  { rewrite filter_cons in Hnd. case_decide; [by apply NoDup_cons in Hnd as [_ ?] | done]. }
  destruct i as [|i], j as [|j]; simpl in *.
  - done.
  - injection Hi as ->. by destruct (Hfresh j Hj).
  - injection Hj as ->. by destruct (Hfresh i Hi).
  - f_equal. by apply IH.
Qed.

Lemma findFirstUniqueFolderNames_length paths :
  length (findFirstUniqueFolderNames paths) = length paths.
Proof.
  unfold findFirstUniqueFolderNames.
  rewrite fold_choose_length. simpl. by rewrite length_fmap.
Qed.

Lemma findFirstUniqueFolderNames_nonempty_NoDup paths :
  NoDup (nonempty (findFirstUniqueFolderNames paths)).
Proof. apply fold_choose_nonempty_NoDup. simpl. apply NoDup_nil_2. Qed.

Lemma findFirstUniqueFolderNames_distinct paths i j a b :
  findFirstUniqueFolderNames paths !! i = Some a →
  findFirstUniqueFolderNames paths !! j = Some b →
  i ≠ j → a ≠ "" → b ≠ "" → a ≠ b.
Proof.
  intros Hi Hj Hij Ha Hb ->. apply Hij.
  eapply nonempty_NoDup_lookup;
    eauto using findFirstUniqueFolderNames_nonempty_NoDup.
Qed.

(** The [k]-th entry is the empty string or one of the [k]-th path's own
    remaining segments. *)
Lemma findFirstUniqueFolderNames_own_segment paths k p f :
  paths !! k = Some p →
  findFirstUniqueFolderNames paths !! k = Some f →
  f = "" ∨ f ∈ path_segments p.
Proof.
  intros Hp. unfold findFirstUniqueFolderNames.
  pose proof (fold_choose_lookup
    (count_segments (path_segments <$> paths), []) (path_segments <$> paths)
    k (path_segments p)) as Hk.
  simpl in Hk. rewrite Hk by (by rewrite list_lookup_fmap, Hp).
  intros [= <-].
  match goal with |- scan ?m ?fs ?sg = _ ∨ _ =>
    destruct (scan_origin m fs sg) as [?|[? _]]; [by left | by right] end.
Qed.

(** A path that owns a non-empty remaining segment, not named like an
    inherited member, that is found in no other path of the list is never
    given the empty string. *)
Lemma findFirstUniqueFolderNames_private paths k p u f :
  paths !! k = Some p →
  u ∈ path_segments p → u ≠ "" → inherited u = false →
  (∀ j q, j ≠ k → paths !! j = Some q → u ∉ path_segments q) →
  findFirstUniqueFolderNames paths !! k = Some f →
  f ≠ "".
Proof.
  intros Hp Hu Hne Hown Hpriv. unfold findFirstUniqueFolderNames.
  set (segments := path_segments <$> paths).
  assert (segments !! k = Some (path_segments p)) as Hsk
    by (by unfold segments; rewrite list_lookup_fmap, Hp).
  pose proof (fold_choose_lookup (count_segments segments, []) segments
    k (path_segments p) Hsk) as Hk.
  simpl in Hk. rewrite Hk. intros [= <-].
  destruct (count_segments_spec segments) as [H0 Hfin].
  apply (scan_available _ _ _ u); [| | |done].
  - by apply fold_choose_not_fin_empty.
  - apply fold_choose_is_fin. simpl. apply (Hfin u (path_segments p)); [|done..].
    by apply list_elem_of_lookup_2 in Hsk.
  - intros Hin. apply fold_choose_elem in Hin as [Hin|[Hin|(sg & Hsg & Hin)]].
    + by apply elem_of_nil in Hin.
    + done.
    + apply list_elem_of_lookup in Hsg as [j Hj].
      apply lookup_take_Some in Hj as [Hj Hlt].
      unfold segments in Hj. rewrite list_lookup_fmap in Hj.
      destruct (paths !! j) as [q|] eqn:Hq; [|done]. injection Hj as <-.
      apply (Hpriv j q); [lia | done | done].
Qed.

(** C10.  [findFirstUniqueFolderNames] returns one entry per input path, in
    input order (the [k]-th entry is the empty string or one of the [k]-th
    path's own remaining segments), and two entries at distinct positions
    that are both non-empty are different: only the empty string can be
    repeated. *)
Theorem findFirstUniqueFolderNames_one_per_path paths :
  length (findFirstUniqueFolderNames paths) = length paths
  ∧ (∀ k p f, paths !! k = Some p →
       findFirstUniqueFolderNames paths !! k = Some f →
       f = "" ∨ f ∈ path_segments p)
  ∧ (∀ i j a b,
       findFirstUniqueFolderNames paths !! i = Some a →
       findFirstUniqueFolderNames paths !! j = Some b →
       i ≠ j → a ≠ "" → b ≠ "" → a ≠ b).
Proof.
  split; [apply findFirstUniqueFolderNames_length|]. split.
  - apply findFirstUniqueFolderNames_own_segment.
  - apply findFirstUniqueFolderNames_distinct.
Qed.

(** Four configs below folders named [proj]: the first two get their own
    grandparent, the last two have nothing left and share the empty string. *)
Definition nested_paths : list string :=
  ["/z/x/proj/c.ts"; "/z/y/proj/c.ts"; "/x/proj/c.ts"; "/y/proj/c.ts"].

Example findFirstUniqueFolderNames_nested :
  findFirstUniqueFolderNames nested_paths = ["x"; "y"; ""; ""].
Proof. by vm_compute. Qed.

Lemma findFirstUniqueFolderNames_one_per_path_witness :
  findFirstUniqueFolderNames nested_paths !! 0 = Some "x"
  ∧ findFirstUniqueFolderNames nested_paths !! 1 = Some "y"
  ∧ "x" ≠ "y"
  ∧ length (findFirstUniqueFolderNames nested_paths) = 4.
Proof.
  destruct (findFirstUniqueFolderNames_one_per_path nested_paths)
    as (Hlen & _ & Hdistinct).
  split; [by vm_compute|]. split; [by vm_compute|]. split.
  - apply (Hdistinct 0 1); [by vm_compute | by vm_compute | lia | done | done].
  - exact Hlen.
Defined.

(** ** What the first pass counts *)

(** How often [u] occurs among the remaining segments of all paths. *)
Definition occurrences (u : string) (segments : list (list string)) : nat :=
  length (filter (λ s, s = u) (concat segments)).

(** X1.  After the first pass a read of the count map gives: nothing for the
    empty segment; for a non-empty segment that is not named like a member
    inherited from [Object.prototype], the number of its occurrences among
    the remaining segments of the paths (repeats within one path included),
    and nothing if it does not occur; for a segment named like an inherited
    member, no number at all but the text of that member followed by one
    character [1] for each occurrence (for [__proto__], whose assignment is
    ignored, the prototype itself). *)
Theorem count_segments_occurrences segments u :
  read (count_segments segments) u =
  if decide (u = "") then None
  else if inherited u
       then Some (Text u (if decide (u = "__proto__") then 0
                          else occurrences u segments))
  else if decide (occurrences u segments = 0) then None
  else Some (Num (Fin (occurrences u segments))).
Proof. apply count_segments_tally. Qed.

(** Two paths below folders named like inherited members: these segments are
    never chosen, the first path takes the shared [w] and the second is left
    with the empty string. *)
Definition member_named_paths : list string :=
  ["/w/constructor/p/c.ts"; "/w/toString/p/c.ts"].

Example findFirstUniqueFolderNames_member_named :
  path_segments <$> member_named_paths
    = [["constructor"; "w"; ""]; ["toString"; "w"; ""]]
  ∧ read (count_segments (path_segments <$> member_named_paths)) "constructor"
    = Some (Text "constructor" 1)
  ∧ read (count_segments (path_segments <$> member_named_paths)) "w"
    = Some (Num (Fin 2))
  ∧ findFirstUniqueFolderNames member_named_paths = ["w"; ""].
Proof. repeat split; by vm_compute. Qed.

(** ** The choice depends on the first pass only *)

Lemma pick_agree m m' folders st str :
  (∀ u, u ∉ folders → read m u = read m' u) →
  pick m folders st str = pick m' folders st str.
Proof.
  intros Hm. unfold pick. destruct (decide (str ∈ folders)) as [Hin|Hnin].
  - unfold array_includes. rewrite bool_decide_eq_true_2 by done.
    cbn [negb].
    destruct (read m str) as [[]|], (read m' str) as [[]|];
      by rewrite ?andb_false_r.
  - by rewrite (Hm str Hnin).
Qed.

Lemma scan_agree m m' folders segs :
  (∀ u, u ∉ folders → read m u = read m' u) →
  scan m folders segs = scan m' folders segs.
Proof.
  intros Hm. unfold scan. f_equal. generalize (PosInf, "").
  induction segs as [|str segs IH]; intros st; simpl; [done|].
  by rewrite IH, (pick_agree m m').
Qed.

Lemma fold_choose_agree (m0 : gmap string jsval) st l :
  (∀ u, u ∉ st.2 → read st.1 u = read m0 u) →
  ∀ u, u ∉ (foldl choose st l).2 → read (foldl choose st l).1 u = read m0 u.
Proof.
  revert st. induction l as [|segs l IH]; intros st Hst; [done|].
  simpl. apply IH. simpl. intros u Hu.
  apply not_elem_of_app in Hu as [Hu Hne].
  apply not_elem_of_cons in Hne as [Hne _].
  rewrite read_write_ne by done. by apply Hst.
Qed.

Lemma fold_choose_take st l k :
  (foldl choose st (take k l)).2 = take (length st.2 + k) (foldl choose st l).2.
Proof.
  rewrite <- (take_drop k l) at 2. rewrite foldl_app.
  destruct (fold_choose_app (foldl choose st (take k l)) (drop k l))
    as (more & -> & Hmore).
  destruct (decide (k ≤ length l)) as [Hk|Hk].
  - rewrite take_app_length'; [done|].
    rewrite fold_choose_length, length_take. lia.
  - rewrite length_drop in Hmore.
    assert (more = []) as -> by (apply length_zero_iff_nil; lia).
    rewrite app_nil_r, (take_ge _ (length st.2 + k)); [done|].
    rewrite fold_choose_length, length_take. lia.
Qed.

Lemma findFirstUniqueFolderNames_lookup_scan paths k p :
  paths !! k = Some p →
  findFirstUniqueFolderNames paths !! k =
  Some (scan (count_segments (path_segments <$> paths))
          (take k (findFirstUniqueFolderNames paths)) (path_segments p)).
Proof.
  intros Hp. unfold findFirstUniqueFolderNames.
  set (segments := path_segments <$> paths).
  set (st0 := (count_segments segments, @nil string)).
  assert (segments !! k = Some (path_segments p)) as Hsk
    by (by unfold segments; rewrite list_lookup_fmap, Hp).
  pose proof (fold_choose_lookup st0 segments k (path_segments p) Hsk) as Hk.
  pose proof (fold_choose_take st0 segments k) as Ht.
  simpl in Hk, Ht. rewrite Hk, <- Ht. f_equal.
  apply scan_agree.
  apply (fold_choose_agree (count_segments segments) st0). done.
Qed.

(** X2.  Each entry is what the inner loop finds in its path's segments
    against the counts of the first pass and the entries chosen before it:
    incrementing the count of a chosen folder never changes a later choice. *)
Theorem findFirstUniqueFolderNames_entry paths k p :
  paths !! k = Some p →
  findFirstUniqueFolderNames paths !! k =
  Some (scan (count_segments (path_segments <$> paths))
          (take k (findFirstUniqueFolderNames paths)) (path_segments p)).
Proof. apply findFirstUniqueFolderNames_lookup_scan. Qed.

(** ** The scan picks the first least frequent segment still free *)

(** The state of the inner loop after the segments [seen]: nothing picked
    because no segment seen was free with a number for its count, or the pick
    is free, its count is below that of every free segment seen before it and
    not above that of any free segment seen after it. *)
Definition scanned (m : gmap string jsval) (folders seen : list string)
    (st : jsnum * string) : Prop :=
  (st = (PosInf, "")
   ∧ ∀ u c, u ∈ seen → u ∉ folders → read m u ≠ Some (Num (Fin c)))
  ∨ ∃ n before after,
      st.1 = Fin n ∧ seen = before ++ st.2 :: after
      ∧ (st.2 ∉ folders) ∧ read m st.2 = Some (Num (Fin n))
      ∧ (∀ u c, u ∈ before → u ∉ folders →
           read m u = Some (Num (Fin c)) → n < c)
      ∧ (∀ u c, u ∈ after → u ∉ folders →
           read m u = Some (Num (Fin c)) → n ≤ c).

(** A segment that is not picked leaves the state as it is. *)
Lemma scanned_skip m folders seen st str :
  (∀ c, str ∉ folders → read m str = Some (Num (Fin c)) →
        lt (Fin c) st.1 = false) →
  scanned m folders seen st →
  scanned m folders (seen ++ [str]) st.
Proof.
  intros Hskip
    [[-> Hnone]|(n & before & after & Hn & -> & Hs & Hms & Hb & Ha)].
  - left. split; [done|]. intros u c Hu Hfu Hmu.
    apply elem_of_app in Hu as [Hu|Hu]; [by destruct (Hnone u c)|].
    apply elem_of_cons in Hu as [->|[]%elem_of_nil].
    by specialize (Hskip c Hfu Hmu).
  - right. exists n, before, (after ++ [str]).
    split; [done|]. split; [by rewrite <- app_assoc|].
    split; [done|]. split; [done|]. split; [done|].
    intros u c Hu Hfu Hmu.
    apply elem_of_app in Hu as [Hu|Hu]; [by apply (Ha u)|].
    apply elem_of_cons in Hu as [->|[]%elem_of_nil].
    specialize (Hskip c Hfu Hmu). rewrite Hn in Hskip. cbn in Hskip.
    by apply Nat.ltb_ge in Hskip.
Qed.

Lemma pick_scanned m folders seen st str :
  scanned m folders seen st →
  scanned m folders (seen ++ [str]) (pick m folders st str).
Proof.
  intros Hst. unfold pick.
  destruct (read m str) as [[c|k ones]|] eqn:Hc;
    [|by apply scanned_skip; [intros c' _ Hc'; congruence|]..].
  destruct (lt c st.1 && negb (array_includes folders str)) eqn:Hb.
  - apply andb_true_iff in Hb as [Hlt Hfree].
    apply negb_true_iff, bool_decide_eq_false in Hfree.
    destruct (lt_true_fin _ _ Hlt) as [x ->].
    right. exists x, seen, []. cbn [fst snd].
    split; [done|]. split; [done|]. split; [done|]. split; [done|].
    split; [|by intros u c []%elem_of_nil].
    intros u c Hu Hfu Hmu.
    destruct Hst as [[-> Hnone]|(n & before & after & Hn & -> & Hs & Hms & Hb & Ha)].
    + by destruct (Hnone u c).
    + rewrite Hn in Hlt. cbn in Hlt. apply Nat.ltb_lt in Hlt.
      apply elem_of_app in Hu as [Hu|Hu]; [specialize (Hb u c Hu Hfu Hmu); lia|].
      apply elem_of_cons in Hu as [->|Hu].
      * rewrite Hms in Hmu. injection Hmu as <-. done.
      * specialize (Ha u c Hu Hfu Hmu). lia.
  - apply scanned_skip; [|done]. intros c' Hfree Hc'.
    rewrite Hc in Hc'. injection Hc' as ->.
    unfold array_includes in Hb.
    rewrite bool_decide_eq_false_2, andb_true_r in Hb by done.
    done.
Qed.

Lemma fold_pick_scanned m folders seen segs st :
  scanned m folders seen st →
  scanned m folders (seen ++ segs) (foldl (pick m folders) st segs).
Proof.
  revert seen st. induction segs as [|str segs IH]; intros seen st Hst; simpl.
  - by rewrite app_nil_r.
  - replace (seen ++ str :: segs) with ((seen ++ [str]) ++ segs)
      by (by rewrite <- app_assoc).
    by apply IH, pick_scanned.
Qed.

Lemma scan_scanned m folders segs :
  scanned m folders segs (foldl (pick m folders) (PosInf, "") segs).
Proof.
  apply (fold_pick_scanned m folders [] segs). left. split; [done|].
  by intros u c []%elem_of_nil.
Qed.

(** The segments of a path that are not named like an inherited member are
    counted. *)
Lemma count_segments_segment paths p u :
  p ∈ paths → u ∈ path_segments p → u ≠ "" → inherited u = false →
  read (count_segments (path_segments <$> paths)) u =
    Some (Num (Fin (occurrences u (path_segments <$> paths))))
  ∧ 0 < occurrences u (path_segments <$> paths).
Proof.
  intros Hp Hu Hne Hown.
  assert (0 < occurrences u (path_segments <$> paths)) as Hpos.
  { unfold occurrences.
    assert (u ∈ filter (λ s, s = u) (concat (path_segments <$> paths))) as Hin.
    { apply list_elem_of_filter. split; [done|].
      apply list_elem_of_In, in_concat. exists (path_segments p).
      rewrite <- !list_elem_of_In. split; [|done].
      by apply list_elem_of_fmap_2. }
    destruct (filter _ _); [by apply elem_of_nil in Hin | cbn; lia]. }
  split; [|done]. rewrite count_segments_tally. unfold tally.
  fold (occurrences u (path_segments <$> paths)).
  rewrite decide_False, Hown by done. rewrite decide_False by lia. done.
Qed.

(** Only they have a number for their count. *)
Lemma count_segments_fin paths u n :
  read (count_segments (path_segments <$> paths)) u = Some (Num (Fin n)) →
  u ≠ "" ∧ inherited u = false ∧ n = occurrences u (path_segments <$> paths).
Proof.
  rewrite count_segments_tally. unfold tally.
  fold (occurrences u (path_segments <$> paths)).
  case_decide as Hd; [done|]. destruct (inherited u); [done|].
  case_decide; [done|]. by intros [= <-].
Qed.

(** X3.  The entry chosen for a path, when it is not the empty string, is not
    named like a member inherited from [Object.prototype], is free (no
    earlier path was given it), and among the path's free non-empty segments
    that are not named like an inherited member it is the first of those that
    occur least often. *)
Theorem findFirstUniqueFolderNames_least_frequent paths k p f :
  paths !! k = Some p →
  findFirstUniqueFolderNames paths !! k = Some f →
  f ≠ "" →
  inherited f = false
  ∧ (f ∉ take k (findFirstUniqueFolderNames paths))
  ∧ ∃ before after,
      path_segments p = before ++ f :: after
      ∧ (∀ u, u ∈ before → u ≠ "" → inherited u = false →
           u ∉ take k (findFirstUniqueFolderNames paths) →
           occurrences f (path_segments <$> paths)
           < occurrences u (path_segments <$> paths))
      ∧ (∀ u, u ∈ after → u ≠ "" → inherited u = false →
           u ∉ take k (findFirstUniqueFolderNames paths) →
           occurrences f (path_segments <$> paths)
           ≤ occurrences u (path_segments <$> paths)).
Proof.
  intros Hp Hf Hne.
  rewrite (findFirstUniqueFolderNames_lookup_scan paths k p Hp) in Hf.
  injection Hf as Hf. unfold scan in Hf.
  assert (p ∈ paths) as Hin by (by apply list_elem_of_lookup_2 in Hp).
  destruct (scan_scanned (count_segments (path_segments <$> paths))
              (take k (findFirstUniqueFolderNames paths)) (path_segments p))
    as [[Hst _]|(n & before & after & Hn & Hsegs & Hfree & Hm & Hb & Ha)].
  { rewrite Hst in Hf. by destruct Hne. }
  rewrite Hf in Hsegs, Hfree, Hm.
  apply count_segments_fin in Hm as (_ & Hown & ->).
  split; [done|]. split; [done|]. exists before, after. split; [done|]. split.
  - intros u Hu Hu0 Huown Hufree.
    destruct (count_segments_segment paths p u) as [Hcount _]; [done| |done..|].
    { rewrite Hsegs. apply elem_of_app. by left. }
    by apply (Hb u).
  - intros u Hu Hu0 Huown Hufree.
    destruct (count_segments_segment paths p u) as [Hcount _]; [done| |done..|].
    { rewrite Hsegs. apply elem_of_app. right. by apply list_elem_of_further. }
    by apply (Ha u).
Qed.

(** X4.  A path is given the empty string exactly when every non-empty segment
    it has left that is not named like a member inherited from
    [Object.prototype] was given to an earlier path. *)
Theorem findFirstUniqueFolderNames_empty_iff paths k p :
  paths !! k = Some p →
  findFirstUniqueFolderNames paths !! k = Some "" ↔
  ∀ u, u ∈ path_segments p → u ≠ "" → inherited u = false →
       u ∈ take k (findFirstUniqueFolderNames paths).
Proof.
  intros Hp.
  rewrite (findFirstUniqueFolderNames_lookup_scan paths k p Hp).
  assert (p ∈ paths) as Hin by (by apply list_elem_of_lookup_2 in Hp).
  unfold scan.
  pose proof (scan_scanned (count_segments (path_segments <$> paths))
                (take k (findFirstUniqueFolderNames paths)) (path_segments p))
    as Hsc.
  generalize dependent (foldl
     (pick (count_segments (path_segments <$> paths))
        (take k (findFirstUniqueFolderNames paths)))
     (PosInf, "") (path_segments p)).
  intros st [[-> Hnone]|(n & before & after & Hn & Hsegs & Hfree & Hm & Hb & Ha)].
  - split; [|done]. intros _ u Hu Hu0 Hown.
    destruct (decide (u ∈ take k (findFirstUniqueFolderNames paths)))
      as [?|Hfree]; [done|].
    destruct (count_segments_segment paths p u) as [Hcount _]; [done..|].
    by destruct (Hnone u (occurrences u (path_segments <$> paths)) Hu Hfree).
  - apply count_segments_fin in Hm as (Hne & Hown & _). split.
    + by intros [= ?].
    + intros Hall. destruct Hfree. apply Hall; [|done..].
      rewrite Hsegs. apply elem_of_app. right. apply list_elem_of_here.
Qed.

(** The third of the [nested_paths] has the segments [x] and the empty
    string left; [x] went to the first path. *)
Lemma findFirstUniqueFolderNames_entry_witness :
  nested_paths !! 2 = Some "/x/proj/c.ts"
  ∧ findFirstUniqueFolderNames nested_paths !! 2 =
    Some (scan (count_segments (path_segments <$> nested_paths))
            (take 2 (findFirstUniqueFolderNames nested_paths))
            (path_segments "/x/proj/c.ts")).
Proof.
  split; [done|].
  by apply (findFirstUniqueFolderNames_entry nested_paths 2 "/x/proj/c.ts").
Defined.

(** The first of the [member_named_paths] is given [w], which occurs twice,
    although [constructor] stands before it and occurs once. *)
Lemma findFirstUniqueFolderNames_least_frequent_witness :
  findFirstUniqueFolderNames member_named_paths !! 0 = Some "w"
  ∧ inherited "w" = false
  ∧ ∃ before after,
      path_segments "/w/constructor/p/c.ts" = before ++ "w" :: after
      ∧ (∀ u, u ∈ before → u ≠ "" → inherited u = false →
           u ∉ take 0 (findFirstUniqueFolderNames member_named_paths) →
           occurrences "w" (path_segments <$> member_named_paths)
           < occurrences u (path_segments <$> member_named_paths)).
Proof.
  split; [by vm_compute|].
  destruct (findFirstUniqueFolderNames_least_frequent member_named_paths 0
              "/w/constructor/p/c.ts" "w")
    as (Hown & _ & before & after & Hsegs & Hbefore & _);
    [done | by vm_compute | done |].
  split; [done|]. by exists before, after.
Defined.

(** The second of the [member_named_paths] is given the empty string: of its
    segments, [w] went to the first path and [toString] is named like an
    inherited member. *)
Lemma findFirstUniqueFolderNames_empty_iff_witness :
  findFirstUniqueFolderNames member_named_paths !! 1 = Some ""
  ∧ path_segments "/w/toString/p/c.ts" = ["toString"; "w"; ""]
  ∧ "w" ∈ take 1 (findFirstUniqueFolderNames member_named_paths).
Proof.
  split; [by vm_compute|]. split; [by vm_compute|].
  apply (proj1 (findFirstUniqueFolderNames_empty_iff member_named_paths 1
                  "/w/toString/p/c.ts" eq_refl));
    [by vm_compute | by_evaluation | done | done].
Defined.

End UniqueFolders.

(* ===================================================================== *)
(** * Path helpers of the [pathe] package *)
(* ===================================================================== *)

Module Pathe.
Import Js.

(** Backslashes become slashes: [input.replace(/\\/g, '/')]. *)
Fixpoint slashes (p : string) : string :=
  match p with
  | EmptyString => EmptyString
  | String c p' =>
      String (if Ascii.eqb c "\"%char then "/"%char else c) (slashes p')
  end.

Definition upper (c : ascii) : ascii :=
  let n := nat_of_ascii c in
  if (97 <=? n) && (n <=? 122) then ascii_of_nat (n - 32) else c.

Definition is_letter (c : ascii) : bool :=
  let n := nat_of_ascii c in
  ((65 <=? n) && (n <=? 90)) || ((97 <=? n) && (n <=? 122)).

Definition is_slash (c : ascii) : bool :=
  Ascii.eqb c "/"%char || Ascii.eqb c "\"%char.

(** [normalizeWindowsPath(p)]: backslashes become slashes and a leading
    drive letter followed by a slash is put in upper case. *)
Definition normalizeWindowsPath (p : string) : string :=
  match slashes p with
  | String d (String ":" (String "/" rest)) =>
      if is_letter d then String (upper d) (String ":" (String "/" rest))
      else slashes p
  | q => q
  end.

(** [basename(p)] without an extension argument:
    [normalizeWindowsPath(p).split('/').pop()]. *)
Definition basename (p : string) : string :=
  default "" (last (split "/"%char (normalizeWindowsPath p))).

(** [s.replace(/\/$/, '')] *)
Fixpoint drop_trailing_slash (s : string) : string :=
  match s with
  | EmptyString => EmptyString
  | String c EmptyString => if Ascii.eqb c "/"%char then EmptyString else s
  | String c s' => String c (drop_trailing_slash s')
  end.

(** [isAbsolute(p)]: a slash not followed by a slash, or two slashes not
    followed by a dot, or a drive letter, a colon and a slash. *)
Definition isAbsolute (p : string) : bool :=
  match p with
  | String a rest =>
      if is_slash a then
        match rest with
        | String b rest' =>
            if is_slash b then
              match rest' with
              | String c _ => negb (Ascii.eqb c "."%char)
              | EmptyString => true
              end
            else true
        | EmptyString => true
        end
      else
        match rest with
        | String ":" (String c _) => is_letter a && is_slash c
        | _ => false
        end
  | EmptyString => false
  end.

(** [/^[A-Za-z]:$/.test(s)] *)
Definition is_drive (s : string) : bool :=
  match s with
  | String d (String ":" EmptyString) => is_letter d
  | _ => false
  end.

(** [dirname(p)]: all segments but the last, joined again; a lone drive
    letter gets its slash back; an empty result is [/] for an absolute path
    and [.] otherwise. *)
Definition dirname (p : string) : string :=
  let segments :=
    removelast (split "/"%char (drop_trailing_slash (normalizeWindowsPath p))) in
  let segments :=
    match segments with
    | [d] => if is_drive d then [d +:+ "/"] else segments
    | _ => segments
    end in
  let joined := String.concat "/" segments in
  if String.eqb joined "" then (if isAbsolute p then "/" else ".") else joined.

End Pathe.

(* ===================================================================== *)
(** * Project descriptors and [resolvePackagUniquePrefixes] *)
(* ===================================================================== *)

(** [interface VitestPackage]; the workspace folder is identified by its URI. *)
Record VitestPackage : Type := {
  folder : string;
  prefix : string;
  vitestNodePath : string;
  vitestPackageJsonPath : string;
  id : string;
  cwd : string;
  version : string;
  arguments : option string;
  configFile : option string;
  workspaceFile : option string;
  loader : option string;
  pnp : option string;
}.

(** [pkg.prefix = s] *)
Definition set_prefix (s : string) (pkg : VitestPackage) : VitestPackage :=
  {| folder := folder pkg; prefix := s;
     vitestNodePath := vitestNodePath pkg;
     vitestPackageJsonPath := vitestPackageJsonPath pkg;
     id := id pkg; cwd := cwd pkg; version := version pkg;
     arguments := arguments pkg; configFile := configFile pkg;
     workspaceFile := workspaceFile pkg; loader := loader pkg;
     pnp := pnp pkg |}.

Module Prefixes.
Import Js UniqueFolders.

Section WithBasename.

(** [basename] of [pathe]. *)
Variable basename : string → string.

(** The array [packages] holds distinct objects (every caller builds each
    element with a fresh object literal), so an object is named by its
    position in the array: [projects] maps an id to such a position, and the
    array as a whole is the store the second loop mutates. *)

(** First loop, one package:
    [if (!prefixes[prefix]) prefixes[prefix] = [];
     prefixes[prefix].push(id); projects[id] = pkg]. *)
Definition register (index : nat) (pkg : VitestPackage)
    (st : obj (list string) * gmap string nat)
  : obj (list string) * gmap string nat :=
  (obj_set st.1 (prefix pkg)
     (default [] (obj_get st.1 (prefix pkg)) ++ [id pkg]),
   <[id pkg := index]> st.2).

Fixpoint register_all (index : nat) (packages : list VitestPackage)
    (st : obj (list string) * gmap string nat)
  : obj (list string) * gmap string nat :=
  match packages with
  | [] => st
  | pkg :: rest => register_all (S index) rest (register index pkg st)
  end.

(** Body of [paths.forEach((path, index) => ...)]:
    [projects[path].prefix = `${folders[index]}:${basename(path)}`]. *)
Definition rename (projects : gmap string nat) (folders : list string)
    (index : nat) (path : string) (store : list VitestPackage)
  : list VitestPackage :=
  let config := basename path in
  let folder := default "undefined" (folders !! index) in
  match projects !! path with
  | Some i => alter (set_prefix (folder +:+ ":" +:+ config)) i store
  | None => store
  end.

Fixpoint rename_all (projects : gmap string nat) (folders : list string)
    (index : nat) (paths : list string) (store : list VitestPackage)
  : list VitestPackage :=
  match paths with
  | [] => store
  | path :: rest =>
      rename_all projects folders (S index) rest
        (rename projects folders index path store)
  end.

(** Body of [for (const prefix in prefixes)]. *)
Definition disambiguate (projects : gmap string nat)
    (store : list VitestPackage) (paths : list string) : list VitestPackage :=
  if decide (length paths = 1) then store
  else rename_all projects (findFirstUniqueFolderNames paths) 0 paths store.

Definition resolvePackagUniquePrefixes (packages : list VitestPackage)
  : list VitestPackage :=
  let st := register_all 0 packages ([], ∅) in
  foldl (λ store e, disambiguate st.2 store e.2) packages (obj_entries st.1).

(** ** The first loop *)

(** The ids of the packages carrying the prefix [k], in array order. *)
Definition group_ids (packages : list VitestPackage) (k : string)
  : list string :=
  id <$> filter (λ pkg, prefix pkg = k) packages.

Lemma register_all_groups index packages st k :
  obj_get (register_all index packages st).1 k =
    if decide (group_ids packages k = []) then obj_get st.1 k
    else Some (default [] (obj_get st.1 k) ++ group_ids packages k).
Proof.
  revert index st. induction packages as [|pkg rest IH]; intros index st.
  { done. }
  simpl. rewrite IH. unfold group_ids. simpl. rewrite obj_get_set.
  rewrite filter_cons. destruct (decide (prefix pkg = k)) as [Hk|Hk].
  - rewrite fmap_cons, Hk. repeat case_decide; try done.
    + by match goal with H : id <$> _ = [] |- _ => rewrite H end.
    + simpl. by rewrite <- app_assoc.
  - by repeat case_decide.
Qed.

Lemma register_all_keys_NoDup index packages st :
  NoDup st.1.*1 → NoDup (register_all index packages st).1.*1.
Proof.
  revert index st. induction packages as [|pkg rest IH]; intros index st Hnd;
    [done|].
  simpl. apply IH. simpl. by apply obj_set_NoDup.
Qed.

Lemma register_all_projects_other index packages st x :
  x ∉ id <$> packages → (register_all index packages st).2 !! x = st.2 !! x.
Proof.
  revert index st. induction packages as [|pkg rest IH]; intros index st Hx;
    [done|].
  simpl. rewrite fmap_cons in Hx. apply not_elem_of_cons in Hx as [Hne Hx].
  rewrite IH by done. simpl. by rewrite lookup_insert_ne.
Qed.

Lemma register_all_projects index packages st j pkg :
  NoDup (id <$> packages) → packages !! j = Some pkg →
  (register_all index packages st).2 !! id pkg = Some (index + j).
Proof.
  revert index st j. induction packages as [|pkg0 rest IH];
    intros index st j Hnd Hj; [done|].
  rewrite fmap_cons in Hnd. apply NoDup_cons in Hnd as [Hnin Hnd].
  destruct j as [|j]; simpl in *.
  - injection Hj as ->. rewrite register_all_projects_other by done.
    simpl. rewrite lookup_insert_eq. f_equal. lia.
  - rewrite (IH _ _ j) by done. f_equal. lia.
Qed.

Lemma register_all_projects_inv packages path j :
  NoDup (id <$> packages) →
  (register_all 0 packages ([], ∅)).2 !! path = Some j →
  ∃ pkg, packages !! j = Some pkg ∧ id pkg = path.
Proof.
  intros Hnd Hj. destruct (decide (path ∈ id <$> packages)) as [Hin|Hnin].
  - apply list_elem_of_fmap in Hin as (pkg & -> & Hin).
    apply list_elem_of_lookup in Hin as [j' Hj'].
    rewrite (register_all_projects 0 _ _ j' pkg) in Hj by done.
    injection Hj as <-. eauto.
  - rewrite register_all_projects_other in Hj by done.
    simpl in Hj. by rewrite lookup_empty in Hj.
Qed.

(** ** The second loop *)

Lemma rename_all_untouched projects folders index paths store j :
  (∀ path, path ∈ paths → projects !! path ≠ Some j) →
  rename_all projects folders index paths store !! j = store !! j.
Proof.
  revert index store. induction paths as [|path rest IH];
    intros index store Hj; [done|].
  simpl. rewrite IH by (intros; apply Hj; by apply list_elem_of_further).
  unfold rename. destruct (projects !! path) as [i|] eqn:Hi; [|done].
  apply list_lookup_alter_ne. intros ->. eapply Hj; [apply list_elem_of_here|done].
Qed.

Lemma rename_all_touched projects folders index paths store j m path :
  NoDup paths → paths !! m = Some path → projects !! path = Some j →
  (∀ path', path' ∈ paths → projects !! path' = Some j → path' = path) →
  rename_all projects folders index paths store !! j =
    set_prefix (default "undefined" (folders !! (index + m))
                  +:+ ":" +:+ basename path) <$> store !! j.
Proof.
  revert index store m. induction paths as [|path0 rest IH];
    intros index store m Hnd Hm Hj Hinj; [done|].
  apply NoDup_cons in Hnd as [Hnin Hnd]. destruct m as [|m]; simpl in *.
  - injection Hm as ->. rewrite rename_all_untouched.
    + unfold rename. rewrite Hj, list_lookup_alter_eq.
      by replace (index + 0) with index by lia.
    + intros path' Hin Hp. apply Hinj in Hp; [|by apply list_elem_of_further].
      by subst.
  - rewrite (IH _ _ m) by (eauto using list_elem_of_further).
    replace (S index + m) with (index + S m) by lia. f_equal.
    unfold rename. destruct (projects !! path0) as [i|] eqn:Hi; [|done].
    apply list_lookup_alter_ne. intros ->.
    apply Hinj in Hi; [|apply list_elem_of_here]. subst path0.
    by apply list_elem_of_lookup_2 in Hm.
Qed.

(** ** The whole function *)

(** The prefix written for the package [pkg] that stands at position [m] of
    its group. *)
Definition new_prefix (packages : list VitestPackage) (pkg : VitestPackage)
    (m : nat) : string :=
  default "undefined"
    (findFirstUniqueFolderNames (group_ids packages (prefix pkg)) !! m)
  +:+ ":" +:+ basename (id pkg).

(** What the second loop does to [pkg]: nothing when it is alone in its
    group. *)
Definition renamed (packages : list VitestPackage) (pkg : VitestPackage)
    (m : nat) : VitestPackage :=
  if decide (length (group_ids packages (prefix pkg)) = 1) then pkg
  else set_prefix (new_prefix packages pkg m) pkg.

Lemma group_ids_NoDup packages k :
  NoDup (id <$> packages) → NoDup (group_ids packages k).
Proof.
  unfold group_ids. induction packages as [|pkg rest IH]; csimpl; [done|].
  intros [Hnin Hnd]%NoDup_cons. rewrite filter_cons. case_decide; [|by apply IH].
  csimpl. apply NoDup_cons. split; [|by apply IH].
  intros (q & Hq & [_ Hin]%list_elem_of_filter)%list_elem_of_fmap.
  apply Hnin. rewrite Hq. by apply list_elem_of_fmap_2.
Qed.

Lemma group_ids_elem packages k path :
  path ∈ group_ids packages k ↔
  ∃ pkg, pkg ∈ packages ∧ prefix pkg = k ∧ id pkg = path.
Proof.
  unfold group_ids. rewrite list_elem_of_fmap. split.
  - intros (pkg & -> & [? ?]%list_elem_of_filter). eauto.
  - intros (pkg & ? & ? & <-). exists pkg. by rewrite list_elem_of_filter.
Qed.

Section Fold.
Variable packages : list VitestPackage.
Hypothesis Hnd : NoDup (id <$> packages).

Lemma projects_of_group_member path j pkg :
  packages !! j = Some pkg →
  (register_all 0 packages ([], ∅)).2 !! path = Some j → path = id pkg.
Proof.
  intros Hj Hp. apply register_all_projects_inv in Hp as (q & Hq & <-); [|done].
  congruence.
Qed.

Lemma disambiguate_other store k j pkg :
  packages !! j = Some pkg → prefix pkg ≠ k →
  disambiguate (register_all 0 packages ([], ∅)).2 store
    (group_ids packages k) !! j = store !! j.
Proof.
  intros Hj Hk. unfold disambiguate. case_decide; [done|].
  apply rename_all_untouched. intros path Hin Hp.
  apply (projects_of_group_member _ _ _ Hj) in Hp. subst path.
  apply group_ids_elem in Hin as (q & Hq & Hpre & Hid).
  apply list_elem_of_lookup in Hq as [j' Hq].
  assert (j' = j) as ->.
  { eapply NoDup_lookup; [exact Hnd|..]; rewrite list_lookup_fmap.
    - by rewrite Hq.
    - by rewrite Hj, Hid. }
  congruence.
Qed.

Lemma disambiguate_own store j pkg m :
  packages !! j = Some pkg →
  group_ids packages (prefix pkg) !! m = Some (id pkg) →
  disambiguate (register_all 0 packages ([], ∅)).2 store
    (group_ids packages (prefix pkg)) !! j =
  (if decide (length (group_ids packages (prefix pkg)) = 1) then store !! j
   else set_prefix (new_prefix packages pkg m) <$> store !! j).
Proof.
  intros Hj Hm. unfold disambiguate. case_decide; [done|].
  rewrite (rename_all_touched _ _ 0 _ _ j m (id pkg)); [done|..].
  - by apply group_ids_NoDup.
  - done.
  - by rewrite (register_all_projects 0 _ _ j pkg).
  - intros path' _ Hp. by apply (projects_of_group_member _ _ _ Hj).
Qed.

Lemma fold_disambiguate (L : list (string * list string)) store j pkg m :
  packages !! j = Some pkg →
  group_ids packages (prefix pkg) !! m = Some (id pkg) →
  NoDup L.*1 →
  (∀ k paths, (k, paths) ∈ L → paths = group_ids packages k) →
  foldl (λ store e,
           disambiguate (register_all 0 packages ([], ∅)).2 store e.2)
    store L !! j =
  (if decide (prefix pkg ∈ L.*1 ∧ length (group_ids packages (prefix pkg)) ≠ 1)
   then set_prefix (new_prefix packages pkg m) <$> store !! j
   else store !! j).
Proof.
  intros Hj Hm. revert store. induction L as [|[k paths] L IH];
    intros store HL Hgroups.
  { rewrite decide_False; [done|]. intros [[]%elem_of_nil _]. }
  csimpl in *. apply NoDup_cons in HL as [Hk HL].
  rewrite IH by (eauto using list_elem_of_further).
  rewrite (Hgroups k paths) by apply list_elem_of_here.
  destruct (decide (k = prefix pkg)) as [->|Hne].
  - rewrite (disambiguate_own _ _ _ m) by done.
    assert (prefix pkg ∈ prefix pkg :: L.*1) as Hhere by apply list_elem_of_here.
    repeat case_decide; try done; exfalso; tauto.
  - rewrite (disambiguate_other _ _ _ pkg) by done.
    apply decide_ext. rewrite elem_of_cons.
    assert (prefix pkg = k → False) by congruence. tauto.
Qed.

(** The package at position [j] comes back with every field but its prefix
    unchanged, and its prefix rewritten from the disambiguator found for its
    place in its group. *)
Lemma resolvePackagUniquePrefixes_lookup j pkg :
  packages !! j = Some pkg →
  ∃ m, group_ids packages (prefix pkg) !! m = Some (id pkg) ∧
       resolvePackagUniquePrefixes packages !! j =
         Some (renamed packages pkg m).
Proof.
  intros Hj.
  assert (id pkg ∈ group_ids packages (prefix pkg)) as Hin.
  { apply group_ids_elem. exists pkg. by apply list_elem_of_lookup_2 in Hj. }
  apply list_elem_of_lookup in Hin as Hm. destruct Hm as [m Hm].
  exists m. split; [done|].
  unfold resolvePackagUniquePrefixes.
  set (st := register_all 0 packages ([], ∅)).
  assert (NoDup st.1.*1) as Hkeys
    by (apply register_all_keys_NoDup; apply NoDup_nil_2).
  assert (∀ k paths, (k, paths) ∈ st.1 ↔
            paths = group_ids packages k ∧ group_ids packages k ≠ []) as Hst.
  { intros k paths. rewrite (obj_get_elem _ _ _ Hkeys). unfold st.
    rewrite register_all_groups. simpl. case_decide as Hg.
    - split; [done | by intros [_ ?]].
    - split; [by intros [= <-] | by intros [-> _]]. }
  rewrite (fold_disambiguate _ _ j pkg m Hj Hm).
  - unfold renamed. rewrite Hj. simpl.
    assert (prefix pkg ∈ (obj_entries st.1).*1) as Hkey.
    { apply list_elem_of_fmap.
      exists (prefix pkg, group_ids packages (prefix pkg)). split; [done|].
      rewrite obj_entries_Permutation. apply Hst. split; [done|].
      intros Hnil. rewrite Hnil in Hin. by apply elem_of_nil in Hin. }
    repeat case_decide; try done; exfalso; tauto.
  - by rewrite obj_entries_Permutation.
  - intros k paths. rewrite obj_entries_Permutation. by intros [? _]%Hst.
Qed.

End Fold.

(** ** Distinctness of the returned prefixes *)

(** [pkg] has a non-empty remaining ancestor segment, not named like a
    member inherited from [Object.prototype], that no other package with the
    same initial prefix has among its remaining segments. *)
Definition has_private_segment (packages : list VitestPackage)
    (pkg : VitestPackage) : Prop :=
  Exists (λ u, u ≠ "" ∧ inherited u = false ∧
               Forall (λ r, prefix r = prefix pkg → id r ≠ id pkg →
                            u ∉ path_segments (id r)) packages)
         (path_segments (id pkg)).

Lemma private_segment_folder packages pkg m f :
  NoDup (id <$> packages) →
  has_private_segment packages pkg →
  group_ids packages (prefix pkg) !! m = Some (id pkg) →
  findFirstUniqueFolderNames (group_ids packages (prefix pkg)) !! m = Some f →
  f ≠ "".
Proof.
  intros Hnd (u & Hu & Hne & Hown & Hpriv)%Exists_exists Hm.
  apply (findFirstUniqueFolderNames_private _ m (id pkg) u); [done..|].
  intros m' path Hmm Hpath.
  assert (path ∈ group_ids packages (prefix pkg)) as Hin
    by (by apply list_elem_of_lookup_2 in Hpath).
  apply group_ids_elem in Hin as (r & Hr & Hpre & <-).
  rewrite Forall_forall in Hpriv. apply Hpriv; [done..|].
  intros Hid. apply Hmm. rewrite Hid in Hpath.
  eapply NoDup_lookup; [by apply group_ids_NoDup|done..].
Qed.

(** Two packages of one group with the same file name: what they come back
    with. *)
Lemma same_group_renamed packages i j p q :
  NoDup (id <$> packages) →
  packages !! i = Some p → packages !! j = Some q → i ≠ j →
  prefix p = prefix q →
  ∃ m n f g,
    m ≠ n
    ∧ group_ids packages (prefix p) !! m = Some (id p)
    ∧ group_ids packages (prefix p) !! n = Some (id q)
    ∧ findFirstUniqueFolderNames (group_ids packages (prefix p)) !! m = Some f
    ∧ findFirstUniqueFolderNames (group_ids packages (prefix p)) !! n = Some g
    ∧ resolvePackagUniquePrefixes packages !! i =
        Some (set_prefix (f +:+ ":" +:+ basename (id p)) p)
    ∧ resolvePackagUniquePrefixes packages !! j =
        Some (set_prefix (g +:+ ":" +:+ basename (id q)) q).
Proof.
  intros Hnd Hi Hj Hij Hpre.
  destruct (resolvePackagUniquePrefixes_lookup packages Hnd i p Hi)
    as (m & Hm & Hri).
  destruct (resolvePackagUniquePrefixes_lookup packages Hnd j q Hj)
    as (n & Hn & Hrj).
  assert (id p ≠ id q) as Hids.
  { intros Heq. apply Hij. eapply NoDup_lookup; [exact Hnd|..];
      rewrite list_lookup_fmap; [by rewrite Hi | by rewrite Hj, Heq]. }
  assert (m ≠ n) as Hmn by (intros ->; rewrite <- Hpre in Hn; congruence).
  rewrite Hri, Hrj. unfold renamed, new_prefix. rewrite <- Hpre in *.
  set (G := group_ids packages (prefix p)) in *.
  assert (length G ≠ 1) as Hlen.
  { apply lookup_lt_Some in Hm. apply lookup_lt_Some in Hn. lia. }
  rewrite !decide_False by done.
  destruct (findFirstUniqueFolderNames G !! m) as [f|] eqn:Hf.
  2:{ apply lookup_ge_None in Hf.
      rewrite findFirstUniqueFolderNames_length in Hf.
      apply lookup_lt_Some in Hm. lia. }
  destruct (findFirstUniqueFolderNames G !! n) as [g|] eqn:Hg.
  2:{ apply lookup_ge_None in Hg.
      rewrite findFirstUniqueFolderNames_length in Hg.
      apply lookup_lt_Some in Hn. lia. }
  by exists m, n, f, g.
Qed.

(** C2 (as amended).  In a list of packages with pairwise distinct ids, two
    packages that share their initial prefix and the basename of their id
    come back with the same prefix only when both were given the empty
    disambiguator, that is the prefix [:file].  A package that has a
    non-empty remaining ancestor segment, not named like a member inherited
    from [Object.prototype], that no other package of its group has is never
    given the empty disambiguator; so the two prefixes differ as soon as one
    of the two packages has such a segment. *)
Theorem same_group_prefixes_distinct packages i j p q p' q' :
  NoDup (id <$> packages) →
  packages !! i = Some p → packages !! j = Some q → i ≠ j →
  prefix p = prefix q → basename (id p) = basename (id q) →
  resolvePackagUniquePrefixes packages !! i = Some p' →
  resolvePackagUniquePrefixes packages !! j = Some q' →
  (prefix p' = prefix q' →
     prefix p' = ":" +:+ basename (id p) ∧ prefix q' = ":" +:+ basename (id q))
  ∧ (has_private_segment packages p → prefix p' ≠ ":" +:+ basename (id p))
  ∧ (has_private_segment packages q → prefix q' ≠ ":" +:+ basename (id q))
  ∧ (has_private_segment packages p ∨ has_private_segment packages q →
       prefix p' ≠ prefix q').
Proof.
  intros Hnd Hi Hj Hij Hpre Hbase Hi' Hj'.
  destruct (same_group_renamed packages i j p q Hnd Hi Hj Hij Hpre)
    as (m & n & f & g & Hmn & Hm & Hn & Hf & Hg & Hri & Hrj).
  rewrite Hri in Hi'. rewrite Hrj in Hj'.
  injection Hi' as <-. injection Hj' as <-. cbn [prefix set_prefix].
  assert (f +:+ ":" +:+ basename (id p) = g +:+ ":" +:+ basename (id q) →
          f = "" ∧ g = "") as Hsame.
  { rewrite <- Hbase. intros Heq%string_append_cancel_r. subst g.
    destruct (decide (f = "")) as [->|Hne]; [done|].
    by destruct (findFirstUniqueFolderNames_distinct _ m n f f Hf Hg Hmn). }
  assert (has_private_segment packages p →
          f +:+ ":" +:+ basename (id p) ≠ ":" +:+ basename (id p)) as Hp.
  { intros Hpriv Heq.
    apply (string_append_cancel_r f "") in Heq.
    by apply (private_segment_folder packages p m f). }
  assert (has_private_segment packages q →
          g +:+ ":" +:+ basename (id q) ≠ ":" +:+ basename (id q)) as Hq.
  { intros Hpriv Heq.
    apply (string_append_cancel_r g "") in Heq.
    apply (private_segment_folder packages q n g); [done..| | |done];
      by rewrite <- Hpre. }
  split; [|split; [done|split; [done|]]].
  - intros Heq. by destruct (Hsame Heq) as [-> ->].
  - intros Hpriv Heq. destruct (Hsame Heq) as [-> ->].
    destruct Hpriv as [Hpriv|Hpriv]; [by apply Hp | by apply Hq].
Qed.

End WithBasename.

(** ** Concrete workspaces *)

(** A descriptor as config-file discovery builds it, reduced to what the
    prefix assigner reads. *)
Definition descriptor (path pre : string) : VitestPackage :=
  {| folder := "file:///w"; prefix := pre; vitestNodePath := "";
     vitestPackageJsonPath := ""; id := path; cwd := ""; version := "1.0.0";
     arguments := None; configFile := None; workspaceFile := None;
     loader := None; pnp := None |}.

(** Two configs in folders named [proj] below [/w/x] and [/w/y]. *)
Definition two_projects : list VitestPackage :=
  [descriptor "/w/x/proj/vitest.config.ts" "proj:vitest.config.ts";
   descriptor "/w/y/proj/vitest.config.ts" "proj:vitest.config.ts"].

Example two_projects_prefixes :
  prefix <$> resolvePackagUniquePrefixes Pathe.basename two_projects
  = ["x:vitest.config.ts"; "y:vitest.config.ts"].
Proof. by vm_compute. Qed.

(** A third config of the same name right below the root: it has no segment
    of its own left, the other two have. *)
Definition two_projects_and_root : list VitestPackage :=
  two_projects ++ [descriptor "/proj/vitest.config.ts" "proj:vitest.config.ts"].

Example two_projects_and_root_prefixes :
  prefix <$> resolvePackagUniquePrefixes Pathe.basename two_projects_and_root
  = ["x:vitest.config.ts"; "y:vitest.config.ts"; ":vitest.config.ts"].
Proof. by vm_compute. Qed.

Lemma same_group_prefixes_distinct_witness :
  NoDup (id <$> two_projects_and_root)
  ∧ has_private_segment two_projects_and_root
      (descriptor "/w/y/proj/vitest.config.ts" "proj:vitest.config.ts")
  ∧ ¬ has_private_segment two_projects_and_root
        (descriptor "/proj/vitest.config.ts" "proj:vitest.config.ts")
  ∧ "y:vitest.config.ts" ≠ ":vitest.config.ts".
Proof.
  assert (NoDup (id <$> two_projects_and_root)) as Hnd by by_evaluation.
  assert (has_private_segment two_projects_and_root
            (descriptor "/w/y/proj/vitest.config.ts" "proj:vitest.config.ts"))
    as Hpriv by by_evaluation.
  split; [done|]. split; [done|]. split; [by_evaluation|].
  destruct (same_group_prefixes_distinct Pathe.basename two_projects_and_root
              1 2
              (descriptor "/w/y/proj/vitest.config.ts" "proj:vitest.config.ts")
              (descriptor "/proj/vitest.config.ts" "proj:vitest.config.ts")
              (descriptor "/w/y/proj/vitest.config.ts" "y:vitest.config.ts")
              (descriptor "/proj/vitest.config.ts" ":vitest.config.ts"))
    as (_ & _ & _ & Hdiff); [by vm_compute..|].
  apply Hdiff. by left.
Defined.

(** Two configs whose only remaining segments are named like inherited
    members: neither segment is ever chosen and both configs are given the
    empty disambiguator. *)
Definition member_named_projects : list VitestPackage :=
  [descriptor "/toString/p/c.ts" "p:c.ts";
   descriptor "/valueOf/p/c.ts" "p:c.ts"].

Example member_named_projects_prefixes :
  path_segments <$> (id <$> member_named_projects)
    = [["toString"; ""]; ["valueOf"; ""]]
  ∧ prefix <$> resolvePackagUniquePrefixes Pathe.basename member_named_projects
    = [":c.ts"; ":c.ts"].
Proof. split; by vm_compute. Qed.

(** The precondition of C2 as the specification words it: any two packages
    that share their initial prefix differ in a remaining ancestor segment
    (one of them has a non-empty segment the other lacks). *)
Definition segments_differ (packages : list VitestPackage) : Prop :=
  ∀ i j p q,
    packages !! i = Some p → packages !! j = Some q → i ≠ j →
    prefix p = prefix q →
    ∃ u, u ≠ "" ∧
         (u ∈ path_segments (id p) ∧ u ∉ path_segments (id q)
          ∨ u ∈ path_segments (id q) ∧ u ∉ path_segments (id p)).

(** A config in [/w/x] next to the two configs of [two_projects], each with
    the prefix [resolveVitestConfig] gives it (parent folder, colon, file
    name). *)
Definition three_projects : list VitestPackage :=
  [descriptor "/w/x/vitest.config.ts" "x:vitest.config.ts";
   descriptor "/w/x/proj/vitest.config.ts" "proj:vitest.config.ts";
   descriptor "/w/y/proj/vitest.config.ts" "proj:vitest.config.ts"].

Example three_projects_prefixes :
  prefix <$> resolvePackagUniquePrefixes Pathe.basename three_projects
  = ["x:vitest.config.ts"; "x:vitest.config.ts"; "y:vitest.config.ts"].
Proof. by vm_compute. Qed.

(** C2 (counterexample).  The two [proj] configs differ in a remaining
    segment ([x] against [y]), yet the first of them is renamed to the prefix
    the config in [/w/x] already has: groups are disambiguated one at a time
    and never compared with each other. *)
Lemma prefixes_collide_across_groups :
  NoDup (id <$> three_projects)
  ∧ segments_differ three_projects
  ∧ ¬ NoDup (prefix <$> resolvePackagUniquePrefixes Pathe.basename
                          three_projects).
Proof.
  split; [by_evaluation|]. split; [|by_evaluation].
  intros [|[|[|i]]] [|[|[|j]]] p q Hp Hq Hij Hpre; simplify_eq/=.
  - exists "x". split; [done|]. left. split; by_evaluation.
  - exists "y". split; [done|]. left. split; by_evaluation.
Qed.

(** Inside one group the wording of the precondition is not enough either:
    the four configs of [nested_paths] differ pairwise in a remaining
    segment, and the last two both end up with the empty disambiguator. *)
Definition nested_projects : list VitestPackage :=
  (λ path, descriptor path "proj:c.ts") <$> nested_paths.

Example prefixes_collide_within_group :
  segments_differ nested_projects
  ∧ prefix <$> resolvePackagUniquePrefixes Pathe.basename nested_projects
    = ["x:c.ts"; "y:c.ts"; ":c.ts"; ":c.ts"].
Proof.
  split; [|by vm_compute].
  intros [|[|[|[|i]]]] [|[|[|[|j]]]] p q Hp Hq Hij Hpre; simplify_eq/=;
    first [ exists "x"; split; [done|]; by_evaluation
          | exists "y"; split; [done|]; by_evaluation
          | exists "z"; split; [done|]; by_evaluation ].
Qed.

(** The two paths of C3. *)
Definition sibling_paths : list string :=
  ["/a/proj1/vitest.config.ts"; "/a/proj2/vitest.config.ts"].

(** The two paths as one group, under the prefix the specification gives
    them. *)
Definition siblings_grouped : list VitestPackage :=
  (λ path, descriptor path "vitest.config.ts") <$> sibling_paths.

(** The two paths with the prefixes [resolveVitestConfig] gives them. *)
Definition siblings_discovered : list VitestPackage :=
  [descriptor "/a/proj1/vitest.config.ts" "proj1:vitest.config.ts";
   descriptor "/a/proj2/vitest.config.ts" "proj2:vitest.config.ts"].

(** C3 (counterexample).  On the two paths of the claim the function does
    not return the parent folders, and the group does not get the claimed
    prefixes. *)
Lemma sibling_paths_not_parent_folders :
  findFirstUniqueFolderNames sibling_paths ≠ ["proj1"; "proj2"]
  ∧ prefix <$> resolvePackagUniquePrefixes Pathe.basename siblings_grouped
    ≠ ["proj1:vitest.config.ts"; "proj2:vitest.config.ts"].
Proof. split; by vm_compute. Qed.

(** C3 (as amended).  The parent folders [proj1] and [proj2] are among the
    two segments dropped from each reversed path, so both paths are left with
    the segments [a] and the empty string: the first takes [a], the second
    gets the empty string, and as one group they become [a:vitest.config.ts]
    and [:vitest.config.ts].  With the prefixes config discovery gives them
    the two descriptors are in groups of their own and keep
    [proj1:vitest.config.ts] and [proj2:vitest.config.ts].  The parent
    folders are chosen one level further down, for configs in a common
    folder name below [proj1] and [proj2]. *)
Theorem sibling_paths_disambiguation :
  path_segments <$> sibling_paths = [["a"; ""]; ["a"; ""]]
  ∧ findFirstUniqueFolderNames sibling_paths = ["a"; ""]
  ∧ prefix <$> resolvePackagUniquePrefixes Pathe.basename siblings_grouped
    = ["a:vitest.config.ts"; ":vitest.config.ts"]
  ∧ prefix <$> resolvePackagUniquePrefixes Pathe.basename siblings_discovered
    = ["proj1:vitest.config.ts"; "proj2:vitest.config.ts"]
  ∧ findFirstUniqueFolderNames
      ["/a/proj1/x/vitest.config.ts"; "/a/proj2/x/vitest.config.ts"]
    = ["proj1"; "proj2"].
Proof. repeat split; by vm_compute. Qed.

Section Preservation.

Variable basename : string → string.

(** ** What the function leaves alone *)

(** [b] is [a] with, at most, another prefix. *)
Definition same_but_prefix (a b : VitestPackage) : Prop :=
  b = set_prefix (prefix b) a.

Lemma same_but_prefix_refl a : same_but_prefix a a.
Proof. by destruct a. Qed.

Lemma same_but_prefix_set a b s :
  same_but_prefix a b → same_but_prefix a (set_prefix s b).
Proof. unfold same_but_prefix. intros ->. by destruct a. Qed.

Lemma rename_same_but_prefix projects folders index path packages store :
  Forall2 same_but_prefix packages store →
  Forall2 same_but_prefix packages
    (rename basename projects folders index path store).
Proof.
  intros Hst. unfold rename. destruct (projects !! path) as [i|]; [|done].
  apply Forall2_alter_r; [done|]. intros a b _ _. apply same_but_prefix_set.
Qed.

Lemma rename_all_same_but_prefix projects folders index paths packages store :
  Forall2 same_but_prefix packages store →
  Forall2 same_but_prefix packages
    (rename_all basename projects folders index paths store).
Proof.
  revert index store. induction paths as [|path rest IH];
    intros index store Hst; [done|].
  simpl. by apply IH, rename_same_but_prefix.
Qed.

Lemma disambiguate_same_but_prefix projects paths packages store :
  Forall2 same_but_prefix packages store →
  Forall2 same_but_prefix packages (disambiguate basename projects store paths).
Proof.
  intros Hst. unfold disambiguate. case_decide; [done|].
  by apply rename_all_same_but_prefix.
Qed.

Lemma resolvePackagUniquePrefixes_same_but_prefix packages :
  Forall2 same_but_prefix packages
    (resolvePackagUniquePrefixes basename packages).
Proof.
  unfold resolvePackagUniquePrefixes.
  generalize (obj_entries (register_all 0 packages ([], ∅)).1).
  generalize ((register_all 0 packages ([], ∅)).2).
  intros projects L.
  assert (Forall2 same_but_prefix packages packages) as Hinit.
  { apply Forall2_same_length_lookup. split; [done|].
    intros i a b Ha Hb. assert (a = b) as -> by congruence.
    apply same_but_prefix_refl. }
  revert Hinit. generalize packages at 2 4 as store.
  induction L as [|e L IH]; intros store Hst; [done|].
  simpl. by apply IH, disambiguate_same_but_prefix.
Qed.

(** X5.  The result is the input array, element by element, with nothing but
    prefixes rewritten. *)
Theorem resolvePackagUniquePrefixes_only_prefixes packages :
  length (resolvePackagUniquePrefixes basename packages) = length packages
  ∧ ∀ j pkg pkg',
      packages !! j = Some pkg →
      resolvePackagUniquePrefixes basename packages !! j = Some pkg' →
      pkg' = set_prefix (prefix pkg') pkg.
Proof.
  pose proof (resolvePackagUniquePrefixes_same_but_prefix packages) as H.
  split; [symmetry; by eapply Forall2_length|].
  intros j pkg pkg' Hj Hj'. by eapply (Forall2_lookup_lr _ _ _ j) in H.
Qed.

(** ** Packages alone in their group, packages that share a prefix *)

Lemma group_singleton packages j pkg :
  NoDup (id <$> packages) →
  packages !! j = Some pkg →
  (∀ i q, packages !! i = Some q → prefix q = prefix pkg → i = j) →
  length (group_ids packages (prefix pkg)) = 1.
Proof.
  intros Hnd Hj Halone.
  pose proof (group_ids_NoDup packages (prefix pkg) Hnd) as Hgnd.
  assert (id pkg ∈ group_ids packages (prefix pkg)) as Hin.
  { apply group_ids_elem. exists pkg. by apply list_elem_of_lookup_2 in Hj. }
  assert (∀ x, x ∈ group_ids packages (prefix pkg) → x = id pkg) as Hall.
  { intros x (q & Hq & Hpre & <-)%group_ids_elem.
    apply list_elem_of_lookup in Hq as [i Hi].
    rewrite (Halone i q Hi Hpre) in Hi. congruence. }
  destruct (group_ids packages (prefix pkg)) as [|x [|y l]].
  - by apply elem_of_nil in Hin.
  - done.
  - apply NoDup_cons in Hgnd as [Hx _]. destruct Hx.
    rewrite (Hall x), (Hall y); [apply list_elem_of_here| |apply list_elem_of_here].
    apply list_elem_of_further, list_elem_of_here.
Qed.

Lemma group_shared packages i j p q :
  NoDup (id <$> packages) →
  packages !! i = Some p → packages !! j = Some q → i ≠ j →
  prefix p = prefix q →
  length (group_ids packages (prefix p)) ≠ 1.
Proof.
  intros Hnd Hi Hj Hij Hpre.
  pose proof (group_ids_NoDup packages (prefix p) Hnd) as Hgnd.
  assert (id p ∈ group_ids packages (prefix p)) as Hp.
  { apply group_ids_elem. exists p. by apply list_elem_of_lookup_2 in Hi. }
  assert (id q ∈ group_ids packages (prefix p)) as Hq.
  { apply group_ids_elem. exists q. by apply list_elem_of_lookup_2 in Hj. }
  assert (id p ≠ id q) as Hne.
  { intros Heq. apply Hij. eapply NoDup_lookup; [exact Hnd|..];
      rewrite list_lookup_fmap; [by rewrite Hi | by rewrite Hj, Heq]. }
  destruct (group_ids packages (prefix p)) as [|x [|y l]]; [done| |done].
  apply list_elem_of_singleton in Hp, Hq. congruence.
Qed.

(** X6.  A package whose prefix no other package has comes back as it was. *)
Theorem resolvePackagUniquePrefixes_alone packages j pkg :
  NoDup (id <$> packages) →
  packages !! j = Some pkg →
  (∀ i q, packages !! i = Some q → prefix q = prefix pkg → i = j) →
  resolvePackagUniquePrefixes basename packages !! j = Some pkg.
Proof.
  intros Hnd Hj Halone.
  destruct (resolvePackagUniquePrefixes_lookup basename packages Hnd j pkg Hj)
    as (m & _ & ->).
  unfold renamed. by rewrite decide_True by by apply (group_singleton _ j).
Qed.

(** X7.  A package that shares its prefix with another one comes back with the
    prefix [folder:file], where [file] is the basename of its id and [folder]
    is the empty string or one of the segments of its id above its parent
    folder. *)
Theorem resolvePackagUniquePrefixes_shared packages i j pkg q :
  NoDup (id <$> packages) →
  packages !! j = Some pkg → packages !! i = Some q → i ≠ j →
  prefix q = prefix pkg →
  ∃ folder,
    resolvePackagUniquePrefixes basename packages !! j =
      Some (set_prefix (folder +:+ ":" +:+ basename (id pkg)) pkg)
    ∧ (folder = "" ∨ folder ∈ path_segments (id pkg)).
Proof.
  intros Hnd Hj Hi Hij Hpre.
  destruct (resolvePackagUniquePrefixes_lookup basename packages Hnd j pkg Hj)
    as (m & Hm & ->).
  unfold renamed, new_prefix.
  rewrite decide_False
    by (apply (group_shared packages j i pkg q); auto).
  destruct (findFirstUniqueFolderNames (group_ids packages (prefix pkg)) !! m)
    as [f|] eqn:Hf.
  - exists f. split; [done|].
    by apply (findFirstUniqueFolderNames_own_segment
                (group_ids packages (prefix pkg)) m (id pkg)).
  - apply lookup_ge_None in Hf. rewrite findFirstUniqueFolderNames_length in Hf.
    apply lookup_lt_Some in Hm. lia.
Qed.

End Preservation.

(** In [three_projects] the config in [/w/x] is alone in its group. *)
Lemma resolvePackagUniquePrefixes_alone_witness :
  NoDup (id <$> three_projects)
  ∧ resolvePackagUniquePrefixes Pathe.basename three_projects !! 0 =
    Some (descriptor "/w/x/vitest.config.ts" "x:vitest.config.ts").
Proof.
  assert (NoDup (id <$> three_projects)) as Hnd by by_evaluation.
  split; [done|].
  apply (resolvePackagUniquePrefixes_alone Pathe.basename three_projects 0
           (descriptor "/w/x/vitest.config.ts" "x:vitest.config.ts"));
    [done | done |].
  intros [|[|[|i]]] q Hq Hpre; by simplify_eq/=.
Defined.

(** In [two_projects] the first config shares its prefix with the second. *)
Lemma resolvePackagUniquePrefixes_shared_witness :
  NoDup (id <$> two_projects)
  ∧ ∃ folder,
      resolvePackagUniquePrefixes Pathe.basename two_projects !! 0 =
        Some (descriptor "/w/x/proj/vitest.config.ts"
                (folder +:+ ":vitest.config.ts"))
      ∧ (folder = "" ∨ folder ∈ ["x"; "w"; ""]).
Proof.
  assert (NoDup (id <$> two_projects)) as Hnd by by_evaluation.
  split; [done|].
  destruct (resolvePackagUniquePrefixes_shared Pathe.basename two_projects 1 0
              (descriptor "/w/x/proj/vitest.config.ts" "proj:vitest.config.ts")
              (descriptor "/w/y/proj/vitest.config.ts" "proj:vitest.config.ts"))
    as (folder & Hfolder & Hsegment); [done | done | done | lia | done |].
  exists folder. split; [exact Hfolder | exact Hsegment].
Defined.

End Prefixes.


(* ===================================================================== *)
(** * Project discovery: [resolveVitestPackages] *)
(* ===================================================================== *)

Module Discovery.
Import Js Prefixes.

(** ** The host: editor API, file system, package resolution

    Everything the discovery code asks of its surroundings.  A [Uri] is
    identified with its [fsPath]. *)

(** What [resolveVitestPackage] of [./resolve] returns when it finds the
    runner; [res_pnp] holds [loaderPath] and [pnpPath]. *)
Record Resolution : Type := {
  res_vitestNodePath : string;
  res_vitestPackageJsonPath : string;
  res_pnp : option (string * string);
}.

(** The fields read from a required [package.json]. *)
Record PackageJson : Type := {
  pkg_name : string;
  pkg_version : string;
}.

(** The value of a manifest script entry: a string, or anything else. *)
Inductive ScriptValue : Type :=
| ScriptString (s : string)
| ScriptOther.

(** The fields read from [getConfig()]. *)
Record Config : Type := {
  workspaceConfig : option string;
  rootConfig : option string;
  configSearchPatternExclude : string;
}.

Record Host : Type := {
  (** [pathe] *)
  basename : string → string;
  dirname : string → string;
  normalize : string → string;
  (** [../constants] *)
  workspaceGlob : string;
  configGlob : string;
  minimumVersion : string;
  (** [getConfig()] *)
  getConfig : Config;
  (** [vscode.workspace.findFiles(glob, exclude)], as [fsPath]s *)
  findFiles : string → string → list string;
  (** [vscode.workspace.getWorkspaceFolder(uri)] *)
  getWorkspaceFolder : string → string;
  (** [vscode.Uri.file(path).fsPath] *)
  uriFile : string → string;
  (** [`${uri}`] *)
  uriToString : string → string;
  (** [Object.entries(JSON.parse(file).scripts || {})] of the manifest at a
      path *)
  manifestScripts : string → list (string * ScriptValue);
  (** [resolveVitestPackage(cwd, folder)] *)
  resolveVitestPackage : string → string → option Resolution;
  (** [_require(path)] of a [package.json] *)
  required : string → PackageJson;
  (** [gte] of [semver] *)
  gte : string → string → bool;
}.

(** ** Effects

    The discovery functions talk to the editor and the module cache; the
    model records each such call, in order. *)
Inductive Event : Type :=
| FindFiles (glob exclude : string)
| ReadFile (path : string)
| RequireModule (path : string)
| DeleteRequireCache (path : string)
| ShowWarningMessage (msg : string)
| ShowErrorMessage (msg : string)
| LogError (args : list string)
| LogInfo (args : list string).

(** A computation: its value and the calls it made. *)
Definition M (A : Type) : Type := A * list Event.

Definition ret {A} (a : A) : M A := (a, []).

Definition bind {A B} (m : M A) (k : A → M B) : M B :=
  ((k m.1).1, m.2 ++ (k m.1).2).

Definition emit (e : Event) : M unit := (tt, [e]).

Notation "x <- m ;; k" := (bind m (λ x, k))
  (at level 100, m at next level, right associativity).
Notation "m ;; k" := (bind m (λ _, k))
  (at level 100, right associativity).

(** A loop with effects over an array. *)
Fixpoint foldM {A S} (f : S → A → M S) (s : S) (l : list A) : M S :=
  match l with
  | [] => ret s
  | x :: l' => s' <- f s x ;; foldM f s' l'
  end.

(** What a discovery strategy returns: [{ meta, warned }]. *)
Record Discovered : Type := {
  meta : list VitestPackage;
  warned : bool;
}.

Section WithHost.

Variable h : Host.

(** [validateVitestPkg] *)
Definition validateVitestPkg (showWarning : bool) (pkgJsonPath : string)
    (pkg : PackageJson) : M bool :=
  if negb (String.eqb (pkg_name pkg) "vitest") then
    emit (ShowErrorMessage
            ("Package was resolved to " +:+ dquote +:+ pkg_name pkg +:+ dquote
             +:+ " instead of " +:+ dquote +:+ "vitest" +:+ dquote
             +:+ ". If you are using " +:+ dquote +:+ "vitest.vitestPackagePath"
             +:+ dquote +:+ ", make sure it points to a " +:+ dquote
             +:+ "vitest" +:+ dquote +:+ " package.")) ;;
    emit (DeleteRequireCache pkgJsonPath) ;;
    ret false
  else if negb (gte h (pkg_version pkg) (minimumVersion h)) then
    (if showWarning then
       emit (ShowWarningMessage
               ("Vitest v" +:+ pkg_version pkg +:+ " is not supported. Vitest v"
                +:+ minimumVersion h +:+ " or newer is required."))
     else
       emit (LogError
               ["[API]";
                "Vitest v" +:+ pkg_version pkg +:+ " from " +:+ pkgJsonPath
                +:+ " is not supported. Vitest v" +:+ minimumVersion h
                +:+ " or newer is required."])) ;;
    emit (DeleteRequireCache pkgJsonPath) ;;
    ret false
  else ret true.

(** [resolveVitestConfig] *)
Definition resolveVitestConfig (showWarning : bool)
    (configOrWorkspaceFile : string) : M (option VitestPackage) :=
  let folder := getWorkspaceFolder h configOrWorkspaceFile in
  let cwd := dirname h configOrWorkspaceFile in
  match resolveVitestPackage h (dirname h configOrWorkspaceFile) folder with
  | None =>
      (if showWarning then
         emit (ShowWarningMessage
                 ("Vitest not found in " +:+ dquote
                  +:+ basename h (dirname h configOrWorkspaceFile) +:+ dquote
                  +:+ " folder. Please run `npm i --save-dev vitest` to install Vitest.'"))
       else ret tt) ;;
      emit (LogError ["[API]";
                      "Vitest not found for "
                      +:+ uriToString h configOrWorkspaceFile +:+ "."]) ;;
      ret None
  | Some vitest =>
      let id := normalize h configOrWorkspaceFile in
      let prefix := basename h (dirname h id) +:+ ":" +:+ basename h id in
      match res_pnp vitest with
      | Some (loaderPath, pnpPath) =>
          ret (Some {| folder := folder; id := id; cwd := cwd;
                       prefix := prefix;
                       vitestNodePath := res_vitestNodePath vitest;
                       vitestPackageJsonPath := res_vitestPackageJsonPath vitest;
                       version := "pnp";
                       loader := Some loaderPath; pnp := Some pnpPath;
                       arguments := None; configFile := None;
                       workspaceFile := None |})
      | None =>
          emit (RequireModule (res_vitestPackageJsonPath vitest)) ;;
          let pkg := required h (res_vitestPackageJsonPath vitest) in
          ok <- validateVitestPkg showWarning
                  (res_vitestPackageJsonPath vitest) pkg ;;
          if ok then
            ret (Some {| folder := folder; id := id; cwd := cwd;
                         prefix := prefix;
                         vitestPackageJsonPath := res_vitestPackageJsonPath vitest;
                         vitestNodePath := res_vitestNodePath vitest;
                         version := pkg_version pkg;
                         loader := None; pnp := None;
                         arguments := None; configFile := None;
                         workspaceFile := None |})
          else ret None
      end
  end.

(** ** Manifest-script discovery *)

(** The descriptor pushed for the script [scriptName] with text [script]. *)
Definition scriptPackage (folder cwd pkgPath : string) (vitest : Resolution)
    (pkg : PackageJson) (scriptName script : string) : VitestPackage :=
  {| folder := folder;
     id := normalize h pkgPath +:+ "/" +:+ scriptName;
     cwd := cwd;
     prefix := "package.json:" +:+ scriptName;
     arguments := Some script;
     vitestPackageJsonPath := res_vitestPackageJsonPath vitest;
     vitestNodePath := res_vitestNodePath vitest;
     version := pkg_version pkg;
     configFile := None; workspaceFile := None; loader := None; pnp := None |}.

(** Body of [for (const [scriptName, script] of scripts)]:
    [if (typeof script !== 'string') continue;
     if (!script.startsWith('vitest ')) continue;
     meta.push({...})]. *)
Definition pushScript (folder cwd pkgPath : string) (vitest : Resolution)
    (pkg : PackageJson) (meta : list VitestPackage)
    (entry : string * ScriptValue) : list VitestPackage :=
  match entry.2 with
  | ScriptOther => meta
  | ScriptString script =>
      if negb (startsWith "vitest " script) then meta
      else meta ++ [scriptPackage folder cwd pkgPath vitest pkg entry.1 script]
  end.

(** [for (const [scriptName, script] of scripts)] *)
Definition pushScripts (folder cwd pkgPath : string) (vitest : Resolution)
    (pkg : PackageJson) (meta : list VitestPackage)
    (scripts : list (string * ScriptValue)) : list VitestPackage :=
  foldl (pushScript folder cwd pkgPath vitest pkg) meta scripts.

(** The continuation of one manifest's callback after its file has been
    read.  The state is the pair of the closure variables [meta] and
    [warned]. *)
Definition manifestPackages (showWarning : bool)
    (st : list VitestPackage * bool) (pkgPath : string)
  : M (list VitestPackage * bool) :=
  let scripts := manifestScripts h pkgPath in
  let folder := getWorkspaceFolder h pkgPath in
  let cwd := dirname h pkgPath in
  match resolveVitestPackage h cwd folder with
  | None => ret st
  | Some vitest =>
      emit (RequireModule (res_vitestPackageJsonPath vitest)) ;;
      let pkg := required h (res_vitestPackageJsonPath vitest) in
      ok <- validateVitestPkg showWarning
              (res_vitestPackageJsonPath vitest) pkg ;;
      if negb ok then ret (st.1, true)
      else ret (pushScripts folder cwd pkgPath vitest pkg st.1 scripts, st.2)
  end.

(** [resolveVitestPackagesViaPackageJson].  Every callback of
    [packages.map] first asks for its file; the continuations are taken to
    run in the order of the requests. *)
Definition resolveVitestPackagesViaPackageJson (showWarning : bool)
  : M Discovered :=
  let config := getConfig h in
  emit (FindFiles "**/package.json" (configSearchPatternExclude config)) ;;
  let packages :=
    findFiles h "**/package.json" (configSearchPatternExclude config) in
  foldM (λ _ pkgPath, emit (ReadFile pkgPath)) tt packages ;;
  st <- foldM (manifestPackages showWarning) ([], false) packages ;;
  ret {| meta := resolvePackagUniquePrefixes (basename h) st.1;
         warned := st.2 |}.

(** ** Config-file discovery *)

(** [{ ...vitest, configFile: rootConfig, workspaceFile: vitest.id }] *)
Definition withWorkspace (rootConfig : option string) (vitest : VitestPackage)
  : VitestPackage :=
  {| folder := folder vitest; prefix := prefix vitest;
     vitestNodePath := vitestNodePath vitest;
     vitestPackageJsonPath := vitestPackageJsonPath vitest;
     id := id vitest; cwd := cwd vitest; version := version vitest;
     arguments := arguments vitest;
     configFile := rootConfig;
     workspaceFile := Some (id vitest);
     loader := loader vitest; pnp := pnp vitest |}.

(** Callback of [vitestWorkspaces.map], followed by [.filter(nonNullable)]:
    a [null] result sets [warned] and leaves no element. *)
Definition resolveWorkspace (showWarning : bool) (rootConfig : option string)
    (st : list VitestPackage * bool) (config : string)
  : M (list VitestPackage * bool) :=
  vitest <- resolveVitestConfig showWarning config ;;
  match vitest with
  | None => ret (st.1, true)
  | Some v => ret (st.1 ++ [withWorkspace rootConfig v], st.2)
  end.

(** Callback of [configs.reduce]: [acc[dir].push(config)], creating the array
    when the directory is new. *)
Definition groupConfig (acc : obj (list string)) (config : string)
  : obj (list string) :=
  let dir := dirname h config in
  obj_set acc dir (default [] (obj_get acc dir) ++ [config]).

Definition isViteConfig (file : string) : bool :=
  includes "vite." (basename h file).

Definition isVitestConfig (file : string) : bool :=
  includes "vitest." (basename h file).

(** [hasViteAndVitestConfig] *)
Definition hasViteAndVitestConfig (configFiles : list string) : bool :=
  existsb isViteConfig configFiles && existsb isVitestConfig configFiles.

(** [filteredConfigFiles] *)
Definition filteredConfigFiles (configFiles : list string) : list string :=
  if hasViteAndVitestConfig configFiles
  then List.filter (λ file, negb (isViteConfig file)) configFiles
  else configFiles.

(** Callback of [filteredConfigFiles.forEach]. *)
Definition resolveConfig (showWarning : bool)
    (st : list VitestPackage * bool) (config : string)
  : M (list VitestPackage * bool) :=
  vitest <- resolveVitestConfig showWarning config ;;
  match vitest with
  | Some v => ret (st.1 ++ [v], st.2)
  | None => ret (st.1, true)
  end.

(** Body of [for (const [_, configFiles] of Object.entries(configsByFolder))].
    The state is the pair of [resolvedMeta] and [warned]. *)
Definition resolveFolder (showWarning : bool)
    (st : list VitestPackage * bool) (entry : string * list string)
  : M (list VitestPackage * bool) :=
  foldM (resolveConfig showWarning) st (filteredConfigFiles entry.2).

(** [resolveVitestPackagesViaConfigs] *)
Definition resolveVitestPackagesViaConfigs (showWarning : bool)
  : M Discovered :=
  let config := getConfig h in
  let userWorkspace := workspaceConfig config in
  let rootConfig := rootConfig config in
  match truthy userWorkspace with
  | Some w => emit (LogInfo ["[API] Using user workspace config:"; w])
  | None => ret tt
  end ;;
  vitestWorkspaces <-
    match truthy userWorkspace with
    | Some w => ret [uriFile h w]
    | None =>
        emit (FindFiles (workspaceGlob h) (configSearchPatternExclude config)) ;;
        ret (findFiles h (workspaceGlob h) (configSearchPatternExclude config))
    end ;;
  match vitestWorkspaces with
  | _ :: _ =>
      st <- foldM (resolveWorkspace showWarning rootConfig) ([], false)
              vitestWorkspaces ;;
      ret {| meta := resolvePackagUniquePrefixes (basename h) st.1;
             warned := st.2 |}
  | [] =>
      configs <-
        match truthy rootConfig with
        | Some r => ret [uriFile h r]
        | None =>
            emit (FindFiles (configGlob h) (configSearchPatternExclude config)) ;;
            ret (findFiles h (configGlob h) (configSearchPatternExclude config))
        end ;;
      let configsByFolder := foldl groupConfig [] configs in
      st <- foldM (resolveFolder showWarning) ([], false)
              (obj_entries configsByFolder) ;;
      ret {| meta := resolvePackagUniquePrefixes (basename h) st.1;
             warned := st.2 |}
  end.

(** ** The top-level policy *)

(** [!vitest.meta.length && !vitest.warned] *)
Definition noViableConfigs (vitest : Discovered) : bool :=
  (length (meta vitest) =? 0) && negb (warned vitest).

(** [resolveVitestPackages] *)
Definition resolveVitestPackages (showWarning : bool)
  : M (list VitestPackage) :=
  vitest <- resolveVitestPackagesViaConfigs showWarning ;;
  if noViableConfigs vitest then
    pkg <- resolveVitestPackagesViaPackageJson showWarning ;;
    ret (meta pkg)
  else ret (meta vitest).

(** ** Facts about the loops *)

Lemma startsWith_spec p s : startsWith p s = true ↔ ∃ rest, s = p +:+ rest.
Proof.
  revert s. induction p as [|a p IH]; intros s; simpl.
  - split; [intros _; by exists s | done].
  - destruct s as [|b s].
    + split; [done | intros [rest Hrest]; discriminate].
    + rewrite andb_true_iff, Ascii.eqb_eq, IH. split.
      * intros [-> [rest ->]]. by exists rest.
      * intros [rest Hrest].
        change (String a p +:+ rest) with (String a (p +:+ rest)) in Hrest.
        injection Hrest as -> ->. eauto.
Qed.

(** The text of a script entry that passes both guards of the loop. *)
Definition runnerScript (entry : string * ScriptValue) : option string :=
  match entry.2 with
  | ScriptString script =>
      if startsWith "vitest " script then Some script else None
  | ScriptOther => None
  end.

Lemma pushScripts_omap folder cwd pkgPath vitest pkg meta scripts :
  pushScripts folder cwd pkgPath vitest pkg meta scripts =
  meta ++ omap (λ entry, scriptPackage folder cwd pkgPath vitest pkg entry.1
                           <$> runnerScript entry) scripts.
Proof.
  unfold pushScripts.
  revert meta. induction scripts as [|entry scripts IH]; intros meta; simpl.
  - by rewrite app_nil_r.
  - rewrite IH. unfold pushScript, runnerScript.
    destruct entry.2 as [script|]; [|done].
    destruct (startsWith "vitest " script); simpl; [|done].
    by rewrite <- app_assoc.
Qed.

Lemma foldM_resolveConfig showWarning st files :
  (foldM (resolveConfig showWarning) st files).1 =
  (st.1 ++ omap (λ f, (resolveVitestConfig showWarning f).1) files,
   st.2 || existsb (λ f, bool_decide ((resolveVitestConfig showWarning f).1 = None))
             files).
Proof.
  revert st. induction files as [|f files IH]; intros [ms w]; simpl.
  - by rewrite app_nil_r, orb_false_r.
  - rewrite IH. unfold resolveConfig. simpl.
    destruct (resolveVitestConfig showWarning f).1 as [v|]; simpl.
    + by rewrite <- app_assoc.
    + by rewrite orb_true_r.
Qed.

Lemma filteredConfigFiles_elem configFiles f :
  hasViteAndVitestConfig configFiles = true →
  f ∈ filteredConfigFiles configFiles ↔ f ∈ configFiles ∧ isViteConfig f = false.
Proof.
  intros Hboth. unfold filteredConfigFiles. rewrite Hboth.
  rewrite !list_elem_of_In, filter_In, negb_true_iff. done.
Qed.

Lemma filter_filter_sub {A} (p q : A → bool) (l : list A) :
  (∀ x, p x = true → q x = true) →
  List.filter p (List.filter q l) = List.filter p l.
Proof.
  intros Hpq. induction l as [|x l IH]; simpl; [done|].
  destruct (q x) eqn:Hq; simpl.
  - by rewrite IH.
  - destruct (p x) eqn:Hp; [|done]. apply Hpq in Hp. congruence.
Qed.

Lemma validateVitestPkg_true showWarning pkgJsonPath pkg :
  (validateVitestPkg showWarning pkgJsonPath pkg).1 = true ↔
  pkg_name pkg = "vitest"
  ∧ gte h (pkg_version pkg) (minimumVersion h) = true.
Proof.
  unfold validateVitestPkg.
  destruct (String.eqb_spec (pkg_name pkg) "vitest") as [Hn|Hn]; simpl.
  - destruct (gte h (pkg_version pkg) (minimumVersion h)); simpl;
      [done | split; [done | by intros [_ ?]]].
  - split; [done | by intros [? _]].
Qed.

Lemma noViableConfigs_true vitest :
  noViableConfigs vitest = true ↔ meta vitest = [] ∧ warned vitest = false.
Proof.
  unfold noViableConfigs.
  rewrite andb_true_iff, negb_true_iff, Nat.eqb_eq, length_zero_iff_nil. done.
Qed.

Lemma manifest_discovery_first_call showWarning :
  ∃ calls,
    (resolveVitestPackagesViaPackageJson showWarning).2 =
    FindFiles "**/package.json" (configSearchPatternExclude (getConfig h))
      :: calls.
Proof. unfold resolveVitestPackagesViaPackageJson, bind. simpl. eauto. Qed.

(** ** The claims *)

(** The calls of manifest-script discovery follow those of config-file
    discovery in the calls made by [resolveVitestPackages]. *)
Definition manifestDiscoveryRan (showWarning : bool) : Prop :=
  (resolveVitestPackages showWarning).2 =
  (resolveVitestPackagesViaConfigs showWarning).2
  ++ (resolveVitestPackagesViaPackageJson showWarning).2.

(** C1.  Manifest-script discovery runs exactly when config-file discovery
    returned no project and did not warn, and then its project list is the
    result.  Otherwise the result is the project list of config-file
    discovery and nothing is called beyond what config-file discovery
    called. *)
Theorem resolveVitestPackages_fallback_gate showWarning :
  (manifestDiscoveryRan showWarning ↔
     meta (resolveVitestPackagesViaConfigs showWarning).1 = []
     ∧ warned (resolveVitestPackagesViaConfigs showWarning).1 = false)
  ∧ (manifestDiscoveryRan showWarning →
       (resolveVitestPackages showWarning).1 =
       meta (resolveVitestPackagesViaPackageJson showWarning).1)
  ∧ (¬ manifestDiscoveryRan showWarning →
       resolveVitestPackages showWarning =
       (meta (resolveVitestPackagesViaConfigs showWarning).1,
        (resolveVitestPackagesViaConfigs showWarning).2)).
Proof.
  unfold manifestDiscoveryRan.
  rewrite <- noViableConfigs_true.
  destruct (manifest_discovery_first_call showWarning) as [calls Hcalls].
  unfold resolveVitestPackages, bind.
  set (configs := resolveVitestPackagesViaConfigs showWarning) in *.
  set (manifests := resolveVitestPackagesViaPackageJson showWarning) in *.
  clearbody configs manifests.
  destruct (noViableConfigs configs.1); simpl; rewrite ?app_nil_r.
  - split; [done|]. split; [done|]. by intros [].
  - assert (configs.2 ≠ configs.2 ++ manifests.2) as Hne.
    { rewrite Hcalls. intros Heq.
      apply (f_equal length) in Heq. rewrite length_app in Heq.
      simpl in Heq. lia. }
    split; [split; [done | discriminate]|]. split; [done|].
    intros _. by destruct configs.
Qed.

(** The body of the loop over the folders.  In a folder holding a file whose
    basename includes [vite.] and a file whose basename includes [vitest.],
    the files whose basename includes [vite.] are removed before anything is
    resolved; the folder is resolved from the remaining files only; and the
    files with [vitest.] and without [vite.] in their basename are all kept,
    in their order. *)
Lemma resolveFolder_without_vite_configs showWarning st dir configFiles :
  (∃ file, file ∈ configFiles ∧ includes "vite." (basename h file) = true) →
  (∃ file, file ∈ configFiles ∧ includes "vitest." (basename h file) = true) →
  filteredConfigFiles configFiles =
    List.filter (λ file, negb (includes "vite." (basename h file))) configFiles
  ∧ resolveFolder showWarning st (dir, configFiles) =
      foldM (resolveConfig showWarning) st
        (List.filter (λ file, negb (includes "vite." (basename h file)))
           configFiles)
  ∧ (∀ d, d ∈ (resolveFolder showWarning st (dir, configFiles)).1.1 ↔
       d ∈ st.1 ∨
       ∃ file, file ∈ configFiles
               ∧ includes "vite." (basename h file) = false
               ∧ (resolveVitestConfig showWarning file).1 = Some d)
  ∧ List.filter (λ file, includes "vitest." (basename h file)
                         && negb (includes "vite." (basename h file)))
      (filteredConfigFiles configFiles) =
    List.filter (λ file, includes "vitest." (basename h file)
                         && negb (includes "vite." (basename h file)))
      configFiles
  ∧ ((∀ file, file ∈ configFiles →
        includes "vitest." (basename h file) = true →
        includes "vite." (basename h file) = false) →
     List.filter (λ file, includes "vitest." (basename h file))
       (filteredConfigFiles configFiles) =
     List.filter (λ file, includes "vitest." (basename h file)) configFiles).
Proof.
  intros (f1 & Hf1 & Hvite) (f2 & Hf2 & Hvitest).
  assert (hasViteAndVitestConfig configFiles = true) as Hboth.
  { unfold hasViteAndVitestConfig. rewrite andb_true_iff, !existsb_exists.
    rewrite list_elem_of_In in Hf1, Hf2. split; eauto. }
  assert (filteredConfigFiles configFiles =
          List.filter (λ file, negb (includes "vite." (basename h file)))
            configFiles) as Hfiltered
    by (unfold filteredConfigFiles; by rewrite Hboth).
  split; [done|]. split; [by unfold resolveFolder; simpl; rewrite Hfiltered|].
  split.
  - intros d. unfold resolveFolder. simpl. rewrite foldM_resolveConfig. simpl.
    rewrite elem_of_app, list_elem_of_omap.
    setoid_rewrite (filteredConfigFiles_elem configFiles _ Hboth).
    split.
    + intros [?|(file & [? ?] & ?)]; [by left | right; eauto].
    + intros [?|(file & ? & ? & ?)]; [by left | right; eauto].
  - split.
    + rewrite Hfiltered. apply filter_filter_sub.
      intros x [_ ?]%andb_true_iff. done.
    + intros Hdisjoint. rewrite Hfiltered. clear -Hdisjoint.
      induction configFiles as [|x l IH]; [done|]. cbn.
      assert (List.filter (λ file, includes "vitest." (basename h file))
                (List.filter (λ file, negb (includes "vite." (basename h file))) l)
              = List.filter (λ file, includes "vitest." (basename h file)) l)
        as IH' by (apply IH; intros; apply Hdisjoint;
                   [by apply list_elem_of_further | done]).
      destruct (includes "vitest." (basename h x)) eqn:Hx.
      * rewrite (Hdisjoint x (list_elem_of_here _ _) Hx). cbn.
        by rewrite Hx, IH'.
      * destruct (includes "vite." (basename h x)); cbn; by rewrite ?Hx, IH'.
Qed.

Lemma runnerScript_Some entry script :
  runnerScript entry = Some script ↔
  entry.2 = ScriptString script ∧ ∃ rest, script = "vitest " +:+ rest.
Proof.
  unfold runnerScript. destruct entry.2 as [s|]; [|by split; [|intros []]].
  destruct (startsWith "vitest " s) eqn:Hs.
  - apply startsWith_spec in Hs. split.
    + by intros [= <-].
    + by intros [[= <-] _].
  - split; [done|]. intros [[= <-] Hrest%startsWith_spec]. congruence.
Qed.

(** The loop over the scripts of a manifest.  An entry whose value is a
    string that starts with [vitest] followed by a space adds one descriptor,
    and any other entry adds nothing, whatever its name; so the value
    [vitest] alone adds nothing, and the descriptors the loop adds are
    exactly those of the entries whose value starts with that prefix. *)
Lemma pushScripts_by_command folder cwd pkgPath vitest pkg meta scripts :
  (∀ scriptName rest,
     pushScript folder cwd pkgPath vitest pkg meta
       (scriptName, ScriptString ("vitest " +:+ rest))
     = meta ++ [scriptPackage folder cwd pkgPath vitest pkg scriptName
                  ("vitest " +:+ rest)])
  ∧ (∀ scriptName value,
       (∀ rest, value ≠ ScriptString ("vitest " +:+ rest)) →
       pushScript folder cwd pkgPath vitest pkg meta (scriptName, value) = meta)
  ∧ (∀ scriptName,
       pushScript folder cwd pkgPath vitest pkg meta
         (scriptName, ScriptString "vitest") = meta)
  ∧ ∃ added,
      pushScripts folder cwd pkgPath vitest pkg meta scripts = meta ++ added
      ∧ ∀ d, d ∈ added ↔
          ∃ scriptName script rest,
            (scriptName, ScriptString script) ∈ scripts
            ∧ script = "vitest " +:+ rest
            ∧ d = scriptPackage folder cwd pkgPath vitest pkg scriptName script.
Proof.
  assert (∀ scriptName value,
            (∀ rest, value ≠ ScriptString ("vitest " +:+ rest)) →
            pushScript folder cwd pkgPath vitest pkg meta (scriptName, value)
            = meta) as Hother.
  { intros scriptName [script|] Hvalue; [|done]. unfold pushScript.
    cbn [snd]. destruct (startsWith "vitest " script) eqn:Hs; [|done].
    apply startsWith_spec in Hs as [rest ->]. by destruct (Hvalue rest). }
  split; [|split; [done|split]].
  - intros scriptName rest. unfold pushScript. cbn [fst snd].
    assert (startsWith "vitest " ("vitest " +:+ rest) = true) as ->
      by (apply startsWith_spec; eauto).
    done.
  - intros scriptName. apply Hother. intros rest Heq. injection Heq as Heq.
    apply (f_equal String.length) in Heq.
    rewrite string_length_append in Heq. cbn in Heq. lia.
  - eexists. split; [apply pushScripts_omap|].
    intros d. rewrite list_elem_of_omap. split.
    + intros ([scriptName value] & Hin & Hd).
      apply fmap_Some in Hd as (script & [Hvalue [rest ->]]%runnerScript_Some & ->).
      cbn in Hvalue. subst value. eauto 6.
    + intros (scriptName & script & rest & Hin & Hscript & ->).
      exists (scriptName, ScriptString script). split; [done|].
      apply fmap_Some. exists script. split; [|done].
      apply runnerScript_Some. eauto.
Qed.

(** What a manifest contributes when its runner package resolves and passes
    validation: the descriptors of its qualifying scripts. *)
Lemma manifestPackages_resolved showWarning st pkgPath vitest :
  resolveVitestPackage h (dirname h pkgPath) (getWorkspaceFolder h pkgPath)
    = Some vitest →
  pkg_name (required h (res_vitestPackageJsonPath vitest)) = "vitest" →
  gte h (pkg_version (required h (res_vitestPackageJsonPath vitest)))
    (minimumVersion h) = true →
  (manifestPackages showWarning st pkgPath).1 =
  (pushScripts (getWorkspaceFolder h pkgPath) (dirname h pkgPath) pkgPath
     vitest (required h (res_vitestPackageJsonPath vitest)) st.1
     (manifestScripts h pkgPath),
   st.2).
Proof.
  intros Hres Hname Hgte.
  pose proof (proj2 (validateVitestPkg_true showWarning
    (res_vitestPackageJsonPath vitest)
    (required h (res_vitestPackageJsonPath vitest))) (conj Hname Hgte)) as Hok.
  unfold manifestPackages. rewrite Hres. unfold bind. simpl.
  by rewrite Hok.
Qed.

End WithHost.

(** ** A concrete workspace *)

(** The runner as installed at the root of the workspace [/w]. *)
Definition installed : Resolution :=
  {| res_vitestNodePath := "/w/node_modules/vitest/dist/node.js";
     res_vitestPackageJsonPath := "/w/node_modules/vitest/package.json";
     res_pnp := None |}.

(** A workspace [/w] with the given config files and manifests; every
    manifest has the given scripts, and [resolve] finds the runner for a
    directory. *)
Definition workspace (configs manifests : list string)
    (scripts : list (string * ScriptValue))
    (resolve : string → option Resolution) : Host :=
  {| basename := Pathe.basename;
     dirname := Pathe.dirname;
     normalize := λ path, path;
     workspaceGlob := "**/*vitest.{workspace,projects}*.{ts,js,json}";
     configGlob := "**/*{vite,vitest}*.config*.{ts,js,mjs,cjs,cts,mts}";
     minimumVersion := "1.4.0";
     getConfig := {| workspaceConfig := None; rootConfig := None;
                     configSearchPatternExclude := "**/node_modules/**" |};
     findFiles := λ glob _,
       if String.eqb glob "**/package.json" then manifests
       else if String.eqb glob
                 "**/*{vite,vitest}*.config*.{ts,js,mjs,cjs,cts,mts}"
            then configs
            else [];
     getWorkspaceFolder := λ _, "file:///w";
     uriFile := λ path, path;
     uriToString := λ path, "file://" +:+ path;
     manifestScripts := λ _, scripts;
     resolveVitestPackage := λ dir _, resolve dir;
     required := λ _, {| pkg_name := "vitest"; pkg_version := "1.6.0" |};
     gte := λ _ _, true |}.

Definition app_configs : list string :=
  ["/w/app/vite.config.ts"; "/w/app/vitest.config.ts";
   "/w/app/vitest.e2e.config.ts"].

Definition root_scripts : list (string * ScriptValue) :=
  [("test", ScriptString "vitest run");
   ("e2e", ScriptString "vitest-custom run");
   ("pretest", ScriptString "vitest run");
   ("bare", ScriptString "vitest");
   ("engines", ScriptOther)].

(** Configs and manifest scripts are both present: only the configs are
    used, and the build-tool config is overridden. *)
Example discovery_prefers_configs :
  (λ d, (id d, prefix d)) <$>
    (resolveVitestPackages
       (workspace app_configs ["/w/package.json"] root_scripts
          (λ _, Some installed)) true).1
  = [("/w/app/vitest.config.ts", "app:vitest.config.ts");
     ("/w/app/vitest.e2e.config.ts", "app:vitest.e2e.config.ts")].
Proof. by vm_compute. Qed.

(** No config at all: the manifest scripts are used. *)
Example discovery_falls_back_to_scripts :
  (λ d, (id d, prefix d, arguments d)) <$>
    (resolveVitestPackages
       (workspace [] ["/w/package.json"] root_scripts
          (λ _, Some installed)) true).1
  = [("/w/package.json/test", "package.json:test", Some "vitest run");
     ("/w/package.json/pretest", "package.json:pretest", Some "vitest run")].
Proof. by vm_compute. Qed.

(** A config whose folder lacks the runner: config discovery warns, and the
    manifest scripts are not consulted although the runner is found at the
    root. *)
Example discovery_does_not_fall_back_after_warning :
  resolveVitestPackages
    (workspace ["/w/app/vitest.config.ts"] ["/w/package.json"] root_scripts
       (λ dir, if String.eqb dir "/w" then Some installed else None)) false
  = ([],
     [FindFiles "**/*vitest.{workspace,projects}*.{ts,js,json}"
        "**/node_modules/**";
      FindFiles "**/*{vite,vitest}*.config*.{ts,js,mjs,cjs,cts,mts}"
        "**/node_modules/**";
      LogError ["[API]";
                "Vitest not found for file:///w/app/vitest.config.ts."]]).
Proof. by vm_compute. Qed.

(** Two configs in folders named [proj] next to a config in [/w/x]: the
    config in [/w/x/proj] is renamed to the prefix the config in [/w/x]
    already has. *)
Example discovery_prefix_collision :
  (λ d, (id d, prefix d)) <$>
    (resolveVitestPackages
       (workspace ["/w/x/vitest.config.ts"; "/w/x/proj/vitest.config.ts";
                   "/w/y/proj/vitest.config.ts"] [] []
          (λ _, Some installed)) true).1
  = [("/w/x/vitest.config.ts", "x:vitest.config.ts");
     ("/w/x/proj/vitest.config.ts", "x:vitest.config.ts");
     ("/w/y/proj/vitest.config.ts", "y:vitest.config.ts")].
Proof. by vm_compute. Qed.

(** Two configs in sibling folders: their initial prefixes already differ,
    and nothing is renamed. *)
Example discovery_sibling_folders :
  (λ d, (id d, prefix d)) <$>
    (resolveVitestPackages
       (workspace ["/a/proj1/vitest.config.ts"; "/a/proj2/vitest.config.ts"]
          [] [] (λ _, Some installed)) true).1
  = [("/a/proj1/vitest.config.ts", "proj1:vitest.config.ts");
     ("/a/proj2/vitest.config.ts", "proj2:vitest.config.ts")].
Proof. by vm_compute. Qed.

(** The scripts of [root_scripts] that qualify. *)
Example root_scripts_qualifying :
  (λ d, (id d, arguments d)) <$>
    pushScripts
      (workspace [] ["/w/package.json"] root_scripts (λ _, Some installed))
      "file:///w" "/w" "/w/package.json" installed
      {| pkg_name := "vitest"; pkg_version := "1.6.0" |} [] root_scripts
  = [("/w/package.json/test", Some "vitest run");
     ("/w/package.json/pretest", Some "vitest run")].
Proof. by vm_compute. Qed.

Section Outcomes.

Variable h : Host.

(** ** Loops with effects *)

Lemma foldM_events {A S} (P : Event → Prop) (f : S → A → M S) s l :
  (∀ s x, x ∈ l → Forall P (f s x).2) → Forall P (foldM f s l).2.
Proof.
  revert s. induction l as [|x l IH]; intros s Hf; simpl; [done|].
  apply Forall_app. split; [apply Hf, list_elem_of_here|].
  apply IH. intros s' x' Hx'. by apply Hf, list_elem_of_further.
Qed.

(** ** [validateVitestPkg] *)

(** X8.  The package is accepted exactly when it is named [vitest] and its
    version is at least the minimum; an accepted package causes no call; a
    rejected one is reported once and then dropped from the module cache: a
    package of another name with an error message whatever [showWarning] is,
    an unsupported version with a warning when [showWarning] is set and in the
    log otherwise. *)
Theorem validateVitestPkg_outcome showWarning pkgJsonPath pkg :
  ((validateVitestPkg h showWarning pkgJsonPath pkg).1 = true ↔
     pkg_name pkg = "vitest"
     ∧ gte h (pkg_version pkg) (minimumVersion h) = true)
  ∧ ((validateVitestPkg h showWarning pkgJsonPath pkg).1 = true →
       (validateVitestPkg h showWarning pkgJsonPath pkg).2 = [])
  ∧ ((validateVitestPkg h showWarning pkgJsonPath pkg).1 = false →
       ∃ report,
         (validateVitestPkg h showWarning pkgJsonPath pkg).2 =
         [report; DeleteRequireCache pkgJsonPath])
  ∧ (pkg_name pkg ≠ "vitest" →
       ∃ msg,
         (validateVitestPkg h showWarning pkgJsonPath pkg).2 =
         [ShowErrorMessage msg; DeleteRequireCache pkgJsonPath])
  ∧ (pkg_name pkg = "vitest" →
     gte h (pkg_version pkg) (minimumVersion h) = false →
       ∃ msg args,
         (validateVitestPkg h showWarning pkgJsonPath pkg).2 =
         [if showWarning then ShowWarningMessage msg else LogError args;
          DeleteRequireCache pkgJsonPath]).
Proof.
  unfold validateVitestPkg.
  destruct (String.eqb_spec (pkg_name pkg) "vitest") as [Hn|Hn]; cbn;
    [destruct (gte h (pkg_version pkg) (minimumVersion h)) eqn:Hgte; cbn;
       [|destruct showWarning; cbn]|];
    repeat split; intros; destruct_and?; simplify_eq; eauto.
  by eexists _, [].
Qed.

(** ** Which calls are made *)

(** A warning shown to the user. *)
Definition isWarning (e : Event) : Prop :=
  match e with ShowWarningMessage _ => True | _ => False end.

(** A search of the workspace. *)
Definition search (e : Event) : option (string * string) :=
  match e with FindFiles glob exclude => Some (glob, exclude) | _ => None end.

Lemma validateVitestPkg_quiet pkgJsonPath pkg :
  Forall (λ e, ¬ isWarning e) (validateVitestPkg h false pkgJsonPath pkg).2.
Proof.
  unfold validateVitestPkg.
  destruct (negb _); [repeat constructor; by intros []|].
  destruct (negb _); repeat constructor; by intros [].
Qed.

Lemma resolveVitestConfig_quiet file :
  Forall (λ e, ¬ isWarning e) (resolveVitestConfig h false file).2.
Proof.
  unfold resolveVitestConfig.
  destruct (resolveVitestPackage h _ _) as [vitest|];
    [|repeat constructor; by intros []].
  destruct (res_pnp vitest) as [[loaderPath pnpPath]|]; [by constructor|].
  unfold bind. cbn [fst snd emit]. constructor; [by intros []|].
  apply Forall_app. split; [apply validateVitestPkg_quiet|].
  by destruct (validateVitestPkg h false _ _).1.
Qed.

Lemma manifestPackages_quiet st pkgPath :
  Forall (λ e, ¬ isWarning e) (manifestPackages h false st pkgPath).2.
Proof.
  unfold manifestPackages.
  destruct (resolveVitestPackage h _ _) as [vitest|]; [|by constructor].
  unfold bind. cbn [fst snd emit]. constructor; [by intros []|].
  apply Forall_app. split; [apply validateVitestPkg_quiet|].
  by destruct (validateVitestPkg h false _ _).1.
Qed.

Lemma resolveVitestPackagesViaPackageJson_quiet :
  Forall (λ e, ¬ isWarning e) (resolveVitestPackagesViaPackageJson h false).2.
Proof.
  unfold resolveVitestPackagesViaPackageJson, bind. cbn [fst snd emit].
  constructor; [by intros []|]. rewrite app_nil_r.
  apply Forall_app. split.
  - apply foldM_events. intros. repeat constructor. by intros [].
  - apply foldM_events. intros. apply manifestPackages_quiet.
Qed.

Lemma resolveVitestPackagesViaConfigs_quiet :
  Forall (λ e, ¬ isWarning e) (resolveVitestPackagesViaConfigs h false).2.
Proof.
  assert (∀ rootConfig st files,
            Forall (λ e, ¬ isWarning e)
              (foldM (resolveWorkspace h false rootConfig) st files).2) as Hws.
  { intros. apply foldM_events. intros s x _. unfold resolveWorkspace, bind.
    apply Forall_app. split; [apply resolveVitestConfig_quiet|].
    by destruct (resolveVitestConfig h false x).1. }
  assert (∀ st entries,
            Forall (λ e, ¬ isWarning e)
              (foldM (resolveFolder h false) st entries).2) as Hcfg.
  { intros. apply foldM_events. intros s x _. unfold resolveFolder.
    apply foldM_events. intros s' x' _. unfold resolveConfig, bind.
    apply Forall_app. split; [apply resolveVitestConfig_quiet|].
    by destruct (resolveVitestConfig h false x').1. }
  unfold resolveVitestPackagesViaConfigs.
  destruct (truthy (workspaceConfig (getConfig h))) as [w|]; unfold bind;
    cbn [fst snd emit ret app].
  - constructor; [by intros []|]. rewrite app_nil_r. apply Hws.
  - constructor; [by intros []|].
    destruct (findFiles h (workspaceGlob h) _) as [|w ws].
    + destruct (truthy (rootConfig (getConfig h))) as [r|];
        cbn [fst snd emit ret app].
      * rewrite app_nil_r. apply Hcfg.
      * constructor; [by intros []|]. rewrite app_nil_r. apply Hcfg.
    + cbn [fst snd emit ret app]. rewrite app_nil_r. apply Hws.
Qed.

(** X9.  Without [showWarning], discovery never shows a warning. *)
Theorem resolveVitestPackages_quiet :
  Forall (λ e, ¬ isWarning e) (resolveVitestPackages h false).2.
Proof.
  unfold resolveVitestPackages, bind.
  apply Forall_app. split; [apply resolveVitestPackagesViaConfigs_quiet|].
  destruct (noViableConfigs _); cbn [fst snd ret]; [|done].
  rewrite app_nil_r. apply resolveVitestPackagesViaPackageJson_quiet.
Qed.


(** ** What config-file discovery resolves *)

(** The workspace files: the user's, or those found. *)
Definition workspaceFiles : list string :=
  match truthy (workspaceConfig (getConfig h)) with
  | Some w => [uriFile h w]
  | None =>
      findFiles h (workspaceGlob h) (configSearchPatternExclude (getConfig h))
  end.

(** The config files: the user's root config, or those found. *)
Definition configFiles : list string :=
  match truthy (rootConfig (getConfig h)) with
  | Some r => [uriFile h r]
  | None =>
      findFiles h (configGlob h) (configSearchPatternExclude (getConfig h))
  end.

(** The files handed to [resolveVitestConfig], in order: the workspace files
    if there is one, and otherwise the config files kept in each folder. *)
Definition candidates : list string :=
  match workspaceFiles with
  | _ :: _ => workspaceFiles
  | [] =>
      concat (filteredConfigFiles h <$>
                (obj_entries (foldl (groupConfig h) [] configFiles)).*2)
  end.

(** The descriptor of a candidate, if it resolves. *)
Definition resolved (showWarning : bool) (file : string)
  : option VitestPackage :=
  (resolveVitestConfig h showWarning file).1.

Definition unresolved (showWarning : bool) (file : string) : bool :=
  bool_decide (resolved showWarning file = None).

Lemma foldM_resolveWorkspace showWarning rc st files :
  (foldM (resolveWorkspace h showWarning rc) st files).1 =
  (st.1 ++ (withWorkspace rc <$> omap (resolved showWarning) files),
   st.2 || existsb (unresolved showWarning) files).
Proof.
  revert st. induction files as [|f files IH]; intros [ms w]; simpl.
  - by rewrite app_nil_r, orb_false_r.
  - rewrite IH. unfold resolveWorkspace, unresolved, resolved. simpl.
    destruct (resolveVitestConfig h showWarning f).1 as [v|]; simpl.
    + by rewrite <- app_assoc.
    + by rewrite orb_true_r.
Qed.

Lemma foldM_resolveFolder showWarning st
    (entries : list (string * list string)) :
  (foldM (resolveFolder h showWarning) st entries).1 =
  (st.1 ++ omap (resolved showWarning)
             (concat (filteredConfigFiles h <$> entries.*2)),
   st.2 || existsb (unresolved showWarning)
             (concat (filteredConfigFiles h <$> entries.*2))).
Proof.
  revert st. induction entries as [|[dir files] entries IH]; intros [ms w].
  - simpl. by rewrite app_nil_r, orb_false_r.
  - cbn [foldM bind fst snd fmap list_fmap concat]. rewrite IH.
    unfold resolveFolder. rewrite foldM_resolveConfig. cbn [fst snd].
    rewrite omap_app, existsb_app, <- app_assoc, orb_assoc. done.
Qed.

(** The value of config-file discovery: the descriptors of the candidates
    that resolve, in order, through the prefix assigner; and whether a
    candidate did not resolve. *)
Lemma resolveVitestPackagesViaConfigs_value showWarning :
  (resolveVitestPackagesViaConfigs h showWarning).1 =
  {| meta :=
       resolvePackagUniquePrefixes (basename h)
         ((match workspaceFiles with
           | _ :: _ => withWorkspace (rootConfig (getConfig h))
           | [] => λ d, d
           end) <$> omap (resolved showWarning) candidates);
     warned := existsb (unresolved showWarning) candidates |}.
Proof.
  unfold resolveVitestPackagesViaConfigs, candidates, workspaceFiles,
    configFiles.
  destruct (truthy (workspaceConfig (getConfig h))) as [w|];
    unfold bind; cbn [fst snd emit ret].
  - by rewrite foldM_resolveWorkspace.
  - destruct (findFiles h (workspaceGlob h) _) as [|w ws].
    + destruct (truthy (rootConfig (getConfig h))) as [r|];
        cbn [fst snd emit ret]; rewrite foldM_resolveFolder; cbn [fst snd app];
        by rewrite list_fmap_id.
    + cbn [fst snd]. by rewrite foldM_resolveWorkspace.
Qed.

Lemma omap_length_existsb {A B} (g : A → option B) (l : list A) :
  length (omap g l) ≤ length l
  ∧ (existsb (λ x, bool_decide (g x = None)) l = false ↔
     length (omap g l) = length l).
Proof.
  induction l as [|x l [IHle IHeq]]; [done|]. cbn.
  destruct (g x) as [y|]; cbn.
  - rewrite IHeq. split; [lia|]. split; lia.
  - split; [lia|]. split; [done | lia].
Qed.

Lemma resolvePackagUniquePrefixes_length packages :
  length (resolvePackagUniquePrefixes (basename h) packages) = length packages.
Proof.
  symmetry. eapply Forall2_length.
  apply resolvePackagUniquePrefixes_same_but_prefix.
Qed.

Lemma resolvePackagUniquePrefixes_elem_1 packages d :
  d ∈ resolvePackagUniquePrefixes (basename h) packages →
  ∃ d0, d0 ∈ packages ∧ d = set_prefix (prefix d) d0.
Proof.
  intros [j Hj]%list_elem_of_lookup.
  pose proof (resolvePackagUniquePrefixes_same_but_prefix (basename h) packages)
    as H.
  destruct (Forall2_lookup_r _ _ _ _ _ H Hj) as (d0 & Hd0 & Hsame).
  exists d0. split; [by apply list_elem_of_lookup_2 in Hd0 | done].
Qed.


(** X10.  Config-file discovery returns one descriptor per candidate that
    resolves; it warns exactly when a candidate did not resolve; so the
    fallback condition of [resolveVitestPackages] holds exactly when there was
    no candidate at all. *)
Theorem resolveVitestPackagesViaConfigs_candidates showWarning :
  length (meta (resolveVitestPackagesViaConfigs h showWarning).1)
    = length (omap (resolved showWarning) candidates)
  ∧ length (meta (resolveVitestPackagesViaConfigs h showWarning).1)
    ≤ length candidates
  ∧ (warned (resolveVitestPackagesViaConfigs h showWarning).1 = false ↔
     length (meta (resolveVitestPackagesViaConfigs h showWarning).1)
     = length candidates)
  ∧ (noViableConfigs (resolveVitestPackagesViaConfigs h showWarning).1 = true ↔
     candidates = []).
Proof.
  rewrite resolveVitestPackagesViaConfigs_value. cbn [meta warned].
  rewrite resolvePackagUniquePrefixes_length, length_fmap.
  destruct (omap_length_existsb (resolved showWarning) candidates) as [Hle Heq].
  fold (unresolved showWarning) in Heq.
  split; [done|]. split; [done|]. split; [done|].
  rewrite noViableConfigs_true. cbn [meta warned].
  rewrite <- length_zero_iff_nil, resolvePackagUniquePrefixes_length,
    length_fmap, Heq, <- (length_zero_iff_nil candidates).
  lia.
Qed.


(** ** The descriptors of config-file discovery *)

(** A descriptor built by [resolveVitestConfig]: either of a Plug'n'Play
    installation, with the version [pnp] and no version check, or of a
    package whose version is supported. *)
Definition supported (d : VitestPackage) : Prop :=
  (version d = "pnp" ∧ is_Some (loader d) ∧ is_Some (pnp d))
  ∨ (loader d = None ∧ pnp d = None
     ∧ gte h (version d) (minimumVersion h) = true).

Lemma validateVitestPkg_gte showWarning pkgJsonPath pkg :
  (validateVitestPkg h showWarning pkgJsonPath pkg).1 = true →
  gte h (pkg_version pkg) (minimumVersion h) = true.
Proof. by intros [_ ?]%validateVitestPkg_true. Qed.

Lemma resolved_descriptor showWarning file d :
  resolved showWarning file = Some d →
  id d = normalize h file
  ∧ cwd d = dirname h file
  ∧ folder d = getWorkspaceFolder h file
  ∧ prefix d = basename h (dirname h (normalize h file)) +:+ ":"
               +:+ basename h (normalize h file)
  ∧ arguments d = None ∧ configFile d = None ∧ workspaceFile d = None
  ∧ supported d.
Proof.
  unfold resolved, resolveVitestConfig, supported.
  destruct (resolveVitestPackage h _ _) as [vitest|]; [|done].
  destruct (res_pnp vitest) as [[loaderPath pnpPath]|].
  - intros [= <-]. cbn. repeat split; eauto.
  - unfold bind. cbn [fst snd emit].
    destruct (validateVitestPkg h showWarning _ _).1 eqn:Hok; [|done].
    apply validateVitestPkg_gte in Hok.
    intros [= <-]. cbn. repeat split; eauto.
Qed.

Lemma resolvePackagUniquePrefixes_ids packages :
  id <$> resolvePackagUniquePrefixes (basename h) packages = id <$> packages.
Proof.
  pose proof (resolvePackagUniquePrefixes_same_but_prefix (basename h) packages)
    as H.
  induction H as [|a b l k Hab _ IH]; [done|].
  cbn. rewrite IH. f_equal. rewrite Hab. by destruct a.
Qed.

Lemma resolved_ids showWarning (files : list string) :
  id <$> omap (resolved showWarning) files =
  normalize h <$> filter (λ f, is_Some (resolved showWarning f)) files.
Proof.
  induction files as [|f files IH]; [done|]. rewrite filter_cons. csimpl.
  destruct (resolved showWarning f) as [d|] eqn:Hd.
  - rewrite decide_True by done. csimpl. rewrite IH. f_equal.
    by apply resolved_descriptor in Hd as [? _].
  - rewrite decide_False by by intros [? ?]. done.
Qed.

(** X11.  The ids returned by config-file discovery are the normalized paths
    of the candidates that resolve, in the order of the candidates. *)
Theorem resolveVitestPackagesViaConfigs_ids showWarning :
  id <$> meta (resolveVitestPackagesViaConfigs h showWarning).1 =
  normalize h <$> filter (λ f, is_Some (resolved showWarning f)) candidates.
Proof.
  rewrite resolveVitestPackagesViaConfigs_value. cbn [meta].
  rewrite resolvePackagUniquePrefixes_ids, <- list_fmap_compose.
  rewrite <- resolved_ids. by destruct workspaceFiles.
Qed.

(** X12.  With a workspace file, every descriptor names its own id as
    workspace file and the configured root config as config file; without one,
    no descriptor has a workspace file or a config file. No descriptor of
    config-file discovery has arguments. *)
Theorem resolveVitestPackagesViaConfigs_workspace showWarning d :
  d ∈ meta (resolveVitestPackagesViaConfigs h showWarning).1 →
  (workspaceFiles ≠ [] →
     workspaceFile d = Some (id d)
     ∧ configFile d = rootConfig (getConfig h))
  ∧ (workspaceFiles = [] → workspaceFile d = None ∧ configFile d = None)
  ∧ arguments d = None.
Proof.
  rewrite resolveVitestPackagesViaConfigs_value. cbn [meta].
  intros (d0 & Hd0 & ->)%resolvePackagUniquePrefixes_elem_1.
  apply list_elem_of_fmap in Hd0 as (d1 & -> & Hd1).
  apply list_elem_of_omap in Hd1 as (file & _ & Hfile).
  apply resolved_descriptor in Hfile as (_ & _ & _ & _ & Ha & Hc & Hw & _).
  destruct workspaceFiles as [|w ws]; cbn; rewrite ?Ha, ?Hc, ?Hw; done.
Qed.

(** ** The value of manifest-script discovery *)

(** The manifests found. *)
Definition manifests : list string :=
  findFiles h "**/package.json" (configSearchPatternExclude (getConfig h)).

(** The descriptor of the script [scriptName] of the manifest [pkgPath]. *)
Definition scriptDescriptor (pkgPath : string) (vitest : Resolution)
    (scriptName script : string) : VitestPackage :=
  scriptPackage h (getWorkspaceFolder h pkgPath) (dirname h pkgPath) pkgPath
    vitest (required h (res_vitestPackageJsonPath vitest)) scriptName script.

(** What a manifest adds to [meta]. *)
Definition manifestDescriptors (showWarning : bool) (pkgPath : string)
  : list VitestPackage :=
  (manifestPackages h showWarning ([], false) pkgPath).1.1.

(** Whether a manifest sets [warned]. *)
Definition manifestRejected (showWarning : bool) (pkgPath : string) : bool :=
  (manifestPackages h showWarning ([], false) pkgPath).1.2.

Lemma manifestPackages_value showWarning st pkgPath :
  (manifestPackages h showWarning st pkgPath).1 =
  (st.1 ++ manifestDescriptors showWarning pkgPath,
   st.2 || manifestRejected showWarning pkgPath).
Proof.
  unfold manifestDescriptors, manifestRejected, manifestPackages.
  destruct st as [ms w].
  destruct (resolveVitestPackage h _ _) as [vitest|]; cbn [fst snd ret].
  - unfold bind. cbn [fst snd emit ret].
    destruct (validateVitestPkg h showWarning _ _).1; cbn [fst snd negb].
    + rewrite !pushScripts_omap. cbn. by rewrite orb_false_r.
    + by rewrite app_nil_r, orb_true_r.
  - by rewrite app_nil_r, orb_false_r.
Qed.

Lemma foldM_manifestPackages showWarning st pkgPaths :
  (foldM (manifestPackages h showWarning) st pkgPaths).1 =
  (st.1 ++ concat (manifestDescriptors showWarning <$> pkgPaths),
   st.2 || existsb (manifestRejected showWarning) pkgPaths).
Proof.
  revert st. induction pkgPaths as [|pkgPath rest IH]; intros st.
  - destruct st. simpl. by rewrite app_nil_r, orb_false_r.
  - cbn [foldM bind fst snd fmap list_fmap concat existsb].
    rewrite IH, manifestPackages_value. cbn [fst snd].
    by rewrite <- app_assoc, orb_assoc.
Qed.

Lemma resolveVitestPackagesViaPackageJson_value showWarning :
  (resolveVitestPackagesViaPackageJson h showWarning).1 =
  {| meta := resolvePackagUniquePrefixes (basename h)
               (concat (manifestDescriptors showWarning <$> manifests));
     warned := existsb (manifestRejected showWarning) manifests |}.
Proof.
  unfold resolveVitestPackagesViaPackageJson, bind. cbn [fst snd emit ret].
  by rewrite foldM_manifestPackages.
Qed.

Lemma manifestDescriptors_elem showWarning pkgPath d :
  d ∈ manifestDescriptors showWarning pkgPath ↔
  ∃ vitest scriptName rest,
    resolveVitestPackage h (dirname h pkgPath) (getWorkspaceFolder h pkgPath)
      = Some vitest
    ∧ pkg_name (required h (res_vitestPackageJsonPath vitest)) = "vitest"
    ∧ gte h (pkg_version (required h (res_vitestPackageJsonPath vitest)))
        (minimumVersion h) = true
    ∧ (scriptName, ScriptString ("vitest " +:+ rest))
        ∈ manifestScripts h pkgPath
    ∧ d = scriptDescriptor pkgPath vitest scriptName ("vitest " +:+ rest).
Proof.
  unfold manifestDescriptors, manifestPackages, scriptDescriptor.
  destruct (resolveVitestPackage h _ _) as [vitest|]; cbn [fst snd ret].
  2:{ split; [by intros ?%elem_of_nil | by intros (? & ? & ? & ? & _)]. }
  unfold bind. cbn [fst snd emit ret].
  destruct (validateVitestPkg h showWarning _ _).1 eqn:Hok; cbn [fst snd negb].
  - apply validateVitestPkg_true in Hok as [Hname Hgte].
    rewrite pushScripts_omap. cbn [fst snd app ret]. rewrite list_elem_of_omap.
    split.
    + intros ([scriptName value] & Hin & Hd).
      apply fmap_Some in Hd as (script & [Hvalue [rest ->]]%runnerScript_Some & ->).
      cbn in Hvalue. subst value. exists vitest, scriptName, rest. done.
    + intros (v & scriptName & rest & [= <-] & _ & _ & Hin & ->).
      exists (scriptName, ScriptString ("vitest " +:+ rest)). split; [done|].
      apply fmap_Some. exists ("vitest " +:+ rest). split; [|done].
      apply runnerScript_Some. eauto.
  - split; [by intros ?%elem_of_nil|].
    intros (v & scriptName & rest & [= <-] & Hname & Hgte & _).
    assert ((validateVitestPkg h showWarning (res_vitestPackageJsonPath vitest)
               (required h (res_vitestPackageJsonPath vitest))).1 = true)
      as Hok' by (by apply validateVitestPkg_true).
    congruence.
Qed.



(** X15.  Every descriptor that discovery returns is of a Plug'n'Play
    installation or has a supported version. *)
Theorem resolveVitestPackages_supported showWarning d :
  d ∈ (resolveVitestPackages h showWarning).1 → supported d.
Proof.
  unfold resolveVitestPackages, bind.
  destruct (noViableConfigs _); cbn [fst snd ret].
  - rewrite resolveVitestPackagesViaPackageJson_value. cbn [meta].
    intros (d0 & Hd0 & ->)%resolvePackagUniquePrefixes_elem_1.
    apply list_elem_of_In, in_concat in Hd0 as (ds & Hds & Hd0).
    apply list_elem_of_In, list_elem_of_fmap in Hds as (pkgPath & -> & Hpkg).
    apply list_elem_of_In, manifestDescriptors_elem in Hd0
      as (vitest & scriptName & rest & ? & ? & ? & ? & ->).
    right. done.
  - rewrite resolveVitestPackagesViaConfigs_value. cbn [meta].
    intros (d0 & Hd0 & ->)%resolvePackagUniquePrefixes_elem_1.
    apply list_elem_of_fmap in Hd0 as (d1 & -> & Hd1).
    apply list_elem_of_omap in Hd1 as (file & _ & Hfile).
    apply resolved_descriptor in Hfile as (_ & _ & _ & _ & _ & _ & _ & Hs).
    unfold supported in *. by destruct workspaceFiles.
Qed.


(** ** The searches of config-file discovery *)

Lemma validateVitestPkg_no_search showWarning pkgJsonPath pkg :
  Forall (λ e, search e = None)
    (validateVitestPkg h showWarning pkgJsonPath pkg).2.
Proof.
  unfold validateVitestPkg.
  destruct (negb _); [by repeat constructor|].
  destruct (negb _); [|done]. destruct showWarning; by repeat constructor.
Qed.

Lemma resolveVitestConfig_no_search showWarning file :
  Forall (λ e, search e = None) (resolveVitestConfig h showWarning file).2.
Proof.
  unfold resolveVitestConfig.
  destruct (resolveVitestPackage h _ _) as [vitest|];
    [|destruct showWarning; by repeat constructor].
  destruct (res_pnp vitest) as [[loaderPath pnpPath]|]; [by constructor|].
  unfold bind. cbn [fst snd emit]. constructor; [done|].
  apply Forall_app. split; [apply validateVitestPkg_no_search|].
  by destruct (validateVitestPkg h showWarning _ _).1.
Qed.

Lemma omap_search_nil (calls : list Event) :
  Forall (λ e, search e = None) calls → omap search calls = [].
Proof.
  induction 1 as [|e l He _ IH]; [done|]. cbn. by rewrite He, IH.
Qed.

(** X16.  Config-file discovery searches for workspace files unless the user
    configured one, and for config files only when there is no workspace file
    and no configured root config; it searches for nothing else. *)
Theorem resolveVitestPackagesViaConfigs_searches showWarning :
  omap search (resolveVitestPackagesViaConfigs h showWarning).2 =
  match truthy (workspaceConfig (getConfig h)) with
  | Some _ => []
  | None => [(workspaceGlob h, configSearchPatternExclude (getConfig h))]
  end
  ++ match workspaceFiles, truthy (rootConfig (getConfig h)) with
     | [], None => [(configGlob h, configSearchPatternExclude (getConfig h))]
     | _, _ => []
     end.
Proof.
  assert (∀ rc st files,
            omap search
              (foldM (resolveWorkspace h showWarning rc) st files).2 = [])
    as Hws.
  { intros. apply omap_search_nil, foldM_events. intros s x _.
    unfold resolveWorkspace, bind.
    apply Forall_app. split; [apply resolveVitestConfig_no_search|].
    by destruct (resolveVitestConfig h showWarning x).1. }
  assert (∀ st entries,
            omap search (foldM (resolveFolder h showWarning) st entries).2 = [])
    as Hcfg.
  { intros. apply omap_search_nil, foldM_events. intros s x _.
    unfold resolveFolder.
    apply foldM_events. intros s' x' _. unfold resolveConfig, bind.
    apply Forall_app. split; [apply resolveVitestConfig_no_search|].
    by destruct (resolveVitestConfig h showWarning x').1. }
  unfold resolveVitestPackagesViaConfigs, workspaceFiles.
  destruct (truthy (workspaceConfig (getConfig h))) as [w|]; unfold bind;
    cbn [fst snd emit ret app].
  - rewrite app_nil_r. cbn [omap list_omap search]. apply Hws.
  - destruct (findFiles h (workspaceGlob h) _) as [|w ws].
    + destruct (truthy (rootConfig (getConfig h))) as [r|];
        cbn [fst snd emit ret app]; rewrite app_nil_r;
        cbn [omap list_omap search]; by rewrite Hcfg.
    + cbn [fst snd emit ret app]. rewrite app_nil_r.
      cbn [omap list_omap search]. by rewrite Hws.
Qed.


(** ** Grouping and filtering the config files *)

Lemma foldl_groupConfig_get acc (configs : list string) dir :
  obj_get (foldl (groupConfig h) acc configs) dir =
  if decide (filter (λ f, dirname h f = dir) configs = []) then obj_get acc dir
  else Some (default [] (obj_get acc dir)
             ++ filter (λ f, dirname h f = dir) configs).
Proof.
  revert acc. induction configs as [|f configs IH]; intros acc; [done|].
  cbn [foldl]. rewrite IH. unfold groupConfig. rewrite !obj_get_set.
  rewrite filter_cons. destruct (decide (dirname h f = dir)) as [Hdir|Hdir].
  - rewrite Hdir. repeat case_decide; try done.
    + by match goal with H : filter _ _ = [] |- _ => rewrite H end.
    + cbn. by rewrite <- app_assoc.
  - by repeat case_decide.
Qed.

Lemma foldl_groupConfig_NoDup acc (configs : list string) :
  NoDup acc.*1 → NoDup (foldl (groupConfig h) acc configs).*1.
Proof.
  revert acc. induction configs as [|f configs IH]; intros acc Hnd; [done|].
  cbn [foldl]. apply IH. by apply obj_set_NoDup.
Qed.

(** X17.  The config files are grouped by their folder: every folder is listed
    once, with all the config files of that folder in the order in which they
    were found, and no group is empty. *)
Theorem configsByFolder_groups (configs : list string) :
  NoDup (obj_entries (foldl (groupConfig h) [] configs)).*1
  ∧ ∀ dir files,
      (dir, files) ∈ obj_entries (foldl (groupConfig h) [] configs) ↔
      files = filter (λ f, dirname h f = dir) configs ∧ files ≠ [].
Proof.
  assert (NoDup (foldl (groupConfig h) [] configs).*1) as Hnd
    by apply foldl_groupConfig_NoDup, NoDup_nil_2.
  split; [by rewrite obj_entries_Permutation|].
  intros dir files. rewrite obj_entries_Permutation.
  rewrite (obj_get_elem _ _ _ Hnd), foldl_groupConfig_get. cbn.
  case_decide as Hnil.
  - split; [done|]. intros [-> ?]. done.
  - split; [by intros [= <-] | by intros [-> _]].
Qed.

Lemma filteredConfigFiles_sublist (configFiles : list string) :
  filteredConfigFiles h configFiles `sublist_of` configFiles.
Proof.
  unfold filteredConfigFiles. destruct (hasViteAndVitestConfig h _); [|done].
  induction configFiles as [|f l IH]; [done|]. cbn.
  destruct (negb _); [by apply sublist_skip | by apply sublist_cons].
Qed.

(** X18.  In a folder that does not hold both kinds of config nothing is
    removed; in any folder, the files kept are files of the folder, in their
    order, and a file whose basename does not include [vite.] is always kept. *)
Theorem filteredConfigFiles_keeps (configFiles : list string) :
  ((∀ f, f ∈ configFiles → isViteConfig h f = false) →
     filteredConfigFiles h configFiles = configFiles)
  ∧ ((∀ f, f ∈ configFiles → isVitestConfig h f = false) →
     filteredConfigFiles h configFiles = configFiles)
  ∧ filteredConfigFiles h configFiles `sublist_of` configFiles
  ∧ (∀ f, f ∈ configFiles → isViteConfig h f = false →
       f ∈ filteredConfigFiles h configFiles).
Proof.
  assert (∀ p, (∀ f, f ∈ configFiles → p f = false) →
               existsb p configFiles = false) as Hnone.
  { intros p Hp. apply not_true_is_false. intros (f & Hf & Hpf)%existsb_exists.
    apply list_elem_of_In in Hf. rewrite (Hp f Hf) in Hpf. done. }
  unfold filteredConfigFiles, hasViteAndVitestConfig.
  split; [intros Hp; by rewrite (Hnone _ Hp)|].
  split; [intros Hp; by rewrite (Hnone _ Hp), andb_false_r|].
  split; [apply filteredConfigFiles_sublist|].
  destruct (existsb _ _ && existsb _ _); [|done].
  intros f Hf Hvite. apply list_elem_of_In, filter_In.
  rewrite <- list_elem_of_In, Hvite. done.
Qed.


(** ** Plug'n'Play installations *)

(** X19.  A config file whose runner is a Plug'n'Play installation is accepted
    without loading the runner's manifest, so without any check of its name or
    version and without any message; its descriptor has the version [pnp] and
    carries the loader and the Plug'n'Play file. *)
Theorem resolveVitestConfig_pnp showWarning file vitest loaderPath pnpPath :
  resolveVitestPackage h (dirname h file) (getWorkspaceFolder h file)
    = Some vitest →
  res_pnp vitest = Some (loaderPath, pnpPath) →
  ∃ d,
    resolveVitestConfig h showWarning file = (Some d, [])
    ∧ version d = "pnp"
    ∧ loader d = Some loaderPath ∧ pnp d = Some pnpPath
    ∧ id d = normalize h file ∧ cwd d = dirname h file
    ∧ vitestNodePath d = res_vitestNodePath vitest.
Proof.
  intros Hres Hpnp. unfold resolveVitestConfig. rewrite Hres, Hpnp.
  eexists. split; [done|]. done.
Qed.


(** ** Distinct ids *)

Lemma concat_Permutation {A} (ls ls' : list (list A)) :
  ls ≡ₚ ls' → concat ls ≡ₚ concat ls'.
Proof.
  induction 1 as [|l ls ls' _ IH|l1 l2 ls|ls1 ls2 ls3 _ IH1 _ IH2]; cbn.
  - done.
  - by rewrite IH.
  - rewrite !app_assoc. f_equiv. apply Permutation_app_comm.
  - by rewrite IH1.
Qed.

Lemma concat_sublist {A} (ls ls' : list (list A)) :
  Forall2 sublist ls ls' → concat ls `sublist_of` concat ls'.
Proof.
  induction 1 as [|l l' ls ls' Hl _ IH]; cbn; [done|]. by apply sublist_app.
Qed.

Lemma groupConfig_concat (acc : obj (list string)) config :
  concat (groupConfig h acc config).*2 ≡ₚ concat acc.*2 ++ [config].
Proof.
  unfold groupConfig. generalize (dirname h config). intros dir.
  induction acc as [|[k files] acc IH]; [done|]. cbn.
  destruct (decide (k = dir)) as [->|Hne]; cbn.
  - rewrite <- !app_assoc. f_equiv. apply Permutation_app_comm.
  - by rewrite IH, app_assoc.
Qed.

Lemma foldl_groupConfig_concat (acc : obj (list string)) configs :
  concat (foldl (groupConfig h) acc configs).*2 ≡ₚ concat acc.*2 ++ configs.
Proof.
  revert acc. induction configs as [|config configs IH]; intros acc; cbn.
  - by rewrite app_nil_r.
  - by rewrite IH, groupConfig_concat, <- app_assoc.
Qed.

Lemma candidates_NoDup :
  NoDup workspaceFiles → NoDup configFiles → NoDup candidates.
Proof.
  intros Hws Hcfg. unfold candidates. destruct workspaceFiles; [|done].
  assert (NoDup (concat (obj_entries (foldl (groupConfig h) [] configFiles)).*2))
    as Hall.
  { rewrite (concat_Permutation _ (foldl (groupConfig h) [] configFiles).*2)
      by (by rewrite obj_entries_Permutation).
    by rewrite foldl_groupConfig_concat. }
  eapply sublist_NoDup; [exact Hall|]. apply concat_sublist.
  apply Forall2_fmap_l, Forall_Forall2_diag, Forall_forall.
  intros files _. apply filteredConfigFiles_sublist.
Qed.

(** X30.  When the workspace files and the config files found are pairwise
    distinct and [normalize] does not identify two candidates, the descriptors
    returned by config-file discovery have pairwise distinct ids. *)
Theorem resolveVitestPackagesViaConfigs_distinct_ids showWarning :
  NoDup workspaceFiles → NoDup configFiles →
  (∀ f g, f ∈ candidates → g ∈ candidates →
          normalize h f = normalize h g → f = g) →
  NoDup (id <$> meta (resolveVitestPackagesViaConfigs h showWarning).1).
Proof.
  intros Hws Hcfg Hinj.
  rewrite resolveVitestPackagesViaConfigs_value. cbn [meta].
  rewrite resolvePackagUniquePrefixes_ids, <- list_fmap_compose.
  assert (id <$> omap (resolved showWarning) candidates
          = normalize h <$>
              filter (λ f, is_Some (resolved showWarning f)) candidates) as Hids
    by apply resolved_ids.
  assert (NoDup (id <$> omap (resolved showWarning) candidates)) as Hnd.
  { rewrite Hids. apply NoDup_fmap_2_strong.
    - intros f g [_ Hf]%list_elem_of_filter [_ Hg]%list_elem_of_filter.
      by apply Hinj.
    - by apply NoDup_filter, candidates_NoDup. }
  by destruct workspaceFiles.
Qed.

(** ** Folders that hold both kinds of config *)













(** ** Manifests and their scripts *)





End Outcomes.

(** ** More concrete workspaces *)

(** The workspace [/w] with a workspace file at its root, no config file and
    the manifest with [root_scripts]. *)
Definition monorepo : Host :=
  {| basename := Pathe.basename;
     dirname := Pathe.dirname;
     normalize := λ path, path;
     workspaceGlob := "**/*vitest.{workspace,projects}*.{ts,js,json}";
     configGlob := "**/*{vite,vitest}*.config*.{ts,js,mjs,cjs,cts,mts}";
     minimumVersion := "1.4.0";
     getConfig := {| workspaceConfig := None; rootConfig := None;
                     configSearchPatternExclude := "**/node_modules/**" |};
     findFiles := λ glob _,
       if String.eqb glob "**/*vitest.{workspace,projects}*.{ts,js,json}"
       then ["/w/vitest.workspace.ts"]
       else if String.eqb glob "**/package.json" then ["/w/package.json"]
            else [];
     getWorkspaceFolder := λ _, "file:///w";
     uriFile := λ path, path;
     uriToString := λ path, "file://" +:+ path;
     manifestScripts := λ _, root_scripts;
     resolveVitestPackage := λ _ _, Some installed;
     required := λ _, {| pkg_name := "vitest"; pkg_version := "1.6.0" |};
     gte := λ _ _, true |}.

(** The descriptor of the workspace file of [monorepo]. *)
Definition workspace_descriptor : VitestPackage :=
  {| folder := "file:///w"; prefix := "w:vitest.workspace.ts";
     vitestNodePath := "/w/node_modules/vitest/dist/node.js";
     vitestPackageJsonPath := "/w/node_modules/vitest/package.json";
     id := "/w/vitest.workspace.ts"; cwd := "/w"; version := "1.6.0";
     arguments := None; configFile := None;
     workspaceFile := Some "/w/vitest.workspace.ts";
     loader := None; pnp := None |}.

Example monorepo_discovery :
  resolveVitestPackages monorepo true
  = ([workspace_descriptor],
     [FindFiles "**/*vitest.{workspace,projects}*.{ts,js,json}"
        "**/node_modules/**";
      RequireModule "/w/node_modules/vitest/package.json"]).
Proof. by vm_compute. Qed.

Lemma resolveVitestPackagesViaConfigs_workspace_witness :
  workspaceFiles monorepo = ["/w/vitest.workspace.ts"]
  ∧ meta (resolveVitestPackagesViaConfigs monorepo true).1
    = [workspace_descriptor]
  ∧ workspaceFile workspace_descriptor = Some (id workspace_descriptor)
  ∧ configFile workspace_descriptor = None.
Proof.
  assert (meta (resolveVitestPackagesViaConfigs monorepo true).1
          = [workspace_descriptor]) as Hmeta by (by vm_compute).
  split; [by vm_compute|]. split; [exact Hmeta|].
  destruct (resolveVitestPackagesViaConfigs_workspace monorepo true
              workspace_descriptor) as (Hworkspace & _ & _).
  - rewrite Hmeta. apply list_elem_of_here.
  - apply Hworkspace. by vm_compute.
Defined.


Lemma resolveVitestPackages_supported_witness :
  (resolveVitestPackages monorepo true).1 = [workspace_descriptor]
  ∧ supported monorepo workspace_descriptor.
Proof.
  assert ((resolveVitestPackages monorepo true).1 = [workspace_descriptor])
    as Hmeta by (by vm_compute).
  split; [exact Hmeta|].
  apply (resolveVitestPackages_supported monorepo true workspace_descriptor).
  rewrite Hmeta. apply list_elem_of_here.
Defined.

(** The runner as a Plug'n'Play installation. *)
Definition plug_and_play : Resolution :=
  {| res_vitestNodePath := "/w/.yarn/cache/vitest/dist/node.js";
     res_vitestPackageJsonPath := "/w/.yarn/cache/vitest/package.json";
     res_pnp := Some ("/w/.pnp.loader.mjs", "/w/.pnp.cjs") |}.

Lemma resolveVitestConfig_pnp_witness :
  ∃ d,
    resolveVitestConfig
      (workspace ["/w/vitest.config.ts"] [] [] (λ _, Some plug_and_play))
      true "/w/vitest.config.ts" = (Some d, [])
    ∧ version d = "pnp" ∧ loader d = Some "/w/.pnp.loader.mjs".
Proof.
  destruct (resolveVitestConfig_pnp
              (workspace ["/w/vitest.config.ts"] [] [] (λ _, Some plug_and_play))
              true "/w/vitest.config.ts" plug_and_play
              "/w/.pnp.loader.mjs" "/w/.pnp.cjs")
    as (d & Hd & Hversion & Hloader & _); [done | done |].
  exists d. split; [exact Hd|]. split; [exact Hversion | exact Hloader].
Defined.

Lemma resolveVitestPackagesViaConfigs_distinct_ids_witness :
  candidates (workspace app_configs [] [] (λ _, Some installed))
  = ["/w/app/vitest.config.ts"; "/w/app/vitest.e2e.config.ts"]
  ∧ NoDup (id <$> meta (resolveVitestPackagesViaConfigs
                         (workspace app_configs [] [] (λ _, Some installed))
                         true).1).
Proof.
  split; [by vm_compute|].
  apply (resolveVitestPackagesViaConfigs_distinct_ids
           (workspace app_configs [] [] (λ _, Some installed)) true).
  - apply NoDup_nil_2.
  - by_evaluation.
  - intros f g _ _ Heq. exact Heq.
Defined.

(** ** A folder with both kinds of config *)






(** ** A manifest with scripts *)




End Discovery.

(* ===================================================================== *)
(** * Worker bootstrap: the [init] message handler *)
(* ===================================================================== *)

Module Worker.

(** ** Values, messages and the process *)

(** The values that travel in the [errors] field of a reply. *)
#[warnings="-register-all"]
Inductive Value : Type :=
| VString (s : string)
| VUndefined
| VArray (elements : list Value).

(** A thrown value, read only through [err.stack]. *)
Record Exn : Type := { stack : option string }.

(** [err.stack] *)
Definition stackValue (err : Exn) : Value :=
  match stack err with
  | Some s => VString s
  | None => VUndefined
  end.

(** [String(err.stack)] *)
Definition stackString (err : Exn) : string :=
  default "undefined" (stack err).

(** The fields of [WorkerMeta] that [init] and [initVitest] read. *)
Record WorkerMeta : Type := {
  id : string;
  vitestNodePath : string;
  configFile : option string;
  workspaceFile : option string;
}.

(** [WorkerRunnerOptions], the payload of an [init] message. *)
Record WorkerRunnerOptions : Type := {
  meta : list WorkerMeta;
  loader : option string;
}.

(** A message received by the worker. *)
Inductive Message : Type :=
| Init (data : WorkerRunnerOptions)
| OtherMessage (type : string).

(** A message sent by [init] or [error]: [{ type, errors }]. *)
Record Reply : Type := {
  type : string;
  errors : Value;
}.

Section WithContext.

(** What [initVitest] returns: the engine, its reporter and the meta. *)
Variable Context : Type.

(** What a call can do: return or throw. *)
Inductive Result (A : Type) : Type :=
| Ok (a : A)
| Throws (err : Exn).
Arguments Ok {A} a.
Arguments Throws {A} err.

(** The surroundings of the handler.  [initVitest k cwd meta] is the outcome
    of constructing the [k]-th descriptor's engine while the working
    directory is [cwd]; [wire] is the outcome of everything between the
    directory being restored and the [ready] reply ([new Vitest],
    [createWorkerRPC], [initRpc]).  For [register], [chdir] and [wire],
    [None] means the call returned. *)
Record Host : Type := {
  dirname : string → string;
  register : string → option Exn;
  chdir : string → option Exn;
  initVitest : nat → string → WorkerMeta → Result Context;
  wire : list (WorkerMeta * Context) → option Exn;
}.

(** One call of [initVitest]: the descriptor's id, the working directory at
    the time of the call, and whether it returned. *)
Record Construction : Type := {
  constructed_id : string;
  constructed_in : string;
  constructed_ok : bool;
}.

(** The worker process: its working directory, the directory captured by
    [const cwd = process.cwd()], whether [init] is still subscribed, the
    loaders registered, the calls of [initVitest] so far and the messages
    sent. *)
Record Process : Type := {
  cwd : string;
  original : string;
  listening : bool;
  registered : list string;
  constructions : list Construction;
  sent : list Reply;
}.

Definition set_cwd (dir : string) (p : Process) : Process :=
  {| cwd := dir; original := original p; listening := listening p;
     registered := registered p; constructions := constructions p;
     sent := sent p |}.

Definition set_listening (b : bool) (p : Process) : Process :=
  {| cwd := cwd p; original := original p; listening := b;
     registered := registered p; constructions := constructions p;
     sent := sent p |}.

Definition add_registered (l : string) (p : Process) : Process :=
  {| cwd := cwd p; original := original p; listening := listening p;
     registered := registered p ++ [l]; constructions := constructions p;
     sent := sent p |}.

Definition add_construction (c : Construction) (p : Process) : Process :=
  {| cwd := cwd p; original := original p; listening := listening p;
     registered := registered p; constructions := constructions p ++ [c];
     sent := sent p |}.

Definition add_sent (r : Reply) (p : Process) : Process :=
  {| cwd := cwd p; original := original p; listening := listening p;
     registered := registered p; constructions := constructions p;
     sent := sent p ++ [r] |}.

(** ** Computations that change the process and may throw *)

Definition W (A : Type) : Type := Process → Result A * Process.

Definition ret {A} (a : A) : W A := λ p, (Ok a, p).

Definition bind {A B} (m : W A) (k : A → W B) : W B :=
  λ p, match m p with
       | (Ok a, p') => k a p'
       | (Throws err, p') => (Throws err, p')
       end.

(** [try { m } catch (err) { handler(err) }] *)
Definition try_catch {A} (m : W A) (handler : Exn → W A) : W A :=
  λ p, match m p with
       | (Ok a, p') => (Ok a, p')
       | (Throws err, p') => handler err p'
       end.

Notation "x <- m ;; k" := (bind m (λ x, k))
  (at level 100, m at next level, right associativity).
Notation "m ;; k" := (bind m (λ _, k))
  (at level 100, right associativity).

Variable h : Host.

(** [register(loader)] *)
Definition registerLoader (l : string) : W unit :=
  λ p, match register h l with
       | None => (Ok tt, add_registered l p)
       | Some err => (Throws err, p)
       end.

(** [process.chdir(dir)] *)
Definition processChdir (dir : string) : W unit :=
  λ p, match chdir h dir with
       | None => (Ok tt, set_cwd dir p)
       | Some err => (Throws err, p)
       end.

(** [process.send(reply)] *)
Definition processSend (r : Reply) : W unit :=
  λ p, (Ok tt, add_sent r p).

(** [await initVitest(meta)], with its outcome as a value. *)
Definition construct (k : nat) (m : WorkerMeta) : W (Result Context) :=
  λ p, let outcome := initVitest h k (cwd p) m in
       (Ok outcome,
        add_construction
          {| constructed_id := id m; constructed_in := cwd p;
             constructed_ok := match outcome with Ok _ => true | _ => false end |}
          p).

(** ** The handler *)

(** Body of [for (const meta of data.meta)].  The state is the pair of the
    arrays [vitest] and [errors]. *)
Definition initProject (k : nat)
    (st : list (WorkerMeta * Context) * list Value) (m : WorkerMeta)
  : W (list (WorkerMeta * Context) * list Value) :=
  processChdir (dirname h (id m)) ;;
  outcome <- construct k m ;;
  match outcome with
  | Ok context => ret (st.1 ++ [(m, context)], st.2)
  | Throws err => ret (st.1, st.2 ++ [VArray [VString (id m); stackValue err]])
  end.

Fixpoint initProjects (k : nat)
    (st : list (WorkerMeta * Context) * list Value) (metas : list WorkerMeta)
  : W (list (WorkerMeta * Context) * list Value) :=
  match metas with
  | [] => ret st
  | m :: rest => st' <- initProject k st m ;; initProjects (S k) st' rest
  end.

(** [error(err)] *)
Definition error (err : Exn) : W unit :=
  processSend {| type := "error";
                 errors := VArray [VString ""; VString (stackString err)] |}.

(** The [try] block of [init]. *)
Definition initBody (data : WorkerRunnerOptions) : W unit :=
  match Js.truthy (loader data) with
  | Some l => registerLoader l
  | None => ret tt
  end ;;
  st <- initProjects 0 ([], []) (meta data) ;;
  p <- (λ p, (Ok p, p)) ;;
  processChdir (original p) ;;
  match st.1 with
  | [] => processSend {| type := "error"; errors := VArray st.2 |}
  | _ :: _ =>
      (λ p, match wire h st.1 with
            | None => (Ok tt, p)
            | Some err => (Throws err, p)
            end) ;;
      processSend {| type := "ready"; errors := VArray st.2 |}
  end.

(** [init(message)]: ignore anything but [init]; unsubscribe; run the body
    and hand whatever it throws to [error]. *)
Definition init (message : Message) : W unit :=
  match message with
  | Init data =>
      (λ p, (Ok tt, set_listening false p)) ;;
      try_catch (initBody data) error
  | OtherMessage _ => ret tt
  end.

(** The process after a message has arrived: the handler runs only while it
    is subscribed. *)
Definition deliver (message : Message) (p : Process) : Process :=
  if listening p then (init message p).2 else p.

(** ** What the loop computes when every [chdir] succeeds *)

(** The outcome of each construction, in order, each in the directory of
    its own descriptor. *)
Fixpoint outcomes (k : nat) (metas : list WorkerMeta)
  : list (WorkerMeta * Result Context) :=
  match metas with
  | [] => []
  | m :: rest =>
      (m, initVitest h k (dirname h (id m)) m) :: outcomes (S k) rest
  end.

(** The contexts that were constructed. *)
Definition contexts (os : list (WorkerMeta * Result Context))
  : list (WorkerMeta * Context) :=
  omap (λ o, match o.2 with Ok c => Some (o.1, c) | Throws _ => None end) os.

(** The [(id, errorDetail)] pair of each construction that threw. *)
Definition failures (os : list (WorkerMeta * Result Context)) : list Value :=
  omap (λ o, match o.2 with
             | Ok _ => None
             | Throws err => Some (VArray [VString (id o.1); stackValue err])
             end) os.

Definition construction_of (o : WorkerMeta * Result Context) : Construction :=
  {| constructed_id := id o.1;
     constructed_in := dirname h (id o.1);
     constructed_ok := match o.2 with Ok _ => true | Throws _ => false end |}.

(** The process after the loop has run over [metas]. *)
Definition after_projects (k : nat) (metas : list WorkerMeta) (p : Process)
  : Process :=
  {| cwd := match last metas with
            | Some m => dirname h (id m)
            | None => cwd p
            end;
     original := original p; listening := listening p;
     registered := registered p;
     constructions := constructions p ++ (construction_of <$> outcomes k metas);
     sent := sent p |}.

Lemma initProjects_chdir_ok k st metas p :
  (∀ m, m ∈ metas → chdir h (dirname h (id m)) = None) →
  initProjects k st metas p =
  (Ok (st.1 ++ contexts (outcomes k metas), st.2 ++ failures (outcomes k metas)),
   after_projects k metas p).
Proof.
  revert k st p. induction metas as [|m rest IH]; intros k [vs es] p Hdirs.
  - unfold after_projects. simpl. rewrite !app_nil_r. by destruct p.
  - assert (chdir h (dirname h (id m)) = None) as Hm
      by (apply Hdirs, list_elem_of_here).
    assert (∀ m', m' ∈ rest → chdir h (dirname h (id m')) = None) as Hrest
      by (intros; apply Hdirs; by apply list_elem_of_further).
    cbn [initProjects]. unfold bind at 1.
    unfold initProject, bind, processChdir, construct. rewrite Hm.
    cbn [set_cwd cwd]. unfold contexts, failures. cbn [outcomes omap].
    destruct (initVitest h k (dirname h (id m)) m) as [c|err] eqn:Ho;
      cbn [ret fst snd]; rewrite IH by done; cbn [fst snd];
      unfold after_projects, contexts, failures; cbn;
      rewrite <- ?app_assoc; cbn; repeat f_equal;
      first [ rewrite last_cons; by destruct (last rest)
            | unfold construction_of; cbn; by rewrite Ho ].
Qed.

(** The loop over a list passes through the states of the loop over each of
    its initial parts. *)
Lemma initProjects_app k st metas1 metas2 p :
  initProjects k st (metas1 ++ metas2) p =
  (st' <- initProjects k st metas1 ;;
   initProjects (k + length metas1) st' metas2) p.
Proof.
  revert k st p. induction metas1 as [|m rest IH]; intros k st p.
  - cbn. by replace (k + 0) with k by lia.
  - cbn [app initProjects length]. unfold bind.
    destruct (initProject k st m p) as [[st'|err] p']; [|done].
    rewrite IH. unfold bind.
    by replace (k + S (length rest)) with (S k + length rest) by lia.
Qed.

(** [errors] is a list of [(id, errorDetail)] pairs. *)
Definition pair_list (v : Value) : Prop :=
  ∃ entries, v = VArray entries
    ∧ Forall (λ e, ∃ i detail, e = VArray [VString i; detail]) entries.

Lemma failures_pair_list os : pair_list (VArray (failures os)).
Proof.
  exists (failures os). split; [done|]. apply Forall_forall. intros e He.
  apply list_elem_of_omap in He as ([m [c|err]] & _ & He); [done|].
  injection He as <-. eauto.
Qed.

Lemma contexts_failures_length os :
  length (contexts os) + length (failures os) = length os.
Proof.
  induction os as [|[m [c|err]] os IH]; [done|..];
    unfold contexts, failures in *; cbn; lia.
Qed.

(** The reply of a run in which [register] and every [chdir] returned. *)
Definition reply_of (data : WorkerRunnerOptions) : Reply :=
  match contexts (outcomes 0 (meta data)) with
  | [] => {| type := "error";
             errors := VArray (failures (outcomes 0 (meta data))) |}
  | _ :: _ =>
      match wire h (contexts (outcomes 0 (meta data))) with
      | None => {| type := "ready";
                   errors := VArray (failures (outcomes 0 (meta data))) |}
      | Some err =>
          {| type := "error";
             errors := VArray [VString ""; VString (stackString err)] |}
      end
  end.

Lemma deliver_init_chdir_ok data p :
  listening p = true →
  (∀ l, Js.truthy (loader data) = Some l → register h l = None) →
  (∀ m, m ∈ meta data → chdir h (dirname h (id m)) = None) →
  chdir h (original p) = None →
  deliver (Init data) p =
  {| cwd := original p; original := original p; listening := false;
     registered := registered p ++ option_list (Js.truthy (loader data));
     constructions :=
       constructions p ++ (construction_of <$> outcomes 0 (meta data));
     sent := sent p ++ [reply_of data] |}.
Proof.
  intros Hlisten Hloader Hdirs Horiginal.
  unfold deliver. rewrite Hlisten.
  unfold init, try_catch, initBody, bind at 1. cbn [fst snd].
  unfold reply_of.
  destruct (Js.truthy (loader data)) as [l|] eqn:Hl.
  - unfold bind at 1. unfold registerLoader. rewrite (Hloader l eq_refl).
    unfold bind at 1. rewrite initProjects_chdir_ok by done.
    unfold bind, processChdir. cbn [original after_projects add_registered
      set_listening fst snd]. rewrite Horiginal.
    destruct (contexts (outcomes 0 (meta data))) as [|c cs]; cbn.
    + by rewrite ?app_nil_r.
    + destruct (wire h (c :: cs)); cbn; by rewrite ?app_nil_r.
  - unfold bind at 1. cbn [ret].
    unfold bind at 1. rewrite initProjects_chdir_ok by done.
    unfold bind, processChdir. cbn [original after_projects add_registered
      set_listening fst snd]. rewrite Horiginal.
    destruct (contexts (outcomes 0 (meta data))) as [|c cs]; cbn.
    + by rewrite ?app_nil_r.
    + destruct (wire h (c :: cs)); cbn; by rewrite ?app_nil_r.
Qed.

Lemma outcomes_ids k metas :
  constructed_id <$> (construction_of <$> outcomes k metas) = id <$> metas.
Proof.
  revert k. induction metas as [|m rest IH]; intros k; [done|].
  cbn. f_equal. apply IH.
Qed.

Lemma outcomes_length k metas : length (outcomes k metas) = length metas.
Proof.
  revert k. induction metas as [|m rest IH]; intros k; [done|].
  cbn. f_equal. apply IH.
Qed.

Lemma outcomes_in k metas :
  Forall (λ c, constructed_in c = dirname h (constructed_id c))
    (construction_of <$> outcomes k metas).
Proof.
  revert k. induction metas as [|m rest IH]; intros k; cbn; [done|].
  constructor; [done | apply IH].
Qed.

Lemma contexts_nil_iff os :
  contexts os = [] ↔ Forall (λ c, constructed_ok c = false) (construction_of <$> os).
Proof.
  induction os as [|[m [c|err]] os IH]; unfold contexts in *; cbn.
  - done.
  - split; [done|]. by intros [[=] _]%Forall_cons.
  - rewrite Forall_cons, IH. tauto.
Qed.

Lemma contexts_not_nil_iff os :
  contexts os ≠ [] ↔ Exists (λ c, constructed_ok c = true) (construction_of <$> os).
Proof.
  induction os as [|[m [c|err]] os IH]; unfold contexts in *; cbn.
  - split; [done | by intros ?%Exists_nil].
  - split; [intros _; by left | done].
  - rewrite Exists_cons, IH. cbn. split; [by right | by intros [[=]|?]].
Qed.

Lemma last_take_S {A} (l : list A) n y :
  l !! n = Some y → last (take (S n) l) = Some y.
Proof.
  revert n. induction l as [|x l IH]; intros n Hn; [done|].
  destruct n as [|n]; [by destruct l|].
  change (take (S (S n)) (x :: l)) with (x :: take (S n) l).
  by rewrite last_cons, (IH n Hn).
Qed.

(** ** The claims *)

(** C4 as the specification states it, read off the process: the handler
    sends one reply; every descriptor's construction is attempted; the reply
    is [error] exactly when no construction returned and [ready] exactly when
    one did; and its [errors] are [(id, errorDetail)] pairs. *)
Definition replies_by_contexts (data : WorkerRunnerOptions) (p : Process)
  : Prop :=
  ∃ reply attempts,
    sent (deliver (Init data) p) = sent p ++ [reply]
    ∧ constructions (deliver (Init data) p) = constructions p ++ attempts
    ∧ constructed_id <$> attempts = id <$> meta data
    ∧ (type reply = "error" ↔ Forall (λ c, constructed_ok c = false) attempts)
    ∧ (type reply = "ready" ↔ Exists (λ c, constructed_ok c = true) attempts)
    ∧ pair_list (errors reply).

(** C4 (as amended).  If nothing outside the construction calls throws
    (registering the loader, changing directory, wiring the RPC bridge), the
    handler attempts every descriptor in order, sends exactly one reply, that
    reply carries one [(id, err.stack)] pair per construction that threw, in
    order, and it is [error] exactly when no context was constructed and
    [ready] otherwise. *)
Theorem init_replies_by_contexts data p :
  listening p = true →
  (∀ l, Js.truthy (loader data) = Some l → register h l = None) →
  (∀ m, m ∈ meta data → chdir h (dirname h (id m)) = None) →
  chdir h (original p) = None →
  (contexts (outcomes 0 (meta data)) ≠ [] →
   wire h (contexts (outcomes 0 (meta data))) = None) →
  replies_by_contexts data p
  ∧ (∃ reply,
       sent (deliver (Init data) p) = sent p ++ [reply]
       ∧ errors reply = VArray (failures (outcomes 0 (meta data)))
       ∧ (type reply = "error" ↔ contexts (outcomes 0 (meta data)) = [])
       ∧ (type reply = "ready" ↔ contexts (outcomes 0 (meta data)) ≠ []))
  ∧ length (contexts (outcomes 0 (meta data)))
    + length (failures (outcomes 0 (meta data))) = length (meta data).
Proof.
  intros Hlisten Hloader Hdirs Horiginal Hwire. unfold replies_by_contexts.
  rewrite (deliver_init_chdir_ok data p) by done. cbn [sent constructions].
  assert (errors (reply_of data) = VArray (failures (outcomes 0 (meta data)))
          ∧ (type (reply_of data) = "error" ↔
               contexts (outcomes 0 (meta data)) = [])
          ∧ (type (reply_of data) = "ready" ↔
               contexts (outcomes 0 (meta data)) ≠ [])) as (Herrors & Herror & Hready).
  { unfold reply_of.
    destruct (contexts (outcomes 0 (meta data))) as [|c cs] eqn:Hcs; cbn.
    - split; [done|]. split; [done|]. split; [discriminate | done].
    - rewrite Hwire by done. cbn. split; [done|]. split; [|done].
      split; discriminate. }
  split; [|split].
  - exists (reply_of data), (construction_of <$> outcomes 0 (meta data)).
    split; [done|]. split; [done|]. split; [apply outcomes_ids|].
    rewrite <- contexts_nil_iff, <- contexts_not_nil_iff, Herrors.
    split; [done|]. split; [done|]. apply failures_pair_list.
  - by exists (reply_of data).
  - by rewrite contexts_failures_length, outcomes_length.
Qed.

(** C8 as the specification states it: after each descriptor's
    initialization the working directory is the original one again. *)
Definition restored_after_each (metas : list WorkerMeta) (p : Process)
  : Prop :=
  ∀ n, n < length metas →
    cwd (initProjects 0 ([], []) (take (S n) metas) p).2 = original p.

(** C8 (as amended).  If registering the loader and every [chdir] return,
    each construction runs in the directory of its own descriptor's id, the
    working directory after the [n]-th descriptor is still that descriptor's
    directory, and it is the original directory once the handler is done:
    the directory is restored once, after the last descriptor. *)
Theorem init_restores_cwd_after_loop data p :
  listening p = true →
  (∀ l, Js.truthy (loader data) = Some l → register h l = None) →
  (∀ m, m ∈ meta data → chdir h (dirname h (id m)) = None) →
  chdir h (original p) = None →
  (∃ attempts,
     constructions (deliver (Init data) p) = constructions p ++ attempts
     ∧ constructed_id <$> attempts = id <$> meta data
     ∧ Forall (λ c, constructed_in c = dirname h (constructed_id c)) attempts)
  ∧ (∀ n m q, meta data !! n = Some m →
       cwd (initProjects 0 ([], []) (take (S n) (meta data)) q).2
       = dirname h (id m))
  ∧ cwd (deliver (Init data) p) = original p.
Proof.
  intros Hlisten Hloader Hdirs Horiginal.
  rewrite (deliver_init_chdir_ok data p) by done. cbn [cwd constructions].
  split; [|split; [|done]].
  - exists (construction_of <$> outcomes 0 (meta data)).
    split; [done|]. split; [apply outcomes_ids | apply outcomes_in].
  - intros n m q Hn. rewrite initProjects_chdir_ok.
    + cbn. by rewrite (last_take_S _ _ _ Hn).
    + intros m' Hm'. apply Hdirs. by apply (subseteq_take (S n)).
Qed.

(** The reply of a run whose loader cannot be registered. *)
Lemma deliver_init_register_throws data p l err :
  listening p = true →
  Js.truthy (loader data) = Some l → register h l = Some err →
  sent (deliver (Init data) p) =
  sent p ++ [{| type := "error";
                errors := VArray [VString ""; VString (stackString err)] |}].
Proof.
  intros Hlisten Hl Herr. unfold deliver. rewrite Hlisten.
  unfold init, try_catch, initBody, bind, registerLoader.
  by rewrite Hl, Herr.
Qed.

(** The [errors] that [error] sends are two strings, not a list of pairs. *)
Lemma error_reply_not_pair_list s1 s2 :
  ¬ pair_list (VArray [VString s1; VString s2]).
Proof.
  intros (entries & [= <-] & Hall).
  apply Forall_cons in Hall as [(i & detail & [=]) _].
Qed.

(** ** What the loop never touches *)

(** The loop changes the working directory and the list of constructions,
    and nothing else. *)
Lemma initProjects_frame k st metas p :
  sent (initProjects k st metas p).2 = sent p
  ∧ listening (initProjects k st metas p).2 = listening p
  ∧ original (initProjects k st metas p).2 = original p
  ∧ registered (initProjects k st metas p).2 = registered p.
Proof.
  revert k st p. induction metas as [|m rest IH]; intros k st p; [done|].
  cbn [initProjects]. unfold bind at 1.
  unfold initProject, bind, processChdir, construct.
  destruct (chdir h (dirname h (id m))) as [err|]; [done|].
  destruct (initVitest h k _ m) as [c|err]; cbn [ret fst snd];
    match goal with
    | |- context [initProjects ?k' ?st' rest ?p'] =>
        destruct (IH k' st' p') as (-> & -> & -> & ->)
    end; done.
Qed.

(** The top-level reply. *)
Definition errorReply (err : Exn) : Reply :=
  {| type := "error";
     errors := VArray [VString ""; VString (stackString err)] |}.

(** The [try] block either sends one reply, of type [error] or [ready], or
    throws without having sent anything. *)
Lemma initBody_outcome data p :
  match initBody data p with
  | (Ok _, p') =>
      ∃ reply, sent p' = sent p ++ [reply]
        ∧ (type reply = "error" ∨ type reply = "ready")
        ∧ listening p' = listening p ∧ original p' = original p
  | (Throws _, p') =>
      sent p' = sent p ∧ listening p' = listening p
      ∧ original p' = original p
  end.
Proof.
  unfold initBody. unfold bind at 1.
  assert (match (match Js.truthy (loader data) with
                 | Some l => registerLoader l
                 | None => ret tt
                 end) p with
          | (_, p1) => sent p1 = sent p ∧ listening p1 = listening p
                       ∧ original p1 = original p
          end) as Hreg.
  { destruct (Js.truthy (loader data)) as [l|]; [|done].
    unfold registerLoader. by destruct (register h l). }
  destruct ((match Js.truthy (loader data) with
             | Some l => registerLoader l
             | None => ret tt
             end) p) as [[[]|err] p1]; [|done].
  destruct Hreg as (Hs & Hl & Ho). unfold bind at 1.
  destruct (initProjects_frame 0 ([], []) (meta data) p1)
    as (Hs' & Hl' & Ho' & _).
  destruct (initProjects 0 ([], []) (meta data) p1) as [[st|err] p2];
    cbn [fst snd] in *; [|by rewrite Hs', Hl', Ho'].
  unfold bind at 1. unfold bind at 1. unfold processChdir.
  destruct (chdir h (original p2)) as [err|]; [by rewrite Hs', Hl', Ho'|].
  destruct st.1 as [|c cs].
  { eexists. cbn. rewrite Hs', Hs, Hl', Hl, Ho', Ho.
    split; [done|]. split; [by left | done]. }
  unfold bind. destruct (wire h (c :: cs)) as [err|].
  - cbn. by rewrite Hs', Hl', Ho'.
  - eexists. cbn. rewrite Hs', Hs, Hl', Hl, Ho', Ho.
    split; [done|]. split; [by right | done].
Qed.

(** X20.  Whatever happens, the handler answers an [init] message with exactly
    one reply, of type [error] or [ready], and unsubscribes. *)
Theorem init_replies_once data p :
  listening p = true →
  ∃ reply,
    sent (deliver (Init data) p) = sent p ++ [reply]
    ∧ (type reply = "error" ∨ type reply = "ready")
    ∧ listening (deliver (Init data) p) = false
    ∧ original (deliver (Init data) p) = original p.
Proof.
  intros Hlisten. unfold deliver. rewrite Hlisten.
  unfold init, try_catch, bind. cbn [fst snd].
  pose proof (initBody_outcome data (set_listening false p)) as Hbody.
  destruct (initBody data (set_listening false p)) as [[[]|err] p'].
  - destruct Hbody as (reply & ? & ? & ? & ?). by exists reply.
  - destruct Hbody as (Hs & Hl & Ho). exists (errorReply err). cbn.
    rewrite Hs, Hl, Ho. split; [done|]. split; [by left | done].
Qed.

Lemma deliver_init_unsubscribes data p :
  listening p = true → listening (deliver (Init data) p) = false.
Proof.
  intros Hlisten. unfold deliver. rewrite Hlisten.
  unfold init, try_catch, bind. cbn [fst snd].
  pose proof (initBody_outcome data (set_listening false p)) as Hbody.
  destruct (initBody data (set_listening false p)) as [[[]|err] p'].
  - destruct Hbody as (reply & _ & _ & Hl & _). cbn. by rewrite Hl.
  - destruct Hbody as (_ & Hl & _). cbn. by rewrite Hl.
Qed.

(** X21.  The handler ignores every message that is not an [init] message, and
    after its first [init] message it ignores every message. *)
Theorem init_handled_once data p :
  listening p = true →
  (∀ t, deliver (OtherMessage t) p = p)
  ∧ (∀ message,
       deliver message (deliver (Init data) p) = deliver (Init data) p).
Proof.
  intros Hlisten. split.
  - intros t. unfold deliver. by rewrite Hlisten.
  - intros message. unfold deliver at 1.
    by rewrite (deliver_init_unsubscribes data p Hlisten).
Qed.

(** X22.  An [init] message without descriptors is answered with [error] and
    an empty list of errors. *)
Theorem init_without_descriptors data p :
  listening p = true →
  meta data = [] →
  (∀ l, Js.truthy (loader data) = Some l → register h l = None) →
  chdir h (original p) = None →
  sent (deliver (Init data) p) =
    sent p ++ [{| type := "error"; errors := VArray [] |}]
  ∧ constructions (deliver (Init data) p) = constructions p
  ∧ cwd (deliver (Init data) p) = original p.
Proof.
  intros Hlisten Hmeta Hloader Horiginal.
  rewrite (deliver_init_chdir_ok data p); try done.
  - unfold reply_of. rewrite Hmeta. cbn. by rewrite app_nil_r.
  - rewrite Hmeta. by intros m ?%elem_of_nil.
Qed.

(** The run of the [try] block up to the loop, when the loader can be
    registered. *)
Lemma registered_then_projects data p :
  (∀ l, Js.truthy (loader data) = Some l → register h l = None) →
  initBody data p =
  (st <- initProjects 0 ([], []) (meta data) ;;
   p <- (λ p, (Ok p, p)) ;;
   processChdir (original p) ;;
   match st.1 with
   | [] => processSend {| type := "error"; errors := VArray st.2 |}
   | _ :: _ =>
       (λ p, match wire h st.1 with
             | None => (Ok tt, p)
             | Some err => (Throws err, p)
             end) ;;
       processSend {| type := "ready"; errors := VArray st.2 |}
   end)
    (match Js.truthy (loader data) with
     | Some l => add_registered l p
     | None => p
     end).
Proof.
  intros Hloader. unfold initBody. unfold bind at 1.
  destruct (Js.truthy (loader data)) as [l|]; [|done].
  unfold registerLoader. by rewrite (Hloader l eq_refl).
Qed.

(** X23.  When the working directory cannot be changed for a descriptor, the
    descriptors after it are never attempted, the reply is the top-level
    [error], and the working directory stays where the descriptor before it
    left it. *)
Theorem init_aborts_on_chdir_failure data p pre m post err :
  listening p = true →
  (∀ l, Js.truthy (loader data) = Some l → register h l = None) →
  meta data = pre ++ m :: post →
  (∀ m', m' ∈ pre → chdir h (dirname h (id m')) = None) →
  chdir h (dirname h (id m)) = Some err →
  sent (deliver (Init data) p) = sent p ++ [errorReply err]
  ∧ constructions (deliver (Init data) p) =
      constructions p ++ (construction_of <$> outcomes 0 pre)
  ∧ cwd (deliver (Init data) p) =
      match last pre with
      | Some m' => dirname h (id m')
      | None => cwd p
      end.
Proof.
  intros Hlisten Hloader Hmeta Hpre Hm.
  assert (deliver (Init data) p =
          add_sent (errorReply err)
            (after_projects 0 pre
               (match Js.truthy (loader data) with
                | Some l => add_registered l (set_listening false p)
                | None => set_listening false p
                end))) as ->.
  { unfold deliver. rewrite Hlisten.
    unfold init, try_catch, bind at 1. cbn [fst snd].
    rewrite (registered_then_projects data _ Hloader).
    unfold bind at 1. rewrite Hmeta, initProjects_app. unfold bind at 1.
    rewrite initProjects_chdir_ok by done.
    cbn [initProjects]. unfold bind at 1. unfold initProject, bind at 1.
    unfold processChdir at 1. by rewrite Hm. }
  destruct (Js.truthy (loader data)); cbn; by destruct (last pre).
Qed.

(** X24.  When the loader cannot be registered, nothing else is attempted: the
    process only unsubscribes and sends the top-level [error]. *)
Theorem init_loader_failure data p l err :
  listening p = true →
  Js.truthy (loader data) = Some l →
  register h l = Some err →
  deliver (Init data) p = add_sent (errorReply err) (set_listening false p).
Proof.
  intros Hlisten Hl Herr. unfold deliver. rewrite Hlisten.
  unfold init, try_catch, initBody, bind, registerLoader.
  by rewrite Hl, Herr.
Qed.

Lemma initBody_registered data p :
  registered (initBody data p).2 =
  registered p ++
  match Js.truthy (loader data) with
  | Some l => match register h l with None => [l] | Some _ => [] end
  | None => []
  end.
Proof.
  unfold initBody. unfold bind at 1.
  destruct (Js.truthy (loader data)) as [l|].
  - unfold registerLoader. destruct (register h l) as [err|].
    { cbn. by rewrite app_nil_r. }
    unfold bind at 1.
    destruct (initProjects_frame 0 ([], []) (meta data) (add_registered l p))
      as (_ & _ & _ & Hr).
    destruct (initProjects 0 ([], []) (meta data) (add_registered l p))
      as [[st|err] p2]; cbn [fst snd] in *; [|done].
    unfold bind at 1. unfold bind at 1. unfold processChdir.
    destruct (chdir h (original p2)); [done|]. destruct st.1; [done|].
    unfold bind. by destruct (wire h _).
  - cbn [ret]. unfold bind at 1.
    destruct (initProjects_frame 0 ([], []) (meta data) p) as (_ & _ & _ & Hr).
    destruct (initProjects 0 ([], []) (meta data) p)
      as [[st|err] p2]; cbn [fst snd] in *; [|by rewrite app_nil_r].
    unfold bind at 1. unfold bind at 1. unfold processChdir.
    destruct (chdir h (original p2)); [by rewrite app_nil_r|].
    destruct st.1; [by rewrite app_nil_r|].
    unfold bind. destruct (wire h _); by rewrite app_nil_r.
Qed.

(** X25.  The loader is registered exactly when it is a non-empty string for
    which [register] returns, once; nothing else is ever registered. *)
Theorem init_registers_loader data p :
  listening p = true →
  registered (deliver (Init data) p) =
  registered p ++
  match Js.truthy (loader data) with
  | Some l => match register h l with None => [l] | Some _ => [] end
  | None => []
  end.
Proof.
  intros Hlisten. unfold deliver. rewrite Hlisten.
  unfold init, try_catch, bind. cbn [fst snd].
  pose proof (initBody_registered data (set_listening false p)) as Hr.
  destruct (initBody data (set_listening false p)) as [[[]|err] p']; exact Hr.
Qed.

(** X26.  When wiring the contexts to the RPC bridge throws, every descriptor
    has been attempted and the working directory is the original one again,
    and the reply is the top-level [error] although contexts exist. *)
Theorem init_wiring_failure data p err :
  listening p = true →
  (∀ l, Js.truthy (loader data) = Some l → register h l = None) →
  (∀ m, m ∈ meta data → chdir h (dirname h (id m)) = None) →
  chdir h (original p) = None →
  contexts (outcomes 0 (meta data)) ≠ [] →
  wire h (contexts (outcomes 0 (meta data))) = Some err →
  sent (deliver (Init data) p) = sent p ++ [errorReply err]
  ∧ constructions (deliver (Init data) p) =
      constructions p ++ (construction_of <$> outcomes 0 (meta data))
  ∧ cwd (deliver (Init data) p) = original p.
Proof.
  intros Hlisten Hloader Hdirs Horiginal Hcontexts Hwire.
  rewrite (deliver_init_chdir_ok data p) by done. cbn.
  unfold reply_of. rewrite Hwire.
  by destruct (contexts (outcomes 0 (meta data))).
Qed.

(** ** The dictionary of contexts *)

(** [Object.fromEntries(vitest.map(v =>
      [v.meta.id, new Vitest(v.meta.id, v.vitest)]))], for the constructor
    [newVitest] of the context class. *)
Definition vitestById {V : Type} (newVitest : string → Context → V)
    (vitest : list (WorkerMeta * Context)) : Js.obj V :=
  foldl (λ o v, Js.obj_set o (id v.1) (newVitest (id v.1) v.2)) [] vitest.

Lemma vitestById_snoc {V : Type} (newVitest : string → Context → V)
    vitest v :
  vitestById newVitest (vitest ++ [v]) =
  Js.obj_set (vitestById newVitest vitest) (id v.1) (newVitest (id v.1) v.2).
Proof. unfold vitestById. by rewrite foldl_app. Qed.

(** X27.  The dictionary maps an id to the context wrapper of the last
    descriptor with that id whose construction returned, and has no entry for
    any other id; every key occurs once. *)
Theorem vitestById_lookup {V : Type} (newVitest : string → Context → V)
    vitest k :
  Js.obj_get (vitestById newVitest vitest) k =
    (λ v, newVitest k v.2) <$> last (filter (λ v, id v.1 = k) vitest)
  ∧ NoDup (vitestById newVitest vitest).*1.
Proof.
  induction vitest as [|v vitest [IHget IHkeys]] using rev_ind; [split; [done|]|].
  { apply NoDup_nil_2. }
  rewrite vitestById_snoc. split; [|by apply Js.obj_set_NoDup].
  rewrite Js.obj_get_set, filter_app, filter_cons, filter_nil.
  destruct (decide (id v.1 = k)) as [<-|Hne].
  - by rewrite last_snoc.
  - by rewrite app_nil_r.
Qed.

End WithContext.

Arguments Ok {A} a.
Arguments Throws {A} err.

(** ** A concrete worker *)

(** A worker whose contexts are just units.  [chdir] throws for the
    directories in [missing], construction throws for the ids in [broken],
    and [register] throws when [bad_loader] is set. *)
Definition worker (missing broken : list string) (bad_loader : bool)
  : Host unit :=
  {| dirname := Pathe.dirname;
     register := λ _,
       if bad_loader
       then Some {| stack := Some "Error: Cannot find module" |}
       else None;
     chdir := λ dir,
       if bool_decide (dir ∈ missing)
       then Some {| stack := Some "Error: ENOENT: no such file or directory" |}
       else None;
     initVitest := λ _ _ m,
       if bool_decide (id m ∈ broken)
       then Throws {| stack := Some "Error: failed to load config" |}
       else Ok tt;
     wire := λ _, None |}.

Definition project (path : string) : WorkerMeta :=
  {| id := path; vitestNodePath := "/w/node_modules/vitest/dist/node.js";
     configFile := None; workspaceFile := None |}.

Definition three_descriptors : WorkerRunnerOptions :=
  {| meta := [project "/w/a/vitest.config.ts";
              project "/w/b/vitest.config.ts";
              project "/w/c/vitest.config.ts"];
     loader := None |}.

(** A freshly started worker. *)
Definition started : Process :=
  {| cwd := "/home/user"; original := "/home/user"; listening := true;
     registered := []; constructions := []; sent := [] |}.

(** The second of three constructions throws: [ready], one pair. *)
Example second_of_three_throws :
  sent (deliver unit (worker [] ["/w/b/vitest.config.ts"] false)
          (Init three_descriptors) started)
  = [{| type := "ready";
        errors := VArray [VArray [VString "/w/b/vitest.config.ts";
                                  VString "Error: failed to load config"]] |}].
Proof. by vm_compute. Qed.

(** All three constructions throw: [error], three pairs. *)
Example all_three_throw :
  sent (deliver unit
          (worker [] ["/w/a/vitest.config.ts"; "/w/b/vitest.config.ts";
                      "/w/c/vitest.config.ts"] false)
          (Init three_descriptors) started)
  = [{| type := "error";
        errors := VArray [VArray [VString "/w/a/vitest.config.ts";
                                  VString "Error: failed to load config"];
                          VArray [VString "/w/b/vitest.config.ts";
                                  VString "Error: failed to load config"];
                          VArray [VString "/w/c/vitest.config.ts";
                                  VString "Error: failed to load config"]] |}].
Proof. by vm_compute. Qed.

Lemma init_replies_by_contexts_witness :
  replies_by_contexts unit (worker [] ["/w/b/vitest.config.ts"] false)
    three_descriptors started
  ∧ length (contexts unit
              (outcomes unit (worker [] ["/w/b/vitest.config.ts"] false) 0
                 (meta three_descriptors))) = 2.
Proof.
  destruct (init_replies_by_contexts unit
              (worker [] ["/w/b/vitest.config.ts"] false)
              three_descriptors started) as (Hclaim & _ & _).
  - done.
  - intros l Hl. by vm_compute in Hl.
  - intros m Hm. cbn [chdir worker].
    by rewrite bool_decide_eq_false_2 by apply not_elem_of_nil.
  - by vm_compute.
  - done.
  - split; [exact Hclaim | by vm_compute].
Defined.

(** C4 (counterexample).  The directory of the second descriptor is gone:
    [process.chdir] throws outside the inner [try], so the third descriptor
    is never attempted and the reply is the [error] of the top-level handler,
    although the first context was constructed. *)
Lemma missing_directory_aborts_init :
  sent (deliver unit (worker ["/w/b"] [] false) (Init three_descriptors)
          started)
  = [{| type := "error";
        errors := VArray [VString "";
                          VString "Error: ENOENT: no such file or directory"] |}]
  ∧ constructions (deliver unit (worker ["/w/b"] [] false)
                     (Init three_descriptors) started)
    = [{| constructed_id := "/w/a/vitest.config.ts";
          constructed_in := "/w/a"; constructed_ok := true |}]
  ∧ ¬ replies_by_contexts unit (worker ["/w/b"] [] false) three_descriptors
        started.
Proof.
  split; [by vm_compute|]. split; [by vm_compute|].
  intros (reply & attempts & _ & Hattempts & Hids & _).
  vm_compute in Hattempts. subst attempts. by vm_compute in Hids.
Qed.

Definition two_descriptors : WorkerRunnerOptions :=
  {| meta := [project "/w/a/vitest.config.ts";
              project "/w/b/vitest.config.ts"];
     loader := None |}.

Lemma init_restores_cwd_after_loop_witness :
  cwd (deliver unit (worker [] [] false) (Init two_descriptors) started)
  = "/home/user"
  ∧ cwd (initProjects unit (worker [] [] false) 0 ([], [])
           (take 1 (meta two_descriptors)) started).2 = "/w/a".
Proof.
  destruct (init_restores_cwd_after_loop unit (worker [] [] false)
              two_descriptors started) as (_ & Heach & Hfinal).
  - done.
  - intros l Hl. by vm_compute in Hl.
  - intros m Hm. cbn [chdir worker].
    by rewrite bool_decide_eq_false_2 by apply not_elem_of_nil.
  - by vm_compute.
  - split; [exact Hfinal|].
    exact (Heach 0 (project "/w/a/vitest.config.ts") started eq_refl).
Defined.

(** C8 (counterexample).  After the first of two descriptors the working
    directory is that descriptor's directory, not the original one: nothing
    restores it between two descriptors. *)
Lemma cwd_not_restored_between_projects :
  cwd (initProjects unit (worker [] [] false) 0 ([], [])
         (take 1 (meta two_descriptors)) started).2 = "/w/a"
  ∧ original started = "/home/user"
  ∧ ¬ restored_after_each unit (worker [] [] false) (meta two_descriptors)
        started.
Proof.
  split; [by vm_compute|]. split; [done|].
  intros Hall. assert (0 < length (meta two_descriptors)) as Hlt by (cbn; lia).
  apply Hall in Hlt. by vm_compute in Hlt.
Qed.

(** C9 (the code at the failing input).  The loader cannot be registered:
    the reply is [error], and its [errors] field is the array of the two
    strings [''] and the stack, not a list holding one [(id, errorDetail)]
    pair. *)
Theorem failed_loader_reply :
  sent (deliver unit (worker [] [] true)
          (Init {| meta := meta three_descriptors;
                   loader := Some "/w/.pnp.loader.mjs" |}) started)
  = [{| type := "error";
        errors := VArray [VString ""; VString "Error: Cannot find module"] |}]
  ∧ ¬ pair_list (VArray [VString ""; VString "Error: Cannot find module"])
  ∧ pair_list (VArray [VArray [VString "";
                               VString "Error: Cannot find module"]]).
Proof.
  split; [by vm_compute|]. split; [apply error_reply_not_pair_list|].
  eexists. split; [done|]. repeat constructor. eauto.
Qed.

(** ** The plugin handed to the engine *)

(** What [configResolved] touches of the resolved config:
    [config.server.hmr], which the plugin replaces with a stub whose server
    ignores subscriptions, and [config.server.fs.allow]. *)
Inductive Hmr : Type :=
| ConfiguredHmr (options : string)
| StubbedHmr.

Record ResolvedConfig : Type := {
  server_hmr : Hmr;
  server_fs_allow : list string;
}.

(** [configResolved(config)] of the plugin [vitest:vscode-extension]:
    [config.server.hmr = { server: { on, off } };
     if (!config.server.fs.allow.includes(setupFilePath))
       config.server.fs.allow.push(setupFilePath)]. *)
Definition configResolved (setupFilePath : string) (config : ResolvedConfig)
  : ResolvedConfig :=
  {| server_hmr := StubbedHmr;
     server_fs_allow :=
       if negb (Js.array_includes (server_fs_allow config) setupFilePath)
       then server_fs_allow config ++ [setupFilePath]
       else server_fs_allow config |}.

(** X28.  After [configResolved] the setup file is allowed and the hot-reload
    server is the stub; the entries allowed before keep their places; no entry
    is added twice; and a second call changes nothing. *)
Theorem configResolved_allows_setup_file setupFilePath config :
  setupFilePath ∈ server_fs_allow (configResolved setupFilePath config)
  ∧ server_hmr (configResolved setupFilePath config) = StubbedHmr
  ∧ (∃ added,
       server_fs_allow (configResolved setupFilePath config) =
         server_fs_allow config ++ added
       ∧ (added = [] ↔ setupFilePath ∈ server_fs_allow config)
       ∧ (added = [setupFilePath] ↔ setupFilePath ∉ server_fs_allow config))
  ∧ (NoDup (server_fs_allow config) →
     NoDup (server_fs_allow (configResolved setupFilePath config)))
  ∧ configResolved setupFilePath (configResolved setupFilePath config) =
    configResolved setupFilePath config.
Proof.
  unfold configResolved, Js.array_includes. cbn [server_fs_allow server_hmr].
  destruct (decide (setupFilePath ∈ server_fs_allow config)) as [Hin|Hnin].
  - rewrite !bool_decide_eq_true_2 by done. cbn [negb].
    split; [done|]. split; [done|]. split; [|done].
    exists []. rewrite app_nil_r. split; [done|].
    split; split; intros; done.
  - rewrite !bool_decide_eq_false_2 by done. cbn [negb].
    assert (setupFilePath ∈ server_fs_allow config ++ [setupFilePath]) as Hnow
      by (apply elem_of_app; right; apply list_elem_of_here).
    rewrite ?bool_decide_eq_true_2 by done. cbn [negb].
    split; [done|]. split; [done|]. split; [|split; [|done]].
    + exists [setupFilePath]. split; [done|].
      split; split; intros; done.
    + intros Hnd. apply NoDup_app. split; [done|].
      split; [|apply NoDup_singleton].
      intros x Hx ->%list_elem_of_singleton. done.
Qed.

(** ** More concrete runs *)

(** A worker like [worker] whose contexts cannot be wired to the bridge. *)
Definition unwired : Host unit :=
  {| dirname := Pathe.dirname;
     register := λ _, None;
     chdir := λ _, None;
     initVitest := λ _ _ _, Ok tt;
     wire := λ _, Some {| stack := Some "Error: Channel closed" |} |}.

Definition no_descriptors : WorkerRunnerOptions :=
  {| meta := []; loader := Some "" |}.

Definition with_loader : WorkerRunnerOptions :=
  {| meta := meta three_descriptors; loader := Some "/w/.pnp.loader.mjs" |}.

Lemma init_replies_once_witness :
  ∃ reply,
    sent (deliver unit (worker ["/w/b"] [] false) (Init three_descriptors)
            started) = [reply]
    ∧ (type reply = "error" ∨ type reply = "ready").
Proof.
  destruct (init_replies_once unit (worker ["/w/b"] [] false)
              three_descriptors started) as (reply & Hsent & Htype & _);
    [done|].
  exists reply. split; [exact Hsent | exact Htype].
Defined.

Lemma init_handled_once_witness :
  deliver unit (worker [] [] false) (OtherMessage "ping") started = started
  ∧ sent (deliver unit (worker [] [] false) (Init two_descriptors)
            (deliver unit (worker [] [] false) (Init three_descriptors)
               started))
    = [{| type := "ready"; errors := VArray [] |}].
Proof.
  destruct (init_handled_once unit (worker [] [] false) three_descriptors
              started) as (Hother & Hlater); [done|].
  split; [apply Hother|]. rewrite Hlater. by vm_compute.
Defined.

Lemma init_without_descriptors_witness :
  sent (deliver unit (worker [] [] false) (Init no_descriptors) started)
  = [{| type := "error"; errors := VArray [] |}].
Proof.
  destruct (init_without_descriptors unit (worker [] [] false) no_descriptors
              started) as (Hsent & _);
    [done | done | intros l Hl; by vm_compute in Hl | done | exact Hsent].
Defined.

Lemma init_aborts_on_chdir_failure_witness :
  sent (deliver unit (worker ["/w/b"] [] false) (Init three_descriptors)
          started)
  = [{| type := "error";
        errors := VArray [VString "";
                          VString "Error: ENOENT: no such file or directory"] |}]
  ∧ cwd (deliver unit (worker ["/w/b"] [] false) (Init three_descriptors)
           started) = "/w/a".
Proof.
  destruct (init_aborts_on_chdir_failure unit (worker ["/w/b"] [] false)
              three_descriptors started
              [project "/w/a/vitest.config.ts"]
              (project "/w/b/vitest.config.ts")
              [project "/w/c/vitest.config.ts"]
              {| stack := Some "Error: ENOENT: no such file or directory" |})
    as (Hsent & _ & Hcwd);
    [ done | intros l Hl; by vm_compute in Hl | done
    | intros m' ->%list_elem_of_singleton; by vm_compute
    | by vm_compute | ].
  split; [exact Hsent | exact Hcwd].
Defined.

Lemma init_loader_failure_witness :
  deliver unit (worker [] [] true) (Init with_loader) started
  = {| cwd := "/home/user"; original := "/home/user"; listening := false;
       registered := []; constructions := [];
       sent := [{| type := "error";
                   errors := VArray [VString "";
                                     VString "Error: Cannot find module"] |}] |}.
Proof.
  by apply (init_loader_failure unit (worker [] [] true) with_loader started
              "/w/.pnp.loader.mjs" {| stack := Some "Error: Cannot find module" |}).
Defined.

Lemma init_registers_loader_witness :
  registered (deliver unit (worker [] [] false) (Init with_loader) started)
  = ["/w/.pnp.loader.mjs"]
  ∧ registered (deliver unit (worker [] [] false) (Init no_descriptors) started)
    = [].
Proof.
  split.
  - by apply (init_registers_loader unit (worker [] [] false) with_loader
                started).
  - by apply (init_registers_loader unit (worker [] [] false) no_descriptors
                started).
Defined.

Lemma init_wiring_failure_witness :
  sent (deliver unit unwired (Init three_descriptors) started)
  = [{| type := "error";
        errors := VArray [VString ""; VString "Error: Channel closed"] |}]
  ∧ length (constructions (deliver unit unwired (Init three_descriptors)
                             started)) = 3
  ∧ cwd (deliver unit unwired (Init three_descriptors) started) = "/home/user".
Proof.
  destruct (init_wiring_failure unit unwired three_descriptors started
              {| stack := Some "Error: Channel closed" |})
    as (Hsent & Hconstructions & Hcwd);
    [ done | intros l Hl; by vm_compute in Hl | done | done | done | done | ].
  split; [exact Hsent|]. split; [by rewrite Hconstructions | exact Hcwd].
Defined.

End Worker.

(* ===================================================================== *)
(** * RPC dispatch: [createWorkerMethods] *)
(* ===================================================================== *)

Module Rpc.
Import Js.

(** A property key handed to the proxy's [get] trap. *)
Inductive PropertyKey : Type :=
| PString (s : string)
| PSymbol (description : option string).

(** [String(prop)] *)
Definition keyString (prop : PropertyKey) : string :=
  match prop with
  | PString s => s
  | PSymbol (Some d) => "Symbol(" +:+ d +:+ ")"
  | PSymbol None => "Symbol()"
  end.

(** [part] occurs in [whole]. *)
Definition occurs_in (part whole : string) : Prop :=
  ∃ before after, whole = before +:+ part +:+ after.



Section WithVitest.

(** The execution context class of [./vitest], the arguments and results of
    its methods, and what its methods throw. *)
Variables Vitest Arg Value Thrown : Type.

(** What a call does: return a value, or throw an [Error] with a message,
    or throw something of the context's own. *)
Inductive Completion : Type :=
| Return (v : Value)
| ThrowError (message : string)
| Throw (t : Thrown).

(** [prop in vitest] *)
Variable hasProperty : Vitest → PropertyKey → bool.

(** [vitest[prop](...args)] *)
Variable invoke : Vitest → PropertyKey → list Arg → Completion.

(** [await vitest.dispose()]: [None] when it returns. *)
Variable dispose : Vitest → option Thrown.

(** The same for a member inherited from [Object.prototype] (a built-in
    function, or [Object.prototype] itself for [__proto__]), which is what a
    read of the dictionary finds for an id that names such a member and has
    no context: [prop in member] and [member[prop](...args)]. *)
Variable memberHas : string → PropertyKey → bool.
Variable memberInvoke : string → PropertyKey → list Arg → Completion.

(** What [vitestById[id]] finds. *)
Inductive Found : Type :=
| Entered (vitest : Vitest)
| InheritedMember (name : string).

(** [vitestById[id]]: the dictionary is a plain object, so a read that
    finds no own property goes on to [Object.prototype]. *)
Definition lookup (vitestById : obj Vitest) (id : string) : option Found :=
  match obj_get vitestById id with
  | Some vitest => Some (Entered vitest)
  | None => if inherited id then Some (InheritedMember id) else None
  end.

(** What the proxy hands out for a property. *)
Inductive Member : Type :=
| CloseFunction (close : list (string * option Thrown))
| MethodFunction (call : string → list Arg → Completion).

(** [close()]: dispose every context in enumeration order, ignoring what a
    disposal throws.  The result lists the disposals made and what each
    threw; [close] itself returns normally. *)
Definition close (vitestById : obj Vitest) : list (string * option Thrown) :=
  (λ e, (e.1, dispose e.2)) <$> obj_entries vitestById.

(** The function returned for any property but [close]:
    [const vitest = vitestById[id];
     if (!vitest) throw new Error(...);
     if (prop in vitest) return vitest[prop](...args)
     else throw new Error(...)].
    A context and an inherited member are both truthy. *)
Definition method (vitestById : obj Vitest) (prop : PropertyKey)
    (id : string) (args : list Arg) : Completion :=
  match lookup vitestById id with
  | None => ThrowError ("Vitest instance not found with id: " +:+ id)
  | Some (Entered vitest) =>
      if hasProperty vitest prop then invoke vitest prop args
      else ThrowError ("Method not found: " +:+ keyString prop)
  | Some (InheritedMember name) =>
      if memberHas name prop then memberInvoke name prop args
      else ThrowError ("Method not found: " +:+ keyString prop)
  end.

(** [createWorkerMethods(vitestById)], as the proxy's [get] trap. *)
Definition createWorkerMethods (vitestById : obj Vitest) (prop : PropertyKey)
  : Member :=
  match prop with
  | PString "close" => CloseFunction (close vitestById)
  | _ => MethodFunction (method vitestById prop)
  end.

Lemma createWorkerMethods_not_close vitestById prop :
  prop ≠ PString "close" →
  createWorkerMethods vitestById prop = MethodFunction (method vitestById prop).
Proof.
  intros Hne. unfold createWorkerMethods.
  destruct prop as [s|d]; [|done].
  destruct (String.eqb_spec s "close") as [->|Hs]; [done|].
  repeat (match goal with
          | |- match ?x with _ => _ end = _ => destruct x; try done
          end).
Qed.

(** Dispatch for the ids that name a context or nothing at all.  For every
    property other than [close] the proxy hands out a function of an id and
    further arguments.  Called with an id that has no context and is not the
    name of an inherited member it throws an [Error] whose message contains
    [Vitest instance not found] and the id; called with the id of a context
    that lacks the property it throws an [Error] whose message contains
    [Method not found] and the property's name; called with the id of a
    context that has the property it is the call of the context's own member
    of that name with the further arguments. *)
Lemma rpc_dispatch vitestById prop :
  prop ≠ PString "close" →
  ∃ call,
    createWorkerMethods vitestById prop = MethodFunction call
    ∧ ∀ id args,
        match obj_get vitestById id with
        | None =>
            inherited id = false →
            ∃ message, call id args = ThrowError message
              ∧ occurs_in "Vitest instance not found" message
              ∧ occurs_in id message
        | Some vitest =>
            if hasProperty vitest prop
            then call id args = invoke vitest prop args
            else ∃ message, call id args = ThrowError message
                   ∧ occurs_in "Method not found" message
                   ∧ occurs_in (keyString prop) message
        end.
Proof.
  intros Hne. exists (method vitestById prop).
  split; [by apply createWorkerMethods_not_close|].
  intros id args. unfold method, lookup.
  destruct (obj_get vitestById id) as [vitest|].
  - destruct (hasProperty vitest prop); [done|].
    eexists. split; [done|]. split.
    + by exists "", (": " +:+ keyString prop).
    + exists "Method not found: ", "". by rewrite string_append_nil_r.
  - intros ->. eexists. split; [done|]. split.
    + by exists "", (" with id: " +:+ id).
    + exists "Vitest instance not found with id: ", "".
      by rewrite string_append_nil_r.
Qed.

(** An id without a context that names an inherited member is never
    reported as missing: the call goes to that member. *)
Lemma rpc_inherited_member vitestById prop id args :
  obj_get vitestById id = None → inherited id = true →
  method vitestById prop id args =
  if memberHas id prop then memberInvoke id prop args
  else ThrowError ("Method not found: " +:+ keyString prop).
Proof. intros Hnone Hin. unfold method, lookup. by rewrite Hnone, Hin. Qed.

(** [close] disposes every context, whatever a disposal throws. *)
Lemma close_disposes_all vitestById :
  (close vitestById).*1 ≡ₚ vitestById.*1.
Proof.
  unfold close. rewrite <- list_fmap_compose.
  by rewrite (obj_entries_Permutation vitestById).
Qed.

(** ** [close] *)

(** An object none of whose keys is an array index is enumerated in
    insertion order. *)
Lemma obj_entries_insertion_order {V} (o : list (string * V)) :
  Forall (λ e, array_index e.1 = None) o → obj_entries o = o.
Proof.
  intros Hplain. unfold obj_entries, obj.
  assert (filter (λ e : string * V, is_Some (array_index e.1)) o = []) as ->.
  { induction Hplain as [|e o He _ IH]; [done|].
    rewrite filter_cons, decide_False; [done|]. rewrite He. by intros [? ?]. }
  assert (filter (λ e : string * V, ¬ is_Some (array_index e.1)) o = o) as ->.
  { induction Hplain as [|e o He _ IH]; [done|].
    rewrite filter_cons, decide_True, IH; [done|]. rewrite He. by intros [? ?]. }
  done.
Qed.

(** X29.  [close] disposes every context of the dictionary exactly once and
    nothing else, whatever a disposal throws; when no id is an array index, in
    the order in which the contexts were entered. *)
Theorem close_disposes_each_once vitestById :
  (close vitestById).*1 ≡ₚ vitestById.*1
  ∧ (∀ id thrown,
       (id, thrown) ∈ close vitestById ↔
       ∃ vitest, (id, vitest) ∈ vitestById ∧ thrown = dispose vitest)
  ∧ (Forall (λ e, array_index e.1 = None) vitestById →
     close vitestById = (λ e, (e.1, dispose e.2)) <$> vitestById).
Proof.
  split; [apply close_disposes_all|]. split.
  - intros id thrown. unfold close. rewrite list_elem_of_fmap. split.
    + intros ([k v] & [= -> ->] & Hin).
      rewrite obj_entries_Permutation in Hin. eauto.
    + intros (v & Hin & ->). exists (id, v). split; [done|].
      by rewrite obj_entries_Permutation.
  - intros Hplain. unfold close. by rewrite obj_entries_insertion_order.
Qed.

End WithVitest.

(** ** A concrete bridge *)

(** A context that is the list of its member names; a call returns the name
    of the member called. *)
Definition named_members (members : list string) (prop : PropertyKey) : bool :=
  bool_decide (keyString prop ∈ members).

Definition echo (members : list string) (prop : PropertyKey)
    (args : list string) : Completion string Empty_set :=
  Return string Empty_set (keyString prop).

(** The string-keyed properties of a built-in function inherited from
    [Object.prototype]: those of every function and those every object
    inherits.  No method of a context is among them. *)
Definition function_members : list string :=
  ["length"; "name"; "arguments"; "caller"; "apply"; "bind"; "call"]
  ++ prototype_members.

Definition builtin_has (name : string) (prop : PropertyKey) : bool :=
  match prop with
  | PString s => bool_decide (s ∈ function_members)
  | PSymbol _ => false
  end.

Definition builtin_invoke (name : string) (prop : PropertyKey)
    (args : list string) : Completion string Empty_set :=
  Return string Empty_set (name +:+ "." +:+ keyString prop).

Definition one_project : obj (list string) :=
  [("/w/a/vitest.config.ts", ["collectTests"; "runTests"; "dispose"])].

(** The bridge over [one_project]. *)
Definition bridge (prop : PropertyKey) (id : string) (args : list string)
  : Completion string Empty_set :=
  method (list string) string string Empty_set named_members echo
    builtin_has builtin_invoke one_project prop id args.

Example rpc_unknown_method :
  bridge (PString "frobnicate") "/w/a/vitest.config.ts" []
  = ThrowError string Empty_set "Method not found: frobnicate".
Proof. by vm_compute. Qed.

Example rpc_unknown_id :
  bridge (PString "collectTests") "/w/b/vitest.config.ts" []
  = ThrowError string Empty_set
      "Vitest instance not found with id: /w/b/vitest.config.ts".
Proof. by vm_compute. Qed.

Example rpc_dispatch_example :
  PString "collectTests" ≠ PString "close"
  ∧ ∃ call,
      createWorkerMethods (list string) string string Empty_set
        named_members echo (λ _, None) builtin_has builtin_invoke
        one_project (PString "collectTests")
      = MethodFunction string string Empty_set call
      ∧ call "/w/a/vitest.config.ts" [] = Return string Empty_set "collectTests"
      ∧ ∃ message,
          call "/w/b/vitest.config.ts" [] = ThrowError string Empty_set message
          ∧ occurs_in "/w/b/vitest.config.ts" message.
Proof.
  split; [done|].
  destruct (rpc_dispatch (list string) string string Empty_set
              named_members echo (λ _, None) builtin_has builtin_invoke
              one_project (PString "collectTests"))
    as (call & Hcall & Hspec); [done|].
  exists call. split; [exact Hcall|]. split.
  - exact (Hspec "/w/a/vitest.config.ts" []).
  - destruct (Hspec "/w/b/vitest.config.ts" [] eq_refl)
      as (message & ? & _ & ?).
    by exists message.
Qed.


End Rpc.

